(** * Donor deduplication: identity resolution core

    A shallow embedding of the identity-resolution scripts
    ([assign_master_ids.py], [normalize_addresses.py],
    [household_id_builder.py], [apply_alias_overrides.py],
    [link_committees_to_candidates.py], [parse_names.py]), the properties
    their specification states about them, and further properties of the
    code itself.

    Conventions of the embedding:
    - a Python [str] is a [string]; the text is ASCII, so [str.upper]
      maps [a-z] to [A-Z] and [str.strip] removes the ASCII characters for
      which [str.isspace] holds;
    - a Python [float] is a binary64 [float] (Rocq's primitive floats), every
      arithmetic operation written in the order Python evaluates it;
    - a Python [int] that counts characters is a [nat]; a record id is a [Z];
    - [hashlib.sha256] is the SHA-256 function of FIPS 180-4, written out
      below on 32-bit words held in [Z];
    - an exception is the [None] of an [option]. *)

From Stdlib Require Import ZArith List Ascii String Floats Uint63 Lia Bool.
From stdpp Require Import base option list strings gmap sorting.

Set Warnings "-inexact-float".
Local Open Scope string_scope.

(** ** Python strings *)

Definition code (c : ascii) : nat := nat_of_ascii c.

(** [c.islower()] on ASCII. *)
Definition is_lower (c : ascii) : bool := (97 <=? code c)%nat && (code c <=? 122)%nat.

(** [c.isspace()] on ASCII: TAB, LF, VT, FF, CR, FS, GS, RS, US and SPACE. *)
Definition is_space (c : ascii) : bool :=
  ((9 <=? code c)%nat && (code c <=? 13)%nat)
  || ((28 <=? code c)%nat && (code c <=? 32)%nat).

Definition is_digit (c : ascii) : bool := (48 <=? code c)%nat && (code c <=? 57)%nat.

Definition is_upper (c : ascii) : bool := (65 <=? code c)%nat && (code c <=? 90)%nat.

(** [\w] of the [re] module on ASCII: letters, digits and the underscore. *)
Definition is_word (c : ascii) : bool :=
  is_lower c || is_upper c || is_digit c || (code c =? 95)%nat.

Definition upper_char (c : ascii) : ascii :=
  if is_lower c then ascii_of_nat (code c - 32) else c.

Definition lower_char (c : ascii) : ascii :=
  if is_upper c then ascii_of_nat (code c + 32) else c.

Fixpoint smap (f : ascii -> ascii) (s : string) : string :=
  match s with
  | EmptyString => EmptyString
  | String c s' => String (f c) (smap f s')
  end.

(** [s.upper()] and [s.lower()]. *)
Definition upper : string -> string := smap upper_char.
Definition lower : string -> string := smap lower_char.

(** [s.lstrip(chars)], [s.rstrip(chars)] with the stripped class as a predicate. *)
Fixpoint lstrip_by (p : ascii -> bool) (s : string) : string :=
  match s with
  | EmptyString => EmptyString
  | String c s' => if p c then lstrip_by p s' else s
  end.

Fixpoint rstrip_by (p : ascii -> bool) (s : string) : string :=
  match s with
  | EmptyString => EmptyString
  | String c s' =>
      match rstrip_by p s' with
      | EmptyString => if p c then EmptyString else String c EmptyString
      | r => String c r
      end
  end.

(** [s.strip()]. *)
Definition strip (s : string) : string := rstrip_by is_space (lstrip_by is_space s).

(** [s[:n]]. *)
Fixpoint str_take (n : nat) (s : string) : string :=
  match n, s with
  | S n', String c s' => String c (str_take n' s')
  | _, _ => EmptyString
  end.

(** [s[n:]]. *)
Fixpoint str_drop (n : nat) (s : string) : string :=
  match n, s with
  | S n', String _ s' => str_drop n' s'
  | _, _ => s
  end.

(** [not s]: the empty string is the only falsy one. *)
Definition falsy (s : string) : bool := bool_decide (s = "").

(** [sep.join(parts)]. *)
Fixpoint str_join (sep : string) (parts : list string) : string :=
  match parts with
  | [] => ""
  | [p] => p
  | p :: ps => p ++ sep ++ str_join sep ps
  end.

(** [s.startswith(p)]. *)
Fixpoint starts_with (p s : string) : bool :=
  match p, s with
  | EmptyString, _ => true
  | String a p', String b s' => bool_decide (a = b) && starts_with p' s'
  | String _ _, EmptyString => false
  end.

(** ** Python floats *)

Module PyFloat.
Local Open Scope float_scope.

(** [float(n)] for a count [n]; exact below [2^53]. *)
Definition of_nat (n : nat) : float := of_uint63 (Uint63.of_Z (Z.of_nat n)).

(** [x >= y]. *)
Definition geb (x y : float) : bool := (y <=? x).

(** [x > y]. *)
Definition gtb (x y : float) : bool := (y <? x).

End PyFloat.

(** ** SimilarityScorer: [calculate_name_similarity] *)

Section Jaro.
Local Open Scope float_scope.

Variables (s1 s2 : list ascii).

Definition char_at (s : list ascii) (i : nat) : ascii := nth i s Ascii.zero.
Definition flag_at (m : list bool) (i : nat) : bool := nth i m false.

(** The inner [for j in range(lo, lo + n)] of the matching pass: the first
    [j] that is not yet matched and carries the character [c]. *)
Fixpoint find_match (c : ascii) (s2_matches : list bool) (j n : nat) : option nat :=
  match n with
  | O => None
  | S n' =>
      if flag_at s2_matches j || negb (bool_decide (c = char_at s2 j))
      then find_match c s2_matches (S j) n'
      else Some j
  end.

(** One iteration of [for i in range(len1)] of the matching pass, on the
    state [(s1_matches, s2_matches, matches)]. *)
Definition match_step (match_distance : nat)
    (st : list bool * list bool * nat) (i : nat) : list bool * list bool * nat :=
  let '(s1_matches, s2_matches, matches) := st in
  let lo := (i - match_distance)%nat in
  let hi := Nat.min (i + match_distance + 1) (length s2) in
  match find_match (char_at s1 i) s2_matches lo (hi - lo) with
  | Some j => (<[i := true]> s1_matches, <[j := true]> s2_matches, S matches)
  | None => st
  end.

Definition match_pass (match_distance : nat) : list bool * list bool * nat :=
  fold_left (match_step match_distance) (seq 0 (length s1))
            (replicate (length s1) false, replicate (length s2) false, O).

(** [while not s2_matches[k]: k += 1]; reading past the end of the list
    raises [IndexError]. *)
Fixpoint skip_unmatched (s2_matches : list bool) (k fuel : nat) : option nat :=
  match fuel with
  | O => None
  | S fuel' =>
      if flag_at s2_matches k then Some k
      else skip_unmatched s2_matches (S k) fuel'
  end.

(** One iteration of the transposition pass, on the state [(k, transpositions)]. *)
Definition transposition_step (s1_matches s2_matches : list bool)
    (st : option (nat * nat)) (i : nat) : option (nat * nat) :=
  match st with
  | None => None
  | Some (k, transpositions) =>
      if negb (flag_at s1_matches i) then Some (k, transpositions)
      else
        match skip_unmatched s2_matches k (length s2_matches - k) with
        | None => None
        | Some k' =>
            Some (S k',
                  if bool_decide (char_at s1 i = char_at s2 k')
                  then transpositions else S transpositions)
        end
  end.

Definition transposition_pass (s1_matches s2_matches : list bool) : option nat :=
  snd <$> fold_left (transposition_step s1_matches s2_matches)
                    (seq 0 (length s1)) (Some (O, O)).

(** [sum(1 for i in range(min(4, len1, len2)) if s1[i] == s2[i])]. *)
Definition prefix_count : nat :=
  length (filter (fun i => char_at s1 i = char_at s2 i)
                 (seq 0 (Nat.min 4 (Nat.min (length s1) (length s2))))).

(** [(matches/len1 + matches/len2 + (matches - transpositions/2)/matches) / 3]. *)
Definition jaro_formula (matches transpositions : nat) : float :=
  (PyFloat.of_nat matches / PyFloat.of_nat (length s1)
   + PyFloat.of_nat matches / PyFloat.of_nat (length s2)
   + (PyFloat.of_nat matches - PyFloat.of_nat transpositions / 2)
     / PyFloat.of_nat matches) / 3.

(** The body of [calculate_name_similarity] from [len1, len2 = ...] on. *)
Definition jaro_winkler : option float :=
  if bool_decide (length s1 = O) || bool_decide (length s2 = O) then Some 0
  else
    let match_distance := (Nat.max (length s1) (length s2) / 2 - 1)%nat in
    let '(s1_matches, s2_matches, matches) := match_pass match_distance in
    if bool_decide (matches = O) then Some 0
    else
      match transposition_pass s1_matches s2_matches with
      | None => None
      | Some transpositions =>
          let jaro := jaro_formula matches transpositions in
          Some (jaro + PyFloat.of_nat prefix_count * 0.1 * (1 - jaro))
      end.

End Jaro.

Definition calculate_name_similarity (name1 name2 : string) : option float :=
  if falsy name1 || falsy name2 then Some 0%float
  else
    let s1 := strip (upper name1) in
    let s2 := strip (upper name2) in
    if bool_decide (s1 = s2) then Some 1%float
    else jaro_winkler (list_ascii_of_string s1) (list_ascii_of_string s2).

(** ** SHA-256 ([hashlib.sha256]) *)

Module SHA256.
Local Open Scope Z_scope.

Definition mask32 : Z := 0xffffffff.
Definition add32 (x y : Z) : Z := Z.land (x + y) mask32.
Definition rotr (n x : Z) : Z :=
  Z.lor (Z.shiftr x n) (Z.land (Z.shiftl x (32 - n)) mask32).
Definition shr (n x : Z) : Z := Z.shiftr x n.
Definition xor3 (x y z : Z) : Z := Z.lxor (Z.lxor x y) z.

Definition Ch (x y z : Z) : Z :=
  Z.lxor (Z.land x y) (Z.land (Z.lxor x mask32) z).
Definition Maj (x y z : Z) : Z := xor3 (Z.land x y) (Z.land x z) (Z.land y z).
Definition Sigma0 (x : Z) : Z := xor3 (rotr 2 x) (rotr 13 x) (rotr 22 x).
Definition Sigma1 (x : Z) : Z := xor3 (rotr 6 x) (rotr 11 x) (rotr 25 x).
Definition sigma0 (x : Z) : Z := xor3 (rotr 7 x) (rotr 18 x) (shr 3 x).
Definition sigma1 (x : Z) : Z := xor3 (rotr 17 x) (rotr 19 x) (shr 10 x).

(** The first 64 primes. *)
Definition is_prime (n : Z) : bool :=
  forallb (fun d => negb (n mod Z.of_nat d =? 0)) (seq 2 (Z.to_nat n - 2)).

Definition primes : list Z :=
  Eval vm_compute in List.filter is_prime (map Z.of_nat (seq 2 310)).

(** The integer cube root of [n], searched between [lo] and [hi]. *)
Fixpoint cube_root_between (fuel : nat) (lo hi n : Z) : Z :=
  match fuel with
  | O => lo
  | S fuel' =>
      let mid := (lo + hi) / 2 in
      if mid * mid * mid <=? n
      then cube_root_between fuel' mid hi n
      else cube_root_between fuel' lo mid n
  end.

Definition cube_root (n : Z) : Z := cube_root_between 40 0 (2 ^ 36) n.

(** The round constants: the first 32 bits of the fractional parts of the
    cube roots of the first 64 primes. *)
Definition K : list Z :=
  Eval vm_compute in map (fun p => Z.land (cube_root (p * 2 ^ 96)) mask32) primes.

(** The initial hash value: the first 32 bits of the fractional parts of the
    square roots of the first 8 primes. *)
Definition H0 : list Z :=
  Eval vm_compute in map (fun p => Z.land (Z.sqrt (p * 2 ^ 64)) mask32) (take 8 primes).

(** The [n] low bytes of [x], most significant first. *)
Fixpoint be_bytes (n : nat) (x : Z) : list Z :=
  match n with
  | O => []
  | S n' => Z.land (Z.shiftr x (8 * Z.of_nat n')) 0xff :: be_bytes n' x
  end.

(** Padding: a [0x80] byte, zeros up to 56 modulo 64, the bit length on 8 bytes. *)
Definition pad (msg : list Z) : list Z :=
  let len := Z.of_nat (length msg) in
  msg ++ [0x80] ++ replicate (Z.to_nat ((55 - len) mod 64)) 0 ++ be_bytes 8 (8 * len).

Fixpoint words (fuel : nat) (bytes : list Z) : list Z :=
  match fuel, bytes with
  | S fuel', b0 :: b1 :: b2 :: b3 :: rest =>
      (b0 * 0x1000000 + b1 * 0x10000 + b2 * 0x100 + b3) :: words fuel' rest
  | _, _ => []
  end.

Fixpoint blocks (fuel : nat) (ws : list Z) : list (list Z) :=
  match fuel, ws with
  | O, _ | _, [] => []
  | S fuel', _ => take 16 ws :: blocks fuel' (drop 16 ws)
  end.

(** The message schedule, most recent word first. *)
Fixpoint extend (n : nat) (w : list Z) : list Z :=
  match n with
  | O => w
  | S n' =>
      let wt := add32 (add32 (sigma1 (nth 1 w 0)) (nth 6 w 0))
                      (add32 (sigma0 (nth 14 w 0)) (nth 15 w 0)) in
      extend n' (wt :: w)
  end.

Definition schedule (block : list Z) : list Z := rev (extend 48 (rev block)).

Record regs := Regs { ra : Z; rb : Z; rc : Z; rd : Z; re : Z; rf : Z; rg : Z; rh : Z }.

Definition round (r : regs) (kw : Z * Z) : regs :=
  let t1 := add32 (add32 (add32 (rh r) (Sigma1 (re r)))
                         (add32 (Ch (re r) (rf r) (rg r)) (fst kw))) (snd kw) in
  let t2 := add32 (Sigma0 (ra r)) (Maj (ra r) (rb r) (rc r)) in
  Regs (add32 t1 t2) (ra r) (rb r) (rc r) (add32 (rd r) t1) (re r) (rf r) (rg r).

Definition compress (h : regs) (block : list Z) : regs :=
  let r := fold_left round (combine K (schedule block)) h in
  Regs (add32 (ra h) (ra r)) (add32 (rb h) (rb r)) (add32 (rc h) (rc r))
       (add32 (rd h) (rd r)) (add32 (re h) (re r)) (add32 (rf h) (rf r))
       (add32 (rg h) (rg r)) (add32 (rh h) (rh r)).

Definition init : regs :=
  Regs (nth 0 H0 0) (nth 1 H0 0) (nth 2 H0 0) (nth 3 H0 0)
       (nth 4 H0 0) (nth 5 H0 0) (nth 6 H0 0) (nth 7 H0 0).

(** [sha256(msg).digest()]: 32 bytes. *)
Definition digest (msg : list Z) : list Z :=
  let p := pad msg in
  let r := fold_left compress (blocks (length p) (words (length p) p)) init in
  flat_map (be_bytes 4) [ra r; rb r; rc r; rd r; re r; rf r; rg r; rh r].

Definition hex_digit (d : Z) : ascii :=
  ascii_of_nat (Z.to_nat (if d <? 10 then 48 + d else 87 + d)).

Fixpoint hex (bytes : list Z) : string :=
  match bytes with
  | [] => EmptyString
  | b :: rest => String (hex_digit (b / 16)) (String (hex_digit (b mod 16)) (hex rest))
  end.

(** [s.encode()]: UTF-8, one byte per ASCII character. *)
Fixpoint encode (s : string) : list Z :=
  match s with
  | EmptyString => []
  | String c s' =>
      let n := Z.of_nat (nat_of_ascii c) in
      (if n <? 128 then [n] else [0xc0 + n / 64; 0x80 + n mod 64]) ++ encode s'
  end.

(** [hashlib.sha256(s.encode()).hexdigest()]. *)
Definition hexdigest (s : string) : string := hex (digest (encode s)).

End SHA256.

(** ** AddressNormalizer: [normalize_zip] *)

Fixpoint sfilter (p : ascii -> bool) (s : string) : string :=
  match s with
  | EmptyString => EmptyString
  | String c s' => if p c then String c (sfilter p s') else sfilter p s'
  end.

(** [s.zfill(width)] on a string of digits. *)
Definition zfill (width : nat) (s : string) : string :=
  string_of_list_ascii (replicate (width - String.length s) "0"%char) ++ s.

Definition normalize_zip (zipcode : string) : string :=
  if falsy zipcode then ""
  else
    let digits := sfilter is_digit zipcode in
    if (5 <=? String.length digits)%nat then str_take 5 digits
    else if (0 <? String.length digits)%nat then zfill 5 digits
    else "".

(** ** BlockingKeyBuilder, MatchDecisionEngine and IdentityClusterer *)

Record DonorRecord := mkDonorRecord {
  id : Z;
  prefix : string;
  first_name : string;
  middle_name : string;
  last_name : string;
  suffix : string;
  street_address : string;
  city : string;
  state : string;
  zipcode : string;
  master_person_id : option string
}.

(** [r.master_person_id = v]: the only field the engine writes. *)
Definition set_master_person_id (v : option string) (r : DonorRecord) : DonorRecord :=
  {| id := id r; prefix := prefix r; first_name := first_name r;
     middle_name := middle_name r; last_name := last_name r; suffix := suffix r;
     street_address := street_address r; city := city r; state := state r;
     zipcode := zipcode r; master_person_id := v |}.

Definition create_blocking_key (last_name zipcode first_initial : string) : string :=
  let ln := str_take 5 (strip (upper last_name)) in
  let z := if falsy zipcode then "" else str_take 3 (normalize_zip zipcode) in
  let fi := str_take 1 (upper first_initial) in
  ln ++ "|" ++ z ++ "|" ++ fi.

(** [components.get(key, '')]. *)
Definition get_component (components : gmap string string) (key : string) : string :=
  default "" (components !! key).

(** The [key_parts] of [generate_master_id], pipe-joined. *)
Definition key_string (components : gmap string string) : string :=
  str_join "|"
    [ strip (upper (get_component components "last_name"));
      str_take 3 (strip (upper (get_component components "first_name")));
      str_take 5 (get_component components "zip");
      get_component components "street_num" ].

Definition generate_master_id (components : gmap string string) : string :=
  "MP_" ++ upper (str_take 12 (SHA256.hexdigest (key_string components))).

(** [re.match(r'^(\d+)', address.strip())]: the leading run of digits. *)
Fixpoint leading_digits (s : string) : string :=
  match s with
  | EmptyString => EmptyString
  | String c s' => if is_digit c then String c (leading_digits s') else EmptyString
  end.

Definition extract_street_number (address : string) : string :=
  if falsy address then "" else leading_digits (strip address).

Section MatchRecords.
Local Open Scope float_scope.

Definition match_records (r1 r2 : DonorRecord) : option (bool * float) :=
  if negb (bool_decide (upper (last_name r1) = upper (last_name r2)))
  then Some (false, 0)
  else
    fn_sim ← calculate_name_similarity (first_name r1) (first_name r2);
    let zip_match := bool_decide (normalize_zip (zipcode r1) = normalize_zip (zipcode r2)) in
    let sn1 := extract_street_number (street_address r1) in
    let sn2 := extract_street_number (street_address r2) in
    let street_match := bool_decide (sn1 = sn2) && negb (bool_decide (sn1 = "")) in
    let score := if PyFloat.geb fn_sim 0.9 then 0.4
                 else if PyFloat.geb fn_sim 0.8 then 0.3 else 0 in
    let score := score + (if zip_match then 0.3 else 0) in
    let score := score + (if street_match then 0.3 else 0) in
    Some (PyFloat.geb score 0.6, score).

End MatchRecords.

(** The [components] dict built for a seed record. *)
Definition components_of (r : DonorRecord) : gmap string string :=
  <["last_name" := last_name r]>
  (<["first_name" := first_name r]>
  (<["zip" := zipcode r]>
  (<["street_num" := extract_street_number (street_address r)]> ∅))).

Definition blocking_key_of (r : DonorRecord) : string :=
  create_blocking_key (last_name r) (zipcode r)
    (if falsy (first_name r) then "" else str_take 1 (first_name r)).

(** [blocks[key].append(r)] on an insertion-ordered [defaultdict(list)];
    a record is referred to by its position in [records]. *)
Fixpoint blocks_append (key : string) (r : nat) (blocks : list (string * list nat))
  : list (string * list nat) :=
  match blocks with
  | [] => [(key, [r])]
  | (k, block) :: rest =>
      if bool_decide (k = key) then (k, (block ++ [r])%list) :: rest
      else (k, block) :: blocks_append key r rest
  end.

Definition build_blocks (records : list DonorRecord) : list (string * list nat) :=
  fold_left (fun blocks ir => blocks_append (blocking_key_of (snd ir)) (fst ir) blocks)
            (combine (seq 0 (length records)) records) [].

(** The state of the pass over one block: the records (mutated in place)
    and the [assigned] set of ids. *)
Definition cluster_state : Type := list DonorRecord * gset Z.

(** [for other in block[i+1:]]: one iteration. *)
Definition propagate_step (r_ref : nat) (st : option cluster_state) (other_ref : nat)
  : option cluster_state :=
  st ← st;
  let store : list DonorRecord := fst st in
  let assigned : gset Z := snd st in
  r ← store !! r_ref;
  other ← store !! other_ref;
  if bool_decide (id other ∈ assigned) then Some (store, assigned)
  else
    m ← match_records r other;
    if (fst m : bool)
    then Some (<[other_ref := set_master_person_id (master_person_id r) other]> store,
               ({[id other]} ∪ assigned : gset Z))
    else Some (store, assigned).

(** [for i, r in enumerate(block)], with [later = block[i+1:]]. *)
Fixpoint process_block (block : list nat) (st : cluster_state) : option cluster_state :=
  match block with
  | [] => Some st
  | r_ref :: later =>
      let store : list DonorRecord := fst st in
      let assigned : gset Z := snd st in
      r ← store !! r_ref;
      if bool_decide (id r ∈ assigned) then process_block later st
      else
        let r' := set_master_person_id (Some (generate_master_id (components_of r))) r in
        st' ← fold_left (propagate_step r_ref) later
                        (Some (<[r_ref := r']> store, ({[id r]} ∪ assigned : gset Z)));
        process_block later st'
  end.

(** [for block in blocks.values()]: every block starts with an empty [assigned]. *)
Definition process_blocks (blocks : list (string * list nat)) (records : list DonorRecord)
  : option (list DonorRecord) :=
  fold_left (fun st kb => store ← st; fst <$> process_block (snd kb) (store, ∅))
            blocks (Some records).

Definition assign_master_ids (records : list DonorRecord) : option (list DonorRecord) :=
  process_blocks (build_blocks records) records.

Definition test_records : list DonorRecord :=
  [ mkDonorRecord 1 "" "JOHN" "A" "SMITH" "" "123 Main St" "Raleigh" "NC" "27601" None;
    mkDonorRecord 2 "MR" "JOHN" "ADAM" "SMITH" "" "123 Main Street" "Raleigh" "NC" "27601" None;
    mkDonorRecord 3 "DR" "JANE" "B" "SMITH" "" "456 Oak Ave" "Raleigh" "NC" "27601" None;
    mkDonorRecord 4 "" "ROBERT" "" "JONES" "JR" "789 Pine Rd" "Charlotte" "NC" "28202" None;
    mkDonorRecord 5 "" "BOB" "" "JONES" "JR" "789 Pine Road" "Charlotte" "NC" "28202" None ].

(** ** AddressNormalizer: [normalize_address] *)

(** [str.replace(old, new)] (with [skip = 0]): every occurrence of [old],
    left to right, without overlap; [skip] counts the characters of a
    match still to be consumed. *)
Fixpoint replace_from (old new : string) (skip : nat) (s : string) : string :=
  match s with
  | EmptyString => EmptyString
  | String c s' =>
      match skip with
      | S k => replace_from old new k s'
      | O =>
          if starts_with old s
          then new ++ replace_from old new (String.length old - 1) s'
          else String c (replace_from old new O s')
      end
  end.

Definition str_replace (old new s : string) : string := replace_from old new O s.

(** [re.sub(r'\s+', ' ', s)]: every run of whitespace becomes one space. *)
Fixpoint collapse_from (in_run : bool) (s : string) : string :=
  match s with
  | EmptyString => EmptyString
  | String c s' =>
      if is_space c
      then if in_run then collapse_from true s' else String " " (collapse_from true s')
      else String c (collapse_from false s')
  end.

Definition collapse_whitespace (s : string) : string := collapse_from false s.

(** [re.sub(r'[.,#]', '', s)]. *)
Definition is_address_punctuation (c : ascii) : bool :=
  bool_decide (c = "."%char) || bool_decide (c = ","%char) || bool_decide (c = "#"%char).

Definition remove_punctuation (s : string) : string :=
  sfilter (fun c => negb (is_address_punctuation c)) s.

(** [\b] between a character [prev] and a character [next] ([None] at either
    end of the string): exactly one of the two is a word character. *)
Definition word_boundary (prev next : option ascii) : bool :=
  xorb (from_option is_word false prev) (from_option is_word false next).

Definition str_head (s : string) : option ascii :=
  match s with
  | EmptyString => None
  | String c _ => Some c
  end.

Definition str_last (s : string) : option ascii := str_head (string_of_list_ascii (rev (list_ascii_of_string s))).

(** [re.sub(r'\b' + full + r'\b', abbrev, s)] (with [prev = None], [skip = 0]). *)
Fixpoint replace_word_from (full abbrev : string) (prev : option ascii) (skip : nat)
    (s : string) : string :=
  match s with
  | EmptyString => EmptyString
  | String c s' =>
      match skip with
      | S k => replace_word_from full abbrev (Some c) k s'
      | O =>
          if starts_with full s
             && word_boundary prev (Some c)
             && word_boundary (str_last full) (str_head (str_drop (String.length full) s))
          then abbrev ++ replace_word_from full abbrev (Some c) (String.length full - 1) s'
          else String c (replace_word_from full abbrev (Some c) O s')
      end
  end.

Definition replace_word (full abbrev s : string) : string :=
  replace_word_from full abbrev None O s.

(** The street-type, directional and unit abbreviations, in the order of the dict. *)
Definition STREET_ABBREVS : list (string * string) :=
  [ ("STREET", "ST"); ("AVENUE", "AVE"); ("BOULEVARD", "BLVD"); ("DRIVE", "DR");
    ("LANE", "LN"); ("ROAD", "RD"); ("COURT", "CT"); ("CIRCLE", "CIR");
    ("PLACE", "PL"); ("TERRACE", "TER"); ("TRAIL", "TRL"); ("HIGHWAY", "HWY");
    ("PARKWAY", "PKWY"); ("WAY", "WAY"); ("NORTH", "N"); ("SOUTH", "S");
    ("EAST", "E"); ("WEST", "W"); ("NORTHEAST", "NE"); ("NORTHWEST", "NW");
    ("SOUTHEAST", "SE"); ("SOUTHWEST", "SW"); ("APARTMENT", "APT"); ("SUITE", "STE");
    ("BUILDING", "BLDG"); ("FLOOR", "FL"); ("UNIT", "UNIT"); ("PO BOX", "PO BOX");
    ("POST OFFICE BOX", "PO BOX") ].

Definition normalize_address (address : string) : string :=
  if falsy address then ""
  else
    let addr := strip (upper address) in
    let addr := collapse_whitespace addr in
    let addr := remove_punctuation addr in
    fold_left (fun addr fa => replace_word (fst fa) (snd fa) addr) STREET_ABBREVS addr.

(** ** HouseholdLinker: [household_id_builder.py] *)

Module HouseholdLinker.

(** A row of the donor table, each cell as [str(row.get(col, ''))] renders
    it (a missing value renders as [nan]). *)
Record row := mkRow {
  street_line_1 : string;
  city : string;
  zip_code : string
}.

(** [s.split()]: the maximal runs of non-whitespace; [word] is the run read so far. *)
Fixpoint split_from (word : string) (s : string) : list string :=
  match s with
  | EmptyString => if falsy word then [] else [word]
  | String c s' =>
      if is_space c
      then if falsy word then split_from "" s' else word :: split_from "" s'
      else split_from (word ++ String c "") s'
  end.

Definition split (s : string) : list string := split_from "" s.

Definition create_address_key (r : row) : option string :=
  let street := strip (upper (street_line_1 r)) in
  let city := strip (upper (city r)) in
  let zip_code := strip (str_take 5 (zip_code r)) in
  if falsy street || falsy zip_code
     || bool_decide (street = "NAN") || bool_decide (zip_code = "NAN")
  then None
  else
    let street := str_replace " STREET" " ST" street in
    let street := str_replace " AVENUE" " AVE" street in
    let street := str_replace " DRIVE" " DR" street in
    let street := str_replace " ROAD" " RD" street in
    let street := str_replace " LANE" " LN" street in
    let street := str_replace " COURT" " CT" street in
    let street := str_replace " CIRCLE" " CIR" street in
    let street := str_replace " BOULEVARD" " BLVD" street in
    let street := str_join " " (split street) in
    Some (street ++ "|" ++ city ++ "|" ++ zip_code).

(** [str(uuid.UUID(bytes=b))] for 16 bytes [b]: the hexadecimal digits in
    groups of 8, 4, 4, 4 and 12. *)
Definition uuid_string (bytes : list Z) : string :=
  let h := SHA256.hex bytes in
  str_take 8 h ++ "-" ++ str_take 4 (str_drop 8 h) ++ "-" ++ str_take 4 (str_drop 12 h)
  ++ "-" ++ str_take 4 (str_drop 16 h) ++ "-" ++ str_drop 20 h.

Definition generate_household_id (address_key : string) : string :=
  uuid_string (take 16 (SHA256.digest (SHA256.encode address_key))).

(** The [household_id] column [assign_household_ids] computes for a row. *)
Definition household_id (r : row) : option string :=
  match create_address_key r with
  | Some key => if falsy key then None else Some (generate_household_id key)
  | None => None
  end.

End HouseholdLinker.

(** ** AliasOverrideResolver: [apply_alias_overrides.py] *)

Module AliasOverride.

(** The columns of [nc_boe_donations_raw] and [person_aliases] the statement
    reads or writes; a SQL NULL is [None]. *)
Record donation := mkDonation {
  donor_name : option string;
  master_person_id : option string
}.

Record alias := mkAlias {
  alias_name : option string;
  alias_master_person_id : option string
}.

(** [UPPER(TRIM(x))]: [TRIM] removes spaces at both ends; NULL stays NULL. *)
Definition is_blank (c : ascii) : bool := bool_decide (c = " "%char).

Definition upper_trim (x : option string) : option string :=
  (fun s => upper (rstrip_by is_blank (lstrip_by is_blank s))) <$> x.

(** The [WHERE] clause on a pair of a donation and an alias:
    [UPPER(TRIM(d.donor_name)) = UPPER(TRIM(a.alias_name))], true only when
    neither side is NULL, and
    [d.master_person_id IS DISTINCT FROM a.master_person_id]. *)
Definition joins (d : donation) (a : alias) : bool :=
  match upper_trim (donor_name d), upper_trim (alias_name a) with
  | Some x, Some y => bool_decide (x = y)
  | _, _ => false
  end
  && negb (bool_decide (master_person_id d = alias_master_person_id a)).

(** [SET master_person_id = a.master_person_id]. *)
Definition set_from (a : alias) (d : donation) : donation :=
  {| donor_name := donor_name d; master_person_id := alias_master_person_id a |}.

(** [UPDATE ... FROM] on one donation: a row no alias joins is left alone;
    a row that joins is written once, from one of its join rows (which one
    is not specified when there are several). *)
Inductive updates_row (aliases : list alias) (d : donation) : donation -> Prop :=
  | row_kept :
      (forall a, a ∈ aliases -> joins d a = false) -> updates_row aliases d d
  | row_written a :
      a ∈ aliases -> joins d a = true -> updates_row aliases d (set_from a d).

(** [cur.rowcount]: the rows that had a join row. *)
Definition rowcount (aliases : list alias) (table : list donation) : nat :=
  length (filter (fun d => existsb (joins d) aliases = true) table).

(** One run of [apply_alias_overrides]: the table after the statement and
    the number of rows it reports as updated. *)
Definition apply_alias_overrides (aliases : list alias) (table table' : list donation)
    (rows_updated : nat) : Prop :=
  Forall2 (updates_row aliases) table table' /\ rows_updated = rowcount aliases table.

(** The run that writes every row from its first join row in table order. *)
Definition write_first (aliases : list alias) (d : donation) : donation :=
  match find (joins d) aliases with
  | Some a => set_from a d
  | None => d
  end.

Definition run_first (aliases : list alias) (table : list donation) : list donation * nat :=
  (map (write_first aliases) table, rowcount aliases table).

End AliasOverride.

(** ** CommitteeCandidateLinker: [link_committees_to_candidates.py] *)

Module CommitteeLinker.

Record committee := mkCommittee {
  committee_id : string;
  committee_name : string;
  county_name : string
}.

(** A candidate row; a missing county is [None]. *)
Record candidate := mkCandidate {
  candidate_id : Z;
  name_on_ballot : string;
  candidate_county : option string;
  party : string;
  contest_name : string
}.

(** A row of the result. *)
Record match_row := mkMatch {
  m_committee_id : string;
  m_committee_name : string;
  m_candidate_id : Z;
  m_candidate_name : string;
  m_party : string;
  m_contest_name : string;
  m_county_name : string;
  m_confidence : float;
  m_match_type : string
}.

Section Linker.
Local Open Scope float_scope.

(** [fuzz.token_sort_ratio] of the fuzzywuzzy library: an integer from 0 to 100. *)
Variable token_sort_ratio : string -> string -> Z.

(** [float(n)] for the integer ratio. *)
Definition float_of_Z (n : Z) : float := of_uint63 (Uint63.of_Z n).

Definition fuzzy_match_committee_to_candidate (committee_name candidate_name : string) : float :=
  if falsy committee_name || falsy candidate_name then 0
  else
    let score := token_sort_ratio (strip (lower committee_name)) (strip (lower candidate_name)) in
    float_of_Z score / 100.

(** [candidates['county_name'].str.lower().str.strip() == comm_county], the
    mask of one row; a missing county compares unequal. *)
Definition in_county (comm_county : string) (cand : candidate) : bool :=
  match candidate_county cand with
  | Some c => bool_decide (strip (lower c) = comm_county)
  | None => false
  end.

(** [candidates[candidates['county_name']... == comm_county]]. The frame
    built from an empty table, [pd.DataFrame([])], has no column:
    [candidates['county_name']] raises KeyError there ([None]). *)
Definition filter_county (comm_county : string) (candidates : list candidate)
    : option (list candidate) :=
  match candidates with
  | [] => None
  | _ :: _ => Some (List.filter (in_county comm_county) candidates)
  end.

(** One iteration of [for _, cand in county_candidates.iterrows()], on the
    state [(best_match, best_score)]. *)
Definition best_step (threshold : float) (comm_name : string)
    (st : option candidate * float) (cand : candidate) : option candidate * float :=
  let cand_name := name_on_ballot cand in
  let score := fuzzy_match_committee_to_candidate comm_name cand_name in
  if PyFloat.gtb score (snd st) && PyFloat.geb score threshold
  then (Some cand, score)
  else st.

(** The body of [for _, comm in committees.iterrows()]: [None] when it
    raises, otherwise the row appended to [matches], if any. *)
Definition link_committee (threshold : float) (candidates : list candidate)
    (comm : committee) : option (option match_row) :=
  let comm_county := strip (lower (county_name comm)) in
  let comm_name := committee_name comm in
  if falsy comm_county || falsy comm_name then Some None
  else
    match filter_county comm_county candidates with
    | None => None
    | Some county_candidates =>
        let st := fold_left (best_step threshold comm_name) county_candidates (None, 0) in
        match fst st with
        | Some best_match =>
            Some (Some {| m_committee_id := committee_id comm;
                          m_committee_name := comm_name;
                          m_candidate_id := candidate_id best_match;
                          m_candidate_name := name_on_ballot best_match;
                          m_party := party best_match;
                          m_contest_name := contest_name best_match;
                          m_county_name := comm_county;
                          m_confidence := snd st;
                          m_match_type := "county+fuzzy_name" |})
        | None => Some None
        end
    end.

(** The loop over the committees; [None] when an iteration raises. *)
Definition link_committees_to_candidates (threshold : float)
    (committees : list committee) (candidates : list candidate) : option (list match_row) :=
  fold_left (fun matches comm =>
               match matches with
               | None => None
               | Some matches =>
                   match link_committee threshold candidates comm with
                   | None => None
                   | Some (Some row) => Some (matches ++ [row])%list
                   | Some None => Some matches
                   end
               end)
            committees (Some []).

End Linker.
End CommitteeLinker.

(** ** AddressNormalizer: [normalize_city], [normalize_state] and the address key *)

Definition normalize_city (city : string) : string :=
  if falsy city then ""
  else
    let city := strip (upper city) in
    let city := collapse_whitespace city in
    let city := str_replace "SAINT " "ST " city in
    let city := str_replace "MOUNT " "MT " city in
    let city := str_replace "FORT " "FT " city in
    city.

(** The entries of the [STATE_ABBREVS] dict. *)
Definition STATE_ABBREVS_items : list (string * string) :=
  [ ("NORTH CAROLINA", "NC"); ("SOUTH CAROLINA", "SC"); ("VIRGINIA", "VA");
    ("WEST VIRGINIA", "WV"); ("GEORGIA", "GA"); ("TENNESSEE", "TN"); ("FLORIDA", "FL");
    ("ALABAMA", "AL"); ("KENTUCKY", "KY"); ("MARYLAND", "MD");
    ("DISTRICT OF COLUMBIA", "DC"); ("NEW YORK", "NY"); ("NEW JERSEY", "NJ");
    ("PENNSYLVANIA", "PA"); ("TEXAS", "TX"); ("CALIFORNIA", "CA") ].

Definition STATE_ABBREVS : gmap string string := list_to_map STATE_ABBREVS_items.

Definition normalize_state (state : string) : string :=
  if falsy state then ""
  else
    let state := strip (upper state) in
    if bool_decide (String.length state = 2%nat) then state
    else default state (STATE_ABBREVS !! state).

(** The dict [normalize_full_address] returns, by its four keys. *)
Record normalized_address := mkNormalizedAddress {
  street_normalized : string;
  city_normalized : string;
  state_normalized : string;
  zip_normalized : string
}.

Definition normalize_full_address (street city state zipcode : string) : normalized_address :=
  {| street_normalized := normalize_address street;
     city_normalized := normalize_city city;
     state_normalized := normalize_state state;
     zip_normalized := normalize_zip zipcode |}.

(** [create_address_key] of [normalize_addresses.py]. *)
Definition create_address_key (street city state zipcode : string) : string :=
  let norm := normalize_full_address street city state zipcode in
  street_normalized norm ++ "|" ++ city_normalized norm ++ "|"
  ++ state_normalized norm ++ "|" ++ zip_normalized norm.

(** ** NameParser: [parse_names.py] *)

Module NameParser.

Definition PREFIXES : gset string :=
  list_to_set [ "MR"; "MRS"; "MS"; "MISS"; "DR"; "REV"; "HON"; "JUDGE"; "SEN"; "REP";
                "GOV"; "MAYOR"; "PROF"; "FR"; "SR"; "BROTHER"; "SISTER"; "PASTOR" ].

Definition SUFFIXES : gset string :=
  list_to_set [ "JR"; "SR"; "II"; "III"; "IV"; "V"; "VI"; "VII"; "VIII"; "MD"; "PHD";
                "ESQ"; "CPA"; "DDS"; "RN"; "JD"; "DO"; "MBA"; "MPA"; "PE"; "RA"; "AIA";
                "FAIA" ].

(** The dict [parse_name] returns, by its six keys; [None] is Python's [None]. *)
Record parsed := mkParsed {
  prefix : option string;
  first_name : option string;
  middle_name : option string;
  last_name : option string;
  suffix : option string;
  nickname : option string
}.

(** [s.title()] on ASCII (with [prev_cased = false]): a letter that follows
    a letter is lower-cased, any other letter is upper-cased. *)
Definition is_alpha (c : ascii) : bool := is_lower c || is_upper c.

Fixpoint title_from (prev_cased : bool) (s : string) : string :=
  match s with
  | EmptyString => EmptyString
  | String c s' =>
      if is_alpha c
      then String (if prev_cased then lower_char c else upper_char c) (title_from true s')
      else String c (title_from false s')
  end.

Definition title (s : string) : string := title_from false s.

(** The character classes of the nickname pattern: a double quote or an
    opening parenthesis starts a match, a double quote or a closing
    parenthesis ends it. *)
Definition is_nick_open (c : ascii) : bool :=
  bool_decide (c = "034"%char) || bool_decide (c = "("%char).

Definition is_nick_close (c : ascii) : bool :=
  bool_decide (c = "034"%char) || bool_decide (c = ")"%char).

(** The longest run matching the class that excludes the closing
    characters, at the start of [s], and what follows it. *)
Fixpoint nick_run (s : string) : string * string :=
  match s with
  | EmptyString => (EmptyString, EmptyString)
  | String c s' =>
      if is_nick_close c then (EmptyString, s)
      else (String c (nick_run s').1, (nick_run s').2)
  end.

(** A match of the nickname pattern at the start of [s]: its group, which
    is not empty and is followed by a closing character. *)
Definition nick_match (s : string) : option string :=
  match s with
  | String c s' =>
      if is_nick_open c then
        match nick_run s' with
        | (String x run, String _ _) => Some (String x run)
        | _ => None
        end
      else None
  | EmptyString => None
  end.

(** [re.search(pattern, s).group(1)], if there is a match. *)
Fixpoint nick_search (s : string) : option string :=
  match nick_match s with
  | Some group => Some group
  | None =>
      match s with
      | EmptyString => None
      | String _ s' => nick_search s'
      end
  end.

(** [re.sub(pattern, '', s)] (with [skip = 0]); [skip] counts the
    characters of a match still to be dropped. *)
Fixpoint nick_remove_from (skip : nat) (s : string) : string :=
  match s with
  | EmptyString => EmptyString
  | String c s' =>
      match skip with
      | S k => nick_remove_from k s'
      | O =>
          match nick_match s with
          | Some group => nick_remove_from (String.length group + 1)%nat s'
          | None => String c (nick_remove_from O s')
          end
      end
  end.

Definition nick_remove (s : string) : string := nick_remove_from O s.

(** The values of [result['nickname']] and of [parts] after
    [parts = name.split()]. *)
Definition name_parts (full_name : string) : option string * list string :=
  let name := strip (upper full_name) in
  let nickname_match := nick_search name in
  let name := match nickname_match with
              | Some _ => nick_remove name
              | None => name
              end in
  let name := sfilter (fun c => negb (bool_decide (c = "."%char))) name in
  let name := strip (collapse_whitespace name) in
  (title <$> nickname_match, HouseholdLinker.split name).

(** [parts.pop(0).title()], with the period the five common titles get. *)
Definition prefix_of (p : string) : string :=
  let t := title p in
  if bool_decide (t = "Dr") then "Dr."
  else if bool_decide (t = "Mr") then "Mr."
  else if bool_decide (t = "Mrs") then "Mrs."
  else if bool_decide (t = "Ms") then "Ms."
  else if bool_decide (t = "Rev") then "Rev."
  else t.

(** The assignment of the remaining parts, by their number. *)
Definition assign_parts (result : parsed) (parts : list string) : parsed :=
  match parts with
  | [] => result
  | [p] =>
      {| prefix := prefix result; first_name := None; middle_name := None;
         last_name := Some (title p); suffix := suffix result; nickname := nickname result |}
  | [p; q] =>
      {| prefix := prefix result; first_name := Some (title p); middle_name := None;
         last_name := Some (title q); suffix := suffix result; nickname := nickname result |}
  | p :: rest =>
      {| prefix := prefix result; first_name := Some (title p);
         middle_name := Some (str_join " " (title <$> removelast rest));
         last_name := title <$> last rest;
         suffix := suffix result; nickname := nickname result |}
  end.

Definition parse_name (full_name : string) : parsed :=
  let result := mkParsed None None None None None None in
  if falsy full_name || falsy (strip full_name) then result
  else
    let '(nick, parts) := name_parts full_name in
    let result := mkParsed None None None None None nick in
    match parts with
    | [] => result
    | p :: rest =>
        let '(result, parts) :=
          if bool_decide (p ∈ PREFIXES)
          then (mkParsed (Some (prefix_of p)) None None None None nick, rest)
          else (result, parts) in
        match last parts with
        | None => result
        | Some s =>
            let '(result, parts) :=
              if bool_decide (s ∈ SUFFIXES)
              then (mkParsed (prefix result) None None None (Some s) nick, removelast parts)
              else (result, parts) in
            assign_parts result parts
        end
    end.

(** [parse_names_batch]. *)
Definition parse_names_batch (names : list string) : list parsed := parse_name <$> names.

End NameParser.

(** * Definitions the statements use *)

Local Open Scope nat_scope.

(** The number of set flags. *)
Fixpoint count_true (m : list bool) : nat :=
  match m with
  | [] => O
  | b :: m' => (if b then 1 else 0) + count_true m'
  end.

(** The characters of [s] at the flagged positions, in order. *)
Fixpoint flagged (m : list bool) (s : list ascii) : list ascii :=
  match m, s with
  | b :: m', c :: s' => if b then c :: flagged m' s' else flagged m' s'
  | _, _ => []
  end.

(** The number of positions at which two sequences differ. *)
Fixpoint mismatches (xs ys : list ascii) : nat :=
  match xs, ys with
  | x :: xs', y :: ys' => (if bool_decide (x = y) then 0 else 1) + mismatches xs' ys'
  | _, _ => O
  end.

(** [i] and [j] carry the same character and lie within the match distance. *)
Definition edge (s1 s2 : list ascii) (d i j : nat) : Prop :=
  i < length s1 ∧ j < length s2 ∧ char_at s1 i = char_at s2 j ∧ i - d ≤ j ∧ j ≤ i + d.

(** What the matching pass has established after [n] rows, for the set [P]
    of matched pairs. *)
Record match_inv (s1 s2 : list ascii) (d n : nat) (P : nat → nat → Prop)
    (st : list bool * list bool * nat) : Prop := {
  inv_len1 : length st.1.1 = length s1;
  inv_len2 : length st.1.2 = length s2;
  inv_flag1 : ∀ i, flag_at st.1.1 i = true ↔ ∃ j, P i j;
  inv_flag2 : ∀ j, flag_at st.1.2 j = true ↔ ∃ i, P i j;
  inv_edge : ∀ i j, P i j → i < n ∧ edge s1 s2 d i j;
  inv_fun : ∀ i j j', P i j → P i j' → j = j';
  inv_inj : ∀ i i' j, P i j → P i' j → i = i';
  inv_greedy : ∀ i j, i < n → edge s1 s2 d i j →
               (∃ j', j' ≤ j ∧ P i j') ∨ (∃ i', i' < i ∧ P i' j);
  inv_count1 : st.2 = count_true st.1.1;
  inv_count2 : st.2 = count_true st.1.2
}.

(** The matched pairs of a finished matching pass: every pair is an edge,
    no position is matched twice, and an edge is left unused only when one
    of its ends was taken earlier. *)
Record greedy_matching (s1 s2 : list ascii) (d : nat) (P : nat → nat → Prop) : Prop := {
  gm_edge : ∀ i j, P i j → edge s1 s2 d i j;
  gm_fun : ∀ i j j', P i j → P i j' → j = j';
  gm_inj : ∀ i i' j, P i j → P i' j → i = i';
  gm_greedy : ∀ i j, edge s1 s2 d i j →
              (∃ j', j' ≤ j ∧ P i j') ∨ (∃ i', i' < i ∧ P i' j)
}.

(** The normal form the scorer compares: [name.upper().strip()]. *)
Definition normalized_name (s : string) : string := strip (upper s).

(** Following the spec's words: the length of the common prefix, capped. *)
Fixpoint common_prefix_len (cap : nat) (s1 s2 : list ascii) : nat :=
  match cap, s1, s2 with
  | S cap', c1 :: s1', c2 :: s2' =>
      if bool_decide (c1 = c2) then S (common_prefix_len cap' s1' s2') else O
  | _, _, _ => O
  end.

(** The Jaro similarity as the scorer computes it, without the prefix bonus. *)
Definition jaro (s1 s2 : list ascii) : option float :=
  let '(m1, m2, k) := match_pass s1 s2 (Nat.max (length s1) (length s2) / 2 - 1) in
  if bool_decide (k = O) then Some 0%float
  else jaro_formula s1 s2 k <$> transposition_pass s1 s2 m1 m2.

(** Following the spec's words: [jaro + 0.1 * L * (1 - jaro)] with [L] the
    length of the common prefix, capped at 4. *)
Definition winkler_by_common_prefix (s1 s2 : list ascii) : option float :=
  (λ j, j + 0.1 * PyFloat.of_nat (common_prefix_len 4 s1 s2) * (1 - j))%float <$> jaro s1 s2.

(** Equality of two optional floats, decided. *)
Definition float_opt_eqb (x y : option float) : bool :=
  match x, y with
  | Some a, Some b => PrimFloat.Leibniz.eqb a b
  | None, None => true
  | _, _ => false
  end.

(** Following the spec's words: the key [last_name|first_name[:3]|zip[:5]|street_number]
    read off the components as they are given. *)
Definition key_string_as_given (components : gmap string string) : string :=
  str_join "|"
    [ get_component components "last_name";
      str_take 3 (get_component components "first_name");
      str_take 5 (get_component components "zip");
      get_component components "street_num" ].

Definition master_id_as_given (components : gmap string string) : string :=
  "MP_" ++ upper (str_take 12 (SHA256.hexdigest (key_string_as_given components))).

(** The canonical key [generate_master_id] hashes: the names upper-cased and
    trimmed before the first name is cut to three characters. *)
Definition canonical_key (components : gmap string string)
  : string * string * string * string :=
  ( strip (upper (get_component components "last_name")),
    str_take 3 (strip (upper (get_component components "first_name"))),
    str_take 5 (get_component components "zip"),
    get_component components "street_num" ).

(** An upper-case hexadecimal digit. *)
Definition is_upper_hex (c : ascii) : bool :=
  is_digit c || ((65 <=? code c)%nat && (code c <=? 70)%nat).

Fixpoint str_forall (p : ascii -> bool) (s : string) : bool :=
  match s with
  | EmptyString => true
  | String c s' => p c && str_forall p s'
  end.

Definition components_lower : gmap string string :=
  <["last_name" := "Smith"]> (<["first_name" := "John"]>
  (<["zip" := "27601"]> (<["street_num" := "123"]> ∅))).

Definition components_john : gmap string string :=
  <["last_name" := "SMITH"]> (<["first_name" := " JOHN"]>
  (<["zip" := "27601"]> (<["street_num" := "123"]> ∅))).

Definition components_joseph : gmap string string :=
  <["last_name" := "SMITH"]> (<["first_name" := " JOSEPH"]>
  (<["zip" := "27601"]> (<["street_num" := "123"]> ∅))).

(** Following the spec's words: the points of the three signals. *)
Definition name_points (fn_sim : float) : float :=
  if PyFloat.geb fn_sim 0.9 then 0.4%float
  else if PyFloat.geb fn_sim 0.8 then 0.3%float else 0%float.

Definition zip_points (r1 r2 : DonorRecord) : float :=
  if bool_decide (normalize_zip (zipcode r1) = normalize_zip (zipcode r2))
  then 0.3%float else 0%float.

Definition street_points (r1 r2 : DonorRecord) : float :=
  if bool_decide (extract_street_number (street_address r1)
                  = extract_street_number (street_address r2)
                  ∧ extract_street_number (street_address r1) ≠ "")
  then 0.3%float else 0%float.

(** A record with its [master_person_id] blanked: what the engine never writes. *)
Definition identity_fields (r : DonorRecord) : DonorRecord := set_master_person_id None r.

(** Two records agree on every field other than [master_person_id]. *)
Definition same_identity_fields (r o : DonorRecord) : Prop :=
  id o = id r ∧ prefix o = prefix r ∧ first_name o = first_name r
  ∧ middle_name o = middle_name r ∧ last_name o = last_name r ∧ suffix o = suffix r
  ∧ street_address o = street_address r ∧ city o = city r ∧ state o = state r
  ∧ zipcode o = zipcode r.

(** The record at position [p] of [store] carries the id minted from the
    canonical key of a seed [s]: a record of the input, of the same block,
    that is the record itself or comes before it and matches it. *)
Definition seeded (records : list DonorRecord) (store : list DonorRecord) (p : nat) : Prop :=
  ∃ q s r o,
    q ≤ p ∧ records !! q = Some s ∧ records !! p = Some r ∧ store !! p = Some o
    ∧ blocking_key_of s = blocking_key_of r
    ∧ master_person_id o = Some (generate_master_id (components_of s))
    ∧ (q = p ∨ ∃ score, match_records s r = Some (true, score)).

(** Every record whose id is in [assigned] is seeded. *)
Definition assigned_seeded (records : list DonorRecord) (st : cluster_state) : Prop :=
  ∀ p r, records !! p = Some r → id r ∈ st.2 → seeded records st.1 p.

(** Distinct positions hold distinct ids. *)
Definition distinct_ids (records : list DonorRecord) : Prop :=
  ∀ p q r r', records !! p = Some r → records !! q = Some r' → id r = id r' → p = q.

(** The block [b] under key [k]: positions in increasing order, all in
    range, all of records with blocking key [k]. *)
Definition good_block (records : list DonorRecord) (kb : string * list nat) : Prop :=
  StronglySorted lt kb.2
  ∧ Forall (λ p, ∃ r, records !! p = Some r ∧ blocking_key_of r = kb.1) kb.2.

(** What [build_blocks] has established after the first [m] records. *)
Definition blocks_inv (records : list DonorRecord) (m : nat)
    (blocks : list (string * list nat)) : Prop :=
  NoDup blocks.*1
  ∧ Forall (λ kb, good_block records kb ∧ Forall (λ p, p < m) kb.2) blocks
  ∧ ∀ p, p < m → ∃ kb, kb ∈ blocks ∧ p ∈ kb.2.

(** Any two records of a block that match carry the same canonical key. *)
Definition matching_records_share_key (records : list DonorRecord) : Prop :=
  ∀ s r, s ∈ records → r ∈ records →
         blocking_key_of s = blocking_key_of r →
         (∃ score, match_records s r = Some (true, score)) →
         key_string (components_of s) = key_string (components_of r).

Definition john_123 : DonorRecord :=
  mkDonorRecord 1 "" "JOHN" "A" "SMITH" "" "123 Main St" "Raleigh" "NC" "27601" None.
Definition john_123_street : DonorRecord :=
  mkDonorRecord 2 "MR" "JOHN" "ADAM" "SMITH" "" "123 Main Street" "Raleigh" "NC" "27601" None.
Definition john_456 : DonorRecord :=
  mkDonorRecord 2 "" "JOHN" "" "SMITH" "" "456 Oak Ave" "Raleigh" "NC" "27601" None.
Definition jane_456 : DonorRecord :=
  mkDonorRecord 3 "DR" "JANE" "B" "SMITH" "" "456 Oak Ave" "Raleigh" "NC" "27601" None.

(** [store] holds the records of the input, up to [master_person_id]. *)
Definition framed (records store : list DonorRecord) : Prop :=
  identity_fields <$> store = identity_fields <$> records.

(** The street normalization [HouseholdLinker.create_address_key] applies:
    upper-case, trim, eight suffix replacements, whitespace collapse. *)
Definition household_street (street : string) : string :=
  let street := strip (upper street) in
  let street := str_replace " STREET" " ST" street in
  let street := str_replace " AVENUE" " AVE" street in
  let street := str_replace " DRIVE" " DR" street in
  let street := str_replace " ROAD" " RD" street in
  let street := str_replace " LANE" " LN" street in
  let street := str_replace " COURT" " CT" street in
  let street := str_replace " CIRCLE" " CIR" street in
  let street := str_replace " BOULEVARD" " BLVD" street in
  str_join " " (HouseholdLinker.split street).

(** The street cell holds a value: not blank and not a rendered missing value. *)
Definition street_present (street : string) : Prop :=
  strip (upper street) ≠ "" ∧ strip (upper street) ≠ "NAN".

(** No two aliases with the same normalized alias name carry different
    target ids. *)
Definition consistent_aliases (aliases : list AliasOverride.alias) : Prop :=
  ∀ a b n, a ∈ aliases → b ∈ aliases →
           AliasOverride.upper_trim (AliasOverride.alias_name a) = Some n →
           AliasOverride.upper_trim (AliasOverride.alias_name b) = Some n →
           AliasOverride.alias_master_person_id a = AliasOverride.alias_master_person_id b.

Definition conflicting_aliases : list AliasOverride.alias :=
  [ AliasOverride.mkAlias (Some "JOHN SMITH") (Some "MP_AAAAAAAAAAAA");
    AliasOverride.mkAlias (Some "John Smith ") (Some "MP_BBBBBBBBBBBB") ].

Definition curated_aliases : list AliasOverride.alias :=
  [ AliasOverride.mkAlias (Some "JOHN SMITH") (Some "MP_AAAAAAAAAAAA");
    AliasOverride.mkAlias (Some "John Smith ") (Some "MP_AAAAAAAAAAAA");
    AliasOverride.mkAlias (Some "J SMITH") None ].

Definition donations : list AliasOverride.donation :=
  [ AliasOverride.mkDonation (Some " john smith") (Some "MP_F9BBFB09BB2D");
    AliasOverride.mkDonation (Some "JANE SMITH") (Some "MP_302B5273F4E3");
    AliasOverride.mkDonation None None ].

(** The score of an integer ratio: [ratio / 100.0]. *)
Definition score_of (r : Z) : float := (CommitteeLinker.float_of_Z r / 100)%float.

(** The integer ratio behind [fuzzy_match_committee_to_candidate]: 0 when a
    name is empty. *)
Definition ratio_of (token_sort_ratio : string → string → Z)
    (committee_name candidate_name : string) : Z :=
  if falsy committee_name || falsy candidate_name then 0%Z
  else token_sort_ratio (strip (lower committee_name)) (strip (lower candidate_name)).

Definition candidate_ratio (token_sort_ratio : string → string → Z)
    (committee_name : string) (c : CommitteeLinker.candidate) : Z :=
  ratio_of token_sort_ratio committee_name (CommitteeLinker.name_on_ballot c).

Definition all_ratios : list Z := Z.of_nat <$> seq 0 101.

(** On the ratios 0..100 the order of the scores is the order of the ratios. *)
Definition scores_ordered : bool :=
  forallb (λ r1, forallb (λ r2,
      Bool.eqb (PrimFloat.ltb (score_of r1) (score_of r2)) (r1 <? r2)%Z
      && Bool.eqb (PrimFloat.leb (score_of r1) (score_of r2)) (r1 <=? r2)%Z) all_ratios)
    all_ratios.

(** What the scan for the best candidate has established after the
    candidates [seen]. *)
Definition best_inv (rat : CommitteeLinker.candidate → Z) (threshold : float)
    (seen : list CommitteeLinker.candidate)
    (st : option CommitteeLinker.candidate * float) : Prop :=
  match st.1 with
  | None =>
      st.2 = 0%float
      ∧ ∀ c, c ∈ seen → (0 <? rat c)%Z && PrimFloat.leb threshold (score_of (rat c)) = false
  | Some best =>
      st.2 = score_of (rat best)
      ∧ PrimFloat.leb threshold (score_of (rat best)) = true
      ∧ (0 < rat best)%Z
      ∧ ∃ pre post, seen = (pre ++ best :: post)%list
                    ∧ (∀ c, c ∈ pre → (rat c < rat best)%Z)
                    ∧ (∀ c, c ∈ post → (rat c ≤ rat best)%Z)
  end.


(** A stand-in for the library ratio: 100 for equal strings, 0 otherwise. *)
Definition exact_ratio (a b : string) : Z := if bool_decide (a = b) then 100%Z else 0%Z.

Definition wake_candidates : list CommitteeLinker.candidate :=
  [ CommitteeLinker.mkCandidate 7 "Jane Doe" (Some "Durham") "DEM" "MAYOR";
    CommitteeLinker.mkCandidate 8 "JOHN SMITH" (Some " Wake ") "REP" "SHERIFF";
    CommitteeLinker.mkCandidate 9 "John Smith" (Some "WAKE") "DEM" "SHERIFF" ].

Definition smith_committee : CommitteeLinker.committee :=
  CommitteeLinker.mkCommittee "STA-1" "john smith" "Wake".

(** The characters of a string. *)
Definition chars (s : string) : list ascii := list_ascii_of_string s.

(** The signals [match_records] adds up: a first-name similarity of at
    least 0.8, equal normalized ZIPs, equal non-empty street numbers. *)
Definition name_signal (fn_sim : float) : bool := PyFloat.geb fn_sim 0.8.

Definition zip_signal (r1 r2 : DonorRecord) : bool :=
  bool_decide (normalize_zip (zipcode r1) = normalize_zip (zipcode r2)).

Definition street_signal (r1 r2 : DonorRecord) : bool :=
  bool_decide (extract_street_number (street_address r1)
               = extract_street_number (street_address r2))
  && negb (bool_decide (extract_street_number (street_address r1) = "")).

Definition signal_count (fn_sim : float) (r1 r2 : DonorRecord) : nat :=
  (if name_signal fn_sim then 1 else 0)
  + (if zip_signal r1 r2 then 1 else 0)
  + (if street_signal r1 r2 then 1 else 0).

(** The keys [generate_master_id] reads. *)
Definition key_components : list string := ["last_name"; "first_name"; "zip"; "street_num"].

(** Two stores hold the same record at every position of [W]. *)
Definition agree (W : gset nat) (store store' : list DonorRecord) : Prop :=
  ∀ p, p ∈ W → store !! p = store' !! p.

(** Outside [W] the pass has left both stores as they were. *)
Definition untouched (W : gset nat) (store0 store0' store store' : list DonorRecord) : Prop :=
  ∀ p, p ∉ W → store !! p = store0 !! p ∧ store' !! p = store0' !! p.

(** Every position whose id is in [assigned] is in [W]. *)
Definition assigned_within (ids : list Z) (assigned : gset Z) (W : gset nat) : Prop :=
  ∀ p i, ids !! p = Some i → i ∈ assigned → p ∈ W.

(** The characters a normalized street address is made of: no lower-case
    letter, none of [.,#], and no whitespace other than the space. *)
Definition is_address_char (c : ascii) : bool :=
  negb (is_lower c) && negb (is_address_punctuation c)
  && (negb (is_space c) || bool_decide (c = " "%char)).

(** Every state code of the table has two letters and is left as it is. *)
Definition state_codes_fixed : bool :=
  forallb (λ fa : string * string,
             bool_decide (String.length fa.2 = 2) && bool_decide (normalize_state fa.2 = fa.2)
             && negb (bool_decide (String.length fa.1 = 2)))
          STATE_ABBREVS_items.

#[global] Instance donation_eq_dec : EqDecision AliasOverride.donation.
Proof. solve_decision. Defined.

(** The number of rows that differ between the table before and after. *)
Definition changed_rows (table table' : list AliasOverride.donation) : nat :=
  length (filter (λ dd : AliasOverride.donation * AliasOverride.donation, dd.1 ≠ dd.2)
                 (zip table table')).

(** The tokens a parsed name holds, in the order of the fields: the prefix
    without its period, the first name, the middle names, the last name,
    the suffix. *)
Definition parsed_tokens (r : NameParser.parsed) : list string :=
  omap (λ x : option string, x) [ sfilter (λ c, negb (bool_decide (c = "."%char))) <$> NameParser.prefix r;
            NameParser.first_name r; NameParser.middle_name r; NameParser.last_name r;
            NameParser.suffix r ].

(** A character of an upper-cased name from which the periods are gone. *)
Definition is_token_char (c : ascii) : bool :=
  negb (is_lower c) && negb (bool_decide (c = "."%char)).

(** A single word: not empty, and without whitespace. *)
Definition is_word_string (s : string) : bool :=
  negb (falsy s) && str_forall (λ c, negb (is_space c)) s.

(** * Properties *)

(** *** Flags *)

Lemma flag_at_insert_eq m i : i < length m → flag_at (<[i := true]> m) i = true.
Proof.
  intros H. unfold flag_at. rewrite nth_lookup, list_lookup_insert_eq by done. done.
Qed.

Lemma flag_at_insert_ne m i j : i ≠ j → flag_at (<[i := true]> m) j = flag_at m j.
Proof.
  intros H. unfold flag_at. rewrite !nth_lookup, list_lookup_insert_ne by done. done.
Qed.

Lemma flag_at_replicate n i : flag_at (replicate n false) i = false.
Proof.
  unfold flag_at. rewrite nth_lookup.
  destruct (replicate n false !! i) eqn:E; [|done].
  apply lookup_replicate in E as [-> _]. done.
Qed.

Lemma flag_at_ge m i : length m ≤ i → flag_at m i = false.
Proof. intros H. unfold flag_at. by rewrite nth_overflow. Qed.

Lemma count_true_insert m i :
  i < length m → flag_at m i = false → count_true (<[i := true]> m) = S (count_true m).
Proof.
  revert i. induction m as [|b m IH]; intros [|i] Hlt Hf; simpl in *; try lia.
  - unfold flag_at in Hf. simpl in Hf. subst b. done.
  - rewrite IH; [lia | lia | done].
Qed.

Lemma count_true_replicate n : count_true (replicate n false) = 0.
Proof. induction n; simpl; auto. Qed.

Lemma flags_ext (m m' : list bool) :
  length m = length m' → (∀ i, flag_at m i = true ↔ flag_at m' i = true) → m = m'.
Proof.
  intros Hlen H. apply list_eq. intros i.
  destruct (decide (i < length m)) as [Hi|Hi].
  - destruct (lookup_lt_is_Some_2 m i Hi) as [b Hb].
    destruct (lookup_lt_is_Some_2 m' i ltac:(lia)) as [b' Hb'].
    specialize (H i). unfold flag_at in H. rewrite !nth_lookup, Hb, Hb' in H.
    simpl in H. rewrite Hb, Hb'. f_equal.
    destruct b, b'; try done; [apply proj1 in H | apply proj2 in H]; by specialize (H eq_refl).
  - rewrite !lookup_ge_None_2 by lia. done.
Qed.

Lemma flagged_length m s : length m = length s → length (flagged m s) = count_true m.
Proof.
  revert s. induction m as [|b m IH]; intros [|c s] H; simpl in *; try done.
  destruct b; simpl; rewrite IH by lia; done.
Qed.

Lemma mismatches_sym xs ys : mismatches xs ys = mismatches ys xs.
Proof.
  revert ys. induction xs as [|x xs IH]; intros [|y ys]; simpl; try done.
  rewrite IH. f_equal. repeat case_bool_decide; congruence.
Qed.

(** *** The matching pass *)

Section MatchPass.
Variables (s1 s2 : list ascii) (d : nat).

Lemma find_match_Some c m j n r :
  find_match s2 c m j n = Some r →
  j ≤ r < j + n ∧ flag_at m r = false ∧ c = char_at s2 r
  ∧ ∀ j', j ≤ j' < r → flag_at m j' = true ∨ c ≠ char_at s2 j'.
Proof.
  revert j. induction n as [|n IH]; intros j; simpl; [done|].
  destruct (flag_at m j) eqn:Ef; simpl.
  - intros H. apply IH in H as (H1 & H2 & H3 & H4). repeat split; try lia; try done.
    intros j' Hj'. destruct (decide (j' = j)) as [->|]; [by left | apply H4; lia].
  - case_bool_decide as Ec; simpl.
    + intros [= <-]. repeat split; try lia; try done; intros; lia.
    + intros H. apply IH in H as (H1 & H2 & H3 & H4). repeat split; try lia; try done.
      intros j' Hj'. destruct (decide (j' = j)) as [->|]; [by right | apply H4; lia].
Qed.

Lemma find_match_None c m j n :
  find_match s2 c m j n = None →
  ∀ j', j ≤ j' < j + n → flag_at m j' = true ∨ c ≠ char_at s2 j'.
Proof.
  revert j. induction n as [|n IH]; intros j; simpl; [intros; lia|].
  destruct (flag_at m j) eqn:Ef; simpl.
  - intros H j' Hj'. destruct (decide (j' = j)) as [->|]; [by left | eapply IH; [done | lia]].
  - case_bool_decide as Ec; simpl; [done|].
    intros H j' Hj'. destruct (decide (j' = j)) as [->|]; [by right | eapply IH; [done | lia]].
Qed.

Lemma match_inv_init :
  match_inv s1 s2 d 0 (λ _ _, False)
            (replicate (length s1) false, replicate (length s2) false, 0).
Proof.
  split; simpl; try done.
  - by rewrite length_replicate.
  - by rewrite length_replicate.
  - intros i. rewrite flag_at_replicate. split; [done | by intros [? []]].
  - intros j. rewrite flag_at_replicate. split; [done | by intros [? []]].
  - intros; lia.
  - by rewrite count_true_replicate.
  - by rewrite count_true_replicate.
Qed.

Lemma match_inv_step n P st :
  n < length s1 → match_inv s1 s2 d n P st →
  ∃ P', match_inv s1 s2 d (S n) P' (match_step s1 s2 d st n).
Proof.
  intros Hn [L1 L2 F1 F2 HE HF HI HG C1 C2].
  destruct st as [[m1 m2] k]. simpl in *. unfold match_step.
  assert (Hfree : flag_at m1 n = false).
  { destruct (flag_at m1 n) eqn:E; [|done].
    apply F1 in E as [j Hj]. apply HE in Hj as [? _]. lia. }
  destruct (find_match _ _ _ _ _) as [r|] eqn:Efm.
  - apply find_match_Some in Efm as (Hr & Hfr & Hc & Hmin).
    exists (λ i j, P i j ∨ (i = n ∧ j = r)).
    assert (Hedge : edge s1 s2 d n r) by (unfold edge; repeat split; try done; lia).
    split; simpl.
    + by rewrite length_insert.
    + by rewrite length_insert.
    + intros i. destruct (decide (i = n)) as [->|Hne].
      * rewrite flag_at_insert_eq by lia. split; [eauto | done].
      * rewrite flag_at_insert_ne by done. rewrite F1. split.
        -- intros [j Hj]; eauto.
        -- intros [j [Hj|[? _]]]; [eauto | done].
    + intros j. destruct (decide (j = r)) as [->|Hne].
      * rewrite flag_at_insert_eq by lia. split; [eauto | done].
      * rewrite flag_at_insert_ne by done. rewrite F2. split.
        -- intros [i Hi]; eauto.
        -- intros [i [Hi|[_ ?]]]; [eauto | done].
    + intros i j [Hp|[-> ->]]; [apply HE in Hp as [? ?]; split; [lia | done] | split; [lia | done]].
    + intros i j j' [Hp|[-> ->]] [Hp'|[Hi' ->]]; try done.
      * by eapply HF.
      * apply HE in Hp as [? _]. lia.
      * apply HE in Hp' as [? _]. lia.
    + intros i i' j [Hp|[-> ->]] [Hp'|[-> Hj']]; try done.
      * by eapply HI.
      * subst. assert (flag_at m2 r = true) by (apply F2; eauto). congruence.
      * assert (flag_at m2 r = true) by (apply F2; eauto). congruence.
    + intros i j Hi Hed. destruct (decide (i = n)) as [->|Hne].
      * destruct (decide (r ≤ j)) as [Hle|Hgt]; [left; exists r; eauto|].
        right. destruct Hed as (_ & Hj & Hch & Hlo & Hhi).
        destruct (Hmin j ltac:(lia)) as [Hfl|Hcx]; [|done].
        apply F2 in Hfl as [i' Hi']. exists i'. split; [|by left].
        apply HE in Hi' as [? _]. done.
      * destruct (HG i j ltac:(lia) Hed) as [(j' & ? & ?)|(i' & ? & ?)]; [left | right]; eauto.
    + rewrite count_true_insert by (done || lia). by f_equal.
    + rewrite count_true_insert by (done || lia). by f_equal.
  - pose proof (find_match_None _ _ _ _ Efm) as Hnone.
    exists P. split; simpl; try done.
    + intros i j Hp. apply HE in Hp as [? ?]. split; [lia | done].
    + intros i j Hi Hed. destruct (decide (i = n)) as [->|Hne].
      * right. destruct Hed as (_ & Hj & Hch & Hlo & Hhi).
        destruct (Hnone j ltac:(lia)) as [Hfl|Hcx]; [|done].
        apply F2 in Hfl as [i' Hi']. exists i'. split; [|done].
        apply HE in Hi' as [? _]. done.
      * apply HG; [lia | done].
Qed.

Lemma match_inv_fold n a P st :
  a + n ≤ length s1 → match_inv s1 s2 d a P st →
  ∃ P', match_inv s1 s2 d (a + n) P' (fold_left (match_step s1 s2 d) (seq a n) st).
Proof.
  revert a P st. induction n as [|n IH]; intros a P st Hle Hinv; simpl.
  - exists P. by rewrite Nat.add_0_r.
  - destruct (match_inv_step a P st ltac:(lia) Hinv) as [P' Hinv'].
    destruct (IH (S a) P' _ ltac:(lia) Hinv') as [P'' Hinv''].
    exists P''. by replace (a + S n) with (S a + n) by lia.
Qed.

Lemma match_pass_inv :
  ∃ P, match_inv s1 s2 d (length s1) P (match_pass s1 s2 d).
Proof.
  unfold match_pass.
  destruct (match_inv_fold (length s1) 0 _ _ ltac:(lia) match_inv_init) as [P HP].
  by exists P.
Qed.

End MatchPass.

Lemma edge_sym s1 s2 d i j : edge s1 s2 d i j → edge s2 s1 d j i.
Proof. unfold edge. intros (? & ? & ? & ? & ?). repeat split; try done; lia. Qed.

Lemma match_inv_greedy_matching s1 s2 d P st :
  match_inv s1 s2 d (length s1) P st → greedy_matching s1 s2 d P.
Proof.
  intros [L1 L2 F1 F2 HE HF HI HG C1 C2]. split; try done.
  - intros i j Hp. by apply HE in Hp as [_ ?].
  - intros i j Hed. apply HG; [|done]. by destruct Hed.
Qed.

(** The matching seen from the second string is again a greedy matching. *)
Lemma greedy_matching_flip s1 s2 d P :
  greedy_matching s1 s2 d P → greedy_matching s2 s1 d (λ j i, P i j).
Proof.
  intros [HE HF HI HG]. split.
  - intros j i Hp. by apply edge_sym, HE.
  - intros j i i' ? ?. by eapply HI.
  - intros j j' i ? ?. by eapply HF.
  - intros j i Hed. apply edge_sym in Hed.
    destruct (HG i j Hed) as [(j' & Hle & Hp)|(i' & Hlt & Hp)].
    + destruct (decide (j' = j)) as [->|]; [left; exists i; eauto|].
      right. exists j'. split; [lia | done].
    + left. exists i'. split; [lia | done].
Qed.

Lemma greedy_matching_step s1 s2 d P Q i :
  greedy_matching s1 s2 d P → greedy_matching s1 s2 d Q →
  (∀ i', i' < i → ∀ j, P i' j ↔ Q i' j) →
  ∀ j, P i j → Q i j.
Proof.
  intros HP HQ IH j Hp.
  destruct (gm_greedy _ _ _ _ HQ i j (gm_edge _ _ _ _ HP _ _ Hp))
    as [(j' & Hle & Hq)|(i' & Hlt & Hq)].
  - destruct (decide (j' = j)) as [->|Hne]; [done|].
    destruct (gm_greedy _ _ _ _ HP i j' (gm_edge _ _ _ _ HQ _ _ Hq))
      as [(j'' & Hle' & Hp')|(i' & Hlt & Hp')].
    + pose proof (gm_fun _ _ _ _ HP _ _ _ Hp Hp'). lia.
    + apply IH in Hp'; [|done]. pose proof (gm_inj _ _ _ _ HQ _ _ _ Hq Hp'). lia.
  - apply IH in Hq; [|done]. pose proof (gm_inj _ _ _ _ HP _ _ _ Hp Hq). lia.
Qed.

(** A greedy matching is determined by the two strings. *)
Lemma greedy_matching_unique s1 s2 d P Q :
  greedy_matching s1 s2 d P → greedy_matching s1 s2 d Q → ∀ i j, P i j ↔ Q i j.
Proof.
  intros HP HQ i. induction i as [i IH] using lt_wf_ind. intros j. split.
  - apply (greedy_matching_step s1 s2 d P Q i HP HQ). intros; by apply IH.
  - apply (greedy_matching_step s1 s2 d Q P i HQ HP). intros; symmetry; by apply IH.
Qed.

(** Swapping the strings swaps the two flag lists and keeps the count. *)
Lemma match_pass_sym s1 s2 d :
  match_pass s2 s1 d =
  (let '(m1, m2, k) := match_pass s1 s2 d in (m2, m1, k)).
Proof.
  destruct (match_pass_inv s1 s2 d) as [P HP].
  destruct (match_pass_inv s2 s1 d) as [Q HQ].
  pose proof (greedy_matching_unique _ _ _ _ _
                (match_inv_greedy_matching _ _ _ _ _ HQ)
                (greedy_matching_flip _ _ _ _ (match_inv_greedy_matching _ _ _ _ _ HP))) as Huniq.
  destruct (match_pass s1 s2 d) as [[m1 m2] k].
  destruct (match_pass s2 s1 d) as [[n1 n2] k'].
  destruct HP as [L1 L2 F1 F2 _ _ _ _ C1 C2], HQ as [L1' L2' F1' F2' _ _ _ _ C1' C2'].
  simpl in *.
  assert (n1 = m2) as ->.
  { apply flags_ext; [congruence|]. intros j. rewrite F1', F2.
    split; intros [i Hi]; exists i; by apply Huniq. }
  assert (n2 = m1) as ->.
  { apply flags_ext; [congruence|]. intros i. rewrite F2', F1.
    split; intros [j Hj]; exists j; by apply Huniq. }
  congruence.
Qed.

(** *** The transposition pass *)

Lemma drop_char_at (s : list ascii) k :
  k < length s → drop k s = char_at s k :: drop (S k) s.
Proof.
  intros H. destruct (lookup_lt_is_Some_2 s k H) as [c Hc].
  unfold char_at. rewrite (nth_lookup_Some _ _ _ _ Hc). by apply drop_S.
Qed.

Lemma drop_flag_at (m : list bool) k :
  k < length m → drop k m = flag_at m k :: drop (S k) m.
Proof.
  intros H. destruct (lookup_lt_is_Some_2 m k H) as [c Hc].
  unfold flag_at. rewrite (nth_lookup_Some _ _ _ _ Hc). by apply drop_S.
Qed.

Lemma skip_unmatched_flagged (s : list ascii) (m : list bool) fuel k c rest :
  length m = length s → fuel = length m - k →
  flagged (drop k m) (drop k s) = c :: rest →
  ∃ k', skip_unmatched m k fuel = Some k' ∧ char_at s k' = c
        ∧ flagged (drop (S k') m) (drop (S k') s) = rest.
Proof.
  intros Hlen. revert k. induction fuel as [|fuel IH]; intros k Hfuel Hfl.
  - rewrite drop_ge in Hfl by lia. done.
  - rewrite (drop_flag_at m k), (drop_char_at s k) in Hfl by lia. simpl in *.
    destruct (flag_at m k) eqn:E.
    + injection Hfl as <- <-. by exists k.
    + apply IH; [lia | done].
Qed.

Section TranspositionPass.
Variables (s1 s2 : list ascii) (m1 m2 : list bool).
Hypothesis Hlen1 : length m1 = length s1.
Hypothesis Hlen2 : length m2 = length s2.

Lemma transposition_fold n a k t :
  a + n = length s1 →
  length (flagged (drop a m1) (drop a s1)) ≤ length (flagged (drop k m2) (drop k s2)) →
  ∃ k', fold_left (transposition_step s1 s2 m1 m2) (seq a n) (Some (k, t))
        = Some (k', t + mismatches (flagged (drop a m1) (drop a s1))
                                    (flagged (drop k m2) (drop k s2))).
Proof.
  revert a k t. induction n as [|n IH]; intros a k t Ha Hle; simpl.
  - rewrite !(drop_ge _ a) by lia. simpl. exists k. f_equal. f_equal. lia.
  - rewrite (drop_flag_at m1 a), (drop_char_at s1 a) in Hle |- * by lia. simpl in *.
    destruct (flag_at m1 a) eqn:E; simpl in *.
    + destruct (flagged (drop k m2) (drop k s2)) as [|c rest] eqn:E2; [simpl in Hle; lia|].
      destruct (skip_unmatched_flagged s2 m2 _ k c rest Hlen2 eq_refl E2)
        as (k' & -> & Hc & Hrest).
      simpl in Hle.
      destruct (IH (S a) (S k')
                  (if bool_decide (char_at s1 a = char_at s2 k') then t else S t)
                  ltac:(lia) ltac:(rewrite Hrest; lia)) as [k'' ->].
      exists k''. f_equal. f_equal. rewrite Hrest, Hc. simpl.
      case_bool_decide; lia.
    + apply IH; [lia | done].
Qed.

Lemma transposition_pass_flagged :
  count_true m1 ≤ count_true m2 →
  transposition_pass s1 s2 m1 m2 = Some (mismatches (flagged m1 s1) (flagged m2 s2)).
Proof.
  intros Hle. unfold transposition_pass.
  destruct (transposition_fold (length s1) 0 0 0 eq_refl) as [k' ->].
  - rewrite !drop_0, !flagged_length by done. done.
  - by rewrite !drop_0.
Qed.

End TranspositionPass.

(** *** Float addition *)

Lemma SFadd_comm x y : SFadd prec emax x y = SFadd prec emax y x.
Proof.
  destruct x as [sx|sx| |sx mx ex], y as [sy|sy| |sy my ey]; simpl;
    try destruct sx; try destruct sy; try reflexivity;
    rewrite (Z.min_comm ex ey); f_equal; apply Z.add_comm.
Qed.

Lemma float_add_comm (x y : float) : (x + y)%float = (y + x)%float.
Proof. apply Prim2SF_inj. rewrite !FloatAxioms.add_spec. apply SFadd_comm. Qed.

(** *** [calculate_name_similarity] returns, and does not depend on the order
    of its arguments *)

Lemma prefix_count_sym s1 s2 : prefix_count s1 s2 = prefix_count s2 s1.
Proof.
  unfold prefix_count. rewrite (Nat.min_comm (length s1)).
  f_equal. apply list_filter_iff. intros i. split; congruence.
Qed.

Lemma jaro_formula_sym s1 s2 k t : jaro_formula s1 s2 k t = jaro_formula s2 s1 k t.
Proof. unfold jaro_formula. f_equal. f_equal. apply float_add_comm. Qed.

(** The transposition pass never reads past the end of [s2_matches]: the
    scorer is [jaro + prefix_count * 0.1 * (1 - jaro)] on the flags of the
    matching pass. *)
Lemma jaro_winkler_eq s1 s2 :
  jaro_winkler s1 s2 =
  if bool_decide (length s1 = 0) || bool_decide (length s2 = 0) then Some 0%float
  else
    let '(m1, m2, k) := match_pass s1 s2 (Nat.max (length s1) (length s2) / 2 - 1) in
    if bool_decide (k = 0) then Some 0%float
    else
      let jaro := jaro_formula s1 s2 k (mismatches (flagged m1 s1) (flagged m2 s2)) in
      Some (jaro + PyFloat.of_nat (prefix_count s1 s2) * 0.1 * (1 - jaro))%float.
Proof.
  unfold jaro_winkler.
  destruct (bool_decide (length s1 = 0) || bool_decide (length s2 = 0)); [done|].
  destruct (match_pass_inv s1 s2 (Nat.max (length s1) (length s2) / 2 - 1)) as [P HP].
  destruct (match_pass _ _ _) as [[m1 m2] k].
  destruct HP as [L1 L2 _ _ _ _ _ _ C1 C2]. simpl in *.
  destruct (bool_decide (k = 0)); [done|].
  rewrite transposition_pass_flagged by (done || lia). done.
Qed.

Lemma jaro_winkler_sym s1 s2 : jaro_winkler s1 s2 = jaro_winkler s2 s1.
Proof.
  rewrite !jaro_winkler_eq.
  rewrite (orb_comm (bool_decide (length s2 = 0))).
  destruct (_ || _); [done|].
  rewrite (Nat.max_comm (length s2)), (match_pass_sym s1 s2).
  destruct (match_pass s1 s2 _) as [[m1 m2] k].
  destruct (bool_decide (k = 0)); [done|].
  cbv zeta. rewrite (mismatches_sym (flagged m2 s2)), (jaro_formula_sym s2 s1), (prefix_count_sym s2 s1).
  done.
Qed.

Lemma jaro_winkler_total s1 s2 : ∃ v, jaro_winkler s1 s2 = Some v.
Proof.
  rewrite jaro_winkler_eq.
  destruct (_ || _); [eauto|].
  destruct (match_pass _ _ _) as [[m1 m2] k].
  destruct (bool_decide (k = 0)); eauto.
Qed.

Lemma calculate_name_similarity_total name1 name2 :
  ∃ v, calculate_name_similarity name1 name2 = Some v.
Proof.
  unfold calculate_name_similarity.
  destruct (_ || _); [eauto|].
  case_bool_decide; [eauto|]. apply jaro_winkler_total.
Qed.

(** C8: the similarity of two names does not depend on which of the two
    comes first: [calculate_name_similarity a b] and
    [calculate_name_similarity b a] return the same value. *)
Theorem calculate_name_similarity_symmetric (a b : string) :
  calculate_name_similarity a b = calculate_name_similarity b a.
Proof.
  unfold calculate_name_similarity.
  rewrite (orb_comm (falsy b)).
  destruct (_ || _); [done|].
  repeat case_bool_decide; try done; try congruence.
  apply jaro_winkler_sym.
Qed.

Lemma float_opt_eqb_false x y : float_opt_eqb x y = false → x ≠ y.
Proof.
  intros H ->. destruct y as [b|]; simpl in H; [|done].
  assert (PrimFloat.Leibniz.eqb b b = true) by (by apply FloatAxioms.Leibniz.eqb_spec).
  congruence.
Qed.

(** *** Upper-casing and trimming *)

Lemma is_space_upper_char c : is_space (upper_char c) = is_space c.
Proof. destruct c as [[] [] [] [] [] [] [] []]; reflexivity. Qed.

Lemma upper_char_idem c : upper_char (upper_char c) = upper_char c.
Proof. destruct c as [[] [] [] [] [] [] [] []]; reflexivity. Qed.

Lemma upper_idem s : upper (upper s) = upper s.
Proof. unfold upper. induction s as [|c s IH]; simpl; [done|]. by rewrite upper_char_idem, IH. Qed.

Lemma upper_empty s : upper s = "" ↔ s = "".
Proof. unfold upper. destruct s; simpl; split; congruence. Qed.

Lemma lstrip_upper s : lstrip_by is_space (upper s) = upper (lstrip_by is_space s).
Proof.
  unfold upper. induction s as [|c s IH]; simpl; [done|].
  rewrite is_space_upper_char. by destruct (is_space c).
Qed.

Lemma rstrip_upper s : rstrip_by is_space (upper s) = upper (rstrip_by is_space s).
Proof.
  unfold upper. induction s as [|c s IH]; simpl; [done|].
  rewrite IH, is_space_upper_char.
  destruct (rstrip_by is_space s); simpl; [by destruct (is_space c) | done].
Qed.

Lemma strip_upper s : strip (upper s) = upper (strip s).
Proof. unfold strip. by rewrite lstrip_upper, rstrip_upper. Qed.

Lemma rstrip_idem p s : rstrip_by p (rstrip_by p s) = rstrip_by p s.
Proof.
  induction s as [|c s IH]; simpl; [done|].
  destruct (rstrip_by p s) as [|c' r] eqn:E.
  - destruct (p c) eqn:Ep; simpl; [done | by rewrite Ep].
  - simpl in *. by rewrite IH.
Qed.

Lemma lstrip_head p s :
  lstrip_by p s = "" ∨ ∃ c t, lstrip_by p s = String c t ∧ p c = false.
Proof.
  induction s as [|c s IH]; simpl; [by left|].
  destruct (p c) eqn:E; [done | right; eauto].
Qed.

Lemma lstrip_rstrip p c t : p c = false → lstrip_by p (rstrip_by p (String c t)) = rstrip_by p (String c t).
Proof.
  intros H. simpl. destruct (rstrip_by p t); rewrite ?H; simpl; by rewrite H.
Qed.

Lemma strip_idem s : strip (strip s) = strip s.
Proof.
  unfold strip. destruct (lstrip_head is_space s) as [->|(c & t & -> & Hc)]; [done|].
  by rewrite lstrip_rstrip, rstrip_idem.
Qed.

Lemma normalized_name_idem s : normalized_name (normalized_name s) = normalized_name s.
Proof.
  unfold normalized_name. by rewrite <- strip_upper, strip_idem, upper_idem.
Qed.

Lemma falsy_true s : falsy s = true ↔ s = "".
Proof. unfold falsy. by rewrite bool_decide_eq_true. Qed.

Lemma falsy_false s : falsy s = false ↔ s ≠ "".
Proof. unfold falsy. by rewrite bool_decide_eq_false. Qed.

(** C10, as stated, fails on two blank names: they are not empty, so the
    scorer compares their trimmed forms, finds them equal and returns 1.0,
    while on the trimmed forms themselves (both empty) it returns 0.0. *)
Lemma calculate_name_similarity_blank_names :
  calculate_name_similarity " " "  "
  ≠ calculate_name_similarity (normalized_name " ") (normalized_name "  ").
Proof. apply float_opt_eqb_false. vm_compute. reflexivity. Qed.

(** C10, amended: unless both names are non-empty and blank, the similarity
    of two names is the similarity of their upper-cased, trimmed forms; and
    two non-empty names whose upper-cased, trimmed forms are equal score
    exactly 1.0. *)
Theorem calculate_name_similarity_normalized (a b : string) :
  (a = "" ∨ b = "" ∨ normalized_name a ≠ "" ∨ normalized_name b ≠ "" →
   calculate_name_similarity a b
   = calculate_name_similarity (normalized_name a) (normalized_name b))
  ∧ (a ≠ "" → b ≠ "" → normalized_name a = normalized_name b →
     calculate_name_similarity a b = Some 1%float).
Proof.
  split.
  - intros H. unfold calculate_name_similarity. fold (normalized_name a) (normalized_name b).
    fold (normalized_name (normalized_name a)) (normalized_name (normalized_name b)).
    rewrite !normalized_name_idem.
    destruct (decide (a = "")) as [->|Ha]; [done|].
    destruct (decide (b = "")) as [->|Hb].
    { change (normalized_name "") with "". simpl. by rewrite !orb_true_r. }
    assert (falsy a = false) as -> by (by apply falsy_false).
    assert (falsy b = false) as -> by (by apply falsy_false). simpl.
    destruct (decide (normalized_name a = "")) as [Ea|Ea].
    { rewrite Ea. simpl. destruct H as [?|[?|[?|Hnb]]]; try done.
      case_bool_decide; [congruence|]. done. }
    destruct (decide (normalized_name b = "")) as [Eb|Eb].
    { rewrite Eb. assert (falsy (normalized_name a) = false) as -> by (by apply falsy_false).
      simpl. case_bool_decide; [congruence|].
      unfold jaro_winkler. simpl. by rewrite orb_true_r. }
    assert (falsy (normalized_name a) = false) as -> by (by apply falsy_false).
    assert (falsy (normalized_name b) = false) as -> by (by apply falsy_false). done.
  - intros Ha Hb Heq. unfold calculate_name_similarity.
    fold (normalized_name a) (normalized_name b).
    assert (falsy a = false) as -> by (by apply falsy_false).
    assert (falsy b = false) as -> by (by apply falsy_false). simpl.
    by rewrite bool_decide_eq_true_2.
Qed.

Lemma calculate_name_similarity_normalized_witness :
  calculate_name_similarity " John" "JOHN  "
  = calculate_name_similarity (normalized_name " John") (normalized_name "JOHN  ")
  ∧ calculate_name_similarity " John" "JOHN  " = Some 1%float.
Proof.
  split.
  - apply (proj1 (calculate_name_similarity_normalized " John" "JOHN  ")).
    right. right. left. vm_compute. discriminate.
  - apply (proj2 (calculate_name_similarity_normalized " John" "JOHN  ")); [discriminate | discriminate |].
    vm_compute. reflexivity.
Defined.

(** C5, at the names JOAN and JEAN: the scorer adds the bonus for three
    agreeing positions among the first four (J, A, N), although the common
    prefix is the single letter J. *)
Theorem calculate_name_similarity_prefix_bonus :
  calculate_name_similarity "JOAN" "JEAN" = Some 0x1.c444444444445p-1%float
  ∧ winkler_by_common_prefix (list_ascii_of_string "JOAN") (list_ascii_of_string "JEAN")
    = Some 0x1.b333333333334p-1%float
  ∧ prefix_count (list_ascii_of_string "JOAN") (list_ascii_of_string "JEAN") = 3
  ∧ common_prefix_len 4 (list_ascii_of_string "JOAN") (list_ascii_of_string "JEAN") = 1
  ∧ calculate_name_similarity "JOAN" "JEAN"
    ≠ winkler_by_common_prefix (list_ascii_of_string "JOAN") (list_ascii_of_string "JEAN").
Proof.
  repeat split; try (vm_compute; reflexivity).
  apply float_opt_eqb_false. vm_compute. reflexivity.
Qed.

(** *** SHA-256 on the test vectors of FIPS 180-4 *)

Example hexdigest_empty :
  SHA256.hexdigest "" = "e3b0c44298fc1c149afbf4c8996fb92427ae41e4649b934ca495991b7852b855".
Proof. vm_compute. reflexivity. Qed.

Example hexdigest_abc :
  SHA256.hexdigest "abc" = "ba7816bf8f01cfea414140de5dae2223b00361a396177a9cb410ff61f20015ad".
Proof. vm_compute. reflexivity. Qed.

Example hexdigest_two_blocks :
  SHA256.hexdigest "abcdbcdecdefdefgefghfghighijhijkijkljklmklmnlmnomnopnopq"
  = "248d6a61d20638b8e5c026930c3e6039a33ce45964ff2167f6ecedd419db06c1".
Proof. vm_compute. reflexivity. Qed.

(** *** [generate_master_id] *)

Lemma str_length_app (s t : string) : String.length (s ++ t) = String.length s + String.length t.
Proof. induction s as [|c s IH]; simpl; [done | by rewrite IH]. Qed.

Lemma upper_length s : String.length (upper s) = String.length s.
Proof. unfold upper. induction s as [|c s IH]; simpl; [done | by rewrite IH]. Qed.

Lemma str_take_length n s : String.length (str_take n s) = Nat.min n (String.length s).
Proof. revert s. induction n as [|n IH]; intros [|c s]; simpl; try done. by rewrite IH. Qed.

Lemma str_forall_take p n s : str_forall p s = true → str_forall p (str_take n s) = true.
Proof.
  revert s. induction n as [|n IH]; intros [|c s]; simpl; try done.
  intros [-> H]%andb_true_iff. simpl. by apply IH.
Qed.

Lemma hex_length bytes : String.length (SHA256.hex bytes) = 2 * length bytes.
Proof. induction bytes as [|b bs IH]; simpl; [done | rewrite IH; lia]. Qed.

Lemma be_bytes_length n x : length (SHA256.be_bytes n x) = n.
Proof. induction n as [|n IH]; simpl; [done | by rewrite IH]. Qed.

Lemma be_bytes_range n x : Forall (λ b, 0 ≤ b < 256)%Z (SHA256.be_bytes n x).
Proof.
  induction n as [|n IH]; simpl; constructor; [|done].
  change 255%Z with (Z.ones 8). rewrite Z.land_ones by lia.
  apply Z.mod_pos_bound. lia.
Qed.

Lemma digest_length msg : length (SHA256.digest msg) = 32.
Proof.
  unfold SHA256.digest. cbv zeta. cbn [flat_map].
  rewrite !length_app, !be_bytes_length. done.
Qed.

Lemma digest_range msg : Forall (λ b, 0 ≤ b < 256)%Z (SHA256.digest msg).
Proof.
  unfold SHA256.digest. cbv zeta. cbn [flat_map].
  repeat (apply Forall_app; split); try apply be_bytes_range.
  constructor.
Qed.

Lemma hex_digit_upper d :
  (0 ≤ d < 16)%Z → is_upper_hex (upper_char (SHA256.hex_digit d)) = true.
Proof.
  intros H.
  assert (d = 0 ∨ d = 1 ∨ d = 2 ∨ d = 3 ∨ d = 4 ∨ d = 5 ∨ d = 6 ∨ d = 7 ∨ d = 8 ∨ d = 9
          ∨ d = 10 ∨ d = 11 ∨ d = 12 ∨ d = 13 ∨ d = 14 ∨ d = 15)%Z as Hd by lia.
  repeat (destruct Hd as [->|Hd]; [reflexivity|]). by subst.
Qed.

Lemma hex_upper bytes :
  Forall (λ b, 0 ≤ b < 256)%Z bytes →
  str_forall is_upper_hex (upper (SHA256.hex bytes)) = true.
Proof.
  unfold upper. induction 1 as [|b bs Hb _ IH]; simpl; [done|].
  rewrite IH, !hex_digit_upper; [done | |].
  - apply Z.mod_pos_bound. lia.
  - split; [apply Z.div_pos; lia | apply Z.div_lt_upper_bound; lia].
Qed.

Lemma upper_take n s : upper (str_take n s) = str_take n (upper s).
Proof.
  unfold upper. revert s. induction n as [|n IH]; intros [|c s]; simpl; try done.
  by rewrite IH.
Qed.

(** C2, as stated, fails on names that are not already upper-cased and
    trimmed: the id is not the hash of the key read off the components as
    given, and two components maps with the same
    [(last_name, first_name[:3], zip[:5], street_num)] get different ids. *)
Lemma generate_master_id_not_of_key_as_given :
  generate_master_id components_lower ≠ master_id_as_given components_lower
  ∧ key_string_as_given components_john = key_string_as_given components_joseph
  ∧ generate_master_id components_john ≠ generate_master_id components_joseph.
Proof.
  split; [|split].
  - vm_compute. discriminate.
  - vm_compute. reflexivity.
  - vm_compute. discriminate.
Qed.

(** C2, amended: [generate_master_id] is a function of the canonical key
    (last name upper-cased and trimmed, first three characters of the
    upper-cased and trimmed first name, [zip[:5]], street number): the id is
    [MP_] followed by the first 12 hexadecimal characters, upper-cased, of
    the SHA-256 digest of that key joined with pipes; it is 15 characters
    long; and equal canonical keys give equal ids. *)
Theorem generate_master_id_canonical (components : gmap string string) :
  (let '(ln, fn3, zip5, sn) := canonical_key components in
   ∃ hex12,
     generate_master_id components = "MP_" ++ hex12
     ∧ hex12 = upper (str_take 12 (SHA256.hexdigest (ln ++ "|" ++ fn3 ++ "|" ++ zip5 ++ "|" ++ sn)))
     ∧ String.length hex12 = 12
     ∧ str_forall is_upper_hex hex12 = true)
  ∧ ∀ components', canonical_key components' = canonical_key components →
                    generate_master_id components' = generate_master_id components.
Proof.
  split.
  - unfold canonical_key. eexists. split; [reflexivity|]. split; [reflexivity|]. split.
    + rewrite upper_length, str_take_length. unfold SHA256.hexdigest.
      rewrite hex_length, digest_length. done.
    + rewrite upper_take. apply str_forall_take. unfold SHA256.hexdigest.
      apply hex_upper, digest_range.
  - intros c' H. unfold generate_master_id, key_string.
    unfold canonical_key in H.
    pose proof (f_equal (λ x, x.1.1.1) H) as H1.
    pose proof (f_equal (λ x, x.1.1.2) H) as H2.
    pose proof (f_equal (λ x, x.1.2) H) as H3.
    pose proof (f_equal (λ x, x.2) H) as H4.
    cbn [fst snd] in H1, H2, H3, H4. by rewrite H1, H2, H3, H4.
Qed.

Lemma generate_master_id_canonical_witness :
  generate_master_id components_lower = "MP_F9BBFB09BB2D"
  ∧ generate_master_id components_john = generate_master_id components_lower.
Proof.
  destruct (generate_master_id_canonical components_lower) as [Hid Hkey]. split.
  - cbv beta iota zeta delta [canonical_key] in Hid.
    destruct Hid as (hex12 & -> & -> & _). vm_compute. reflexivity.
  - apply Hkey. vm_compute. reflexivity.
Defined.

(** *** [match_records] *)

Lemma lower_upper_char c : lower_char (upper_char c) = lower_char c.
Proof. destruct c as [[] [] [] [] [] [] [] []]; reflexivity. Qed.

Lemma upper_lower_char c : upper_char (lower_char c) = upper_char c.
Proof. destruct c as [[] [] [] [] [] [] [] []]; reflexivity. Qed.

Lemma lower_upper s : lower (upper s) = lower s.
Proof.
  unfold lower, upper. induction s as [|c s IH]; simpl; [done|].
  by rewrite lower_upper_char, IH.
Qed.

Lemma upper_lower s : upper (lower s) = upper s.
Proof.
  unfold lower, upper. induction s as [|c s IH]; simpl; [done|].
  by rewrite upper_lower_char, IH.
Qed.

(** Comparing upper-cased forms is comparing without regard to case. *)
Lemma upper_eq_iff_lower_eq a b : upper a = upper b ↔ lower a = lower b.
Proof.
  split; intros H.
  - rewrite <- (lower_upper a), <- (lower_upper b). by rewrite H.
  - rewrite <- (upper_lower a), <- (upper_lower b). by rewrite H.
Qed.

Lemma match_records_total r1 r2 : ∃ m, match_records r1 r2 = Some m.
Proof.
  unfold match_records. destruct (negb _); [eauto|].
  destruct (calculate_name_similarity_total (first_name r1) (first_name r2)) as [v ->].
  simpl. eauto.
Qed.

(** C3: [match_records] returns non-match with score 0.0 when the last
    names differ without regard to case; otherwise the score is the sum of
    the name points (0.4 from similarity 0.9, 0.3 from 0.8, else 0), 0.3 for
    equal normalized ZIPs and 0.3 for equal, non-empty street numbers, and
    the decision is [score >= 0.6]. *)
Theorem match_records_score (r1 r2 : DonorRecord) :
  (lower (last_name r1) ≠ lower (last_name r2) →
   match_records r1 r2 = Some (false, 0%float))
  ∧ (lower (last_name r1) = lower (last_name r2) →
     ∃ fn_sim,
       calculate_name_similarity (first_name r1) (first_name r2) = Some fn_sim
       ∧ let score := (name_points fn_sim + zip_points r1 r2 + street_points r1 r2)%float in
         match_records r1 r2 = Some (PyFloat.geb score 0.6, score)).
Proof.
  rewrite <- upper_eq_iff_lower_eq. unfold match_records. split; intros H.
  - by rewrite bool_decide_eq_false_2.
  - rewrite bool_decide_eq_true_2 by done. simpl.
    destruct (calculate_name_similarity_total (first_name r1) (first_name r2)) as [v Hv].
    exists v. split; [done|]. rewrite Hv. simpl.
    unfold name_points, zip_points, street_points.
    do 3 f_equal.
    + do 2 f_equal. repeat case_bool_decide; simpl; try done; intuition congruence.
    + f_equal. repeat case_bool_decide; simpl; try done; intuition congruence.
Qed.

Lemma match_records_score_witness :
  match_records (mkDonorRecord 1 "" "JOHN" "A" "SMITH" "" "123 Main St" "Raleigh" "NC" "27601" None)
                (mkDonorRecord 3 "DR" "JANE" "B" "Smith" "" "456 Oak Ave" "Raleigh" "NC" "27601" None)
  = Some (false, 0.3%float)
  ∧ match_records (mkDonorRecord 1 "" "JOHN" "A" "SMITH" "" "123 Main St" "Raleigh" "NC" "27601" None)
                  (mkDonorRecord 4 "" "JOHN" "" "JONES" "" "123 Main St" "Raleigh" "NC" "27601" None)
    = Some (false, 0%float).
Proof.
  split.
  - destruct (proj2 (match_records_score
        (mkDonorRecord 1 "" "JOHN" "A" "SMITH" "" "123 Main St" "Raleigh" "NC" "27601" None)
        (mkDonorRecord 3 "DR" "JANE" "B" "Smith" "" "456 Oak Ave" "Raleigh" "NC" "27601" None))
        eq_refl) as (v & Hv & ->).
    vm_compute in Hv. injection Hv as <-. vm_compute. reflexivity.
  - apply (proj1 (match_records_score
        (mkDonorRecord 1 "" "JOHN" "A" "SMITH" "" "123 Main St" "Raleigh" "NC" "27601" None)
        (mkDonorRecord 4 "" "JOHN" "" "JONES" "" "123 Main St" "Raleigh" "NC" "27601" None))).
    vm_compute. discriminate.
Defined.

(** *** Records *)

Lemma identity_fields_set v r : identity_fields (set_master_person_id v r) = identity_fields r.
Proof. done. Qed.

Lemma same_identity_fields_of_eq r o :
  identity_fields o = identity_fields r → same_identity_fields r o.
Proof.
  intros H. unfold same_identity_fields.
  repeat split;
    [ apply (f_equal id) in H | apply (f_equal prefix) in H | apply (f_equal first_name) in H
    | apply (f_equal middle_name) in H | apply (f_equal last_name) in H
    | apply (f_equal suffix) in H | apply (f_equal street_address) in H
    | apply (f_equal city) in H | apply (f_equal state) in H | apply (f_equal zipcode) in H ];
    exact H.
Qed.

Lemma match_records_identity_fields r1 r2 :
  match_records (identity_fields r1) (identity_fields r2) = match_records r1 r2.
Proof. done. Qed.

Lemma components_of_identity_fields r : components_of (identity_fields r) = components_of r.
Proof. done. Qed.

Lemma blocking_key_of_identity_fields r : blocking_key_of (identity_fields r) = blocking_key_of r.
Proof. done. Qed.

Lemma frame_lookup (records store : list DonorRecord) p o :
  identity_fields <$> store = identity_fields <$> records →
  store !! p = Some o →
  ∃ r, records !! p = Some r ∧ identity_fields o = identity_fields r.
Proof.
  intros Hf Ho.
  assert ((identity_fields <$> records) !! p = Some (identity_fields o)) as H
      by (by rewrite <- Hf, list_lookup_fmap, Ho).
  rewrite list_lookup_fmap in H.
  destruct (records !! p) as [r|]; [|done]. simpl in H.
  assert (identity_fields r = identity_fields o) as E by congruence.
  exists r. split; [done | by symmetry].
Qed.

Lemma frame_length (records store : list DonorRecord) :
  identity_fields <$> store = identity_fields <$> records → length store = length records.
Proof. intros H. apply (f_equal length) in H. by rewrite !length_fmap in H. Qed.

Lemma frame_insert (store : list DonorRecord) p o v :
  store !! p = Some o →
  identity_fields <$> <[p := set_master_person_id v o]> store = identity_fields <$> store.
Proof.
  intros H. rewrite list_fmap_insert, identity_fields_set.
  apply list_insert_id. by rewrite list_lookup_fmap, H.
Qed.

(** *** One block *)

Section Block.
Variable records : list DonorRecord.

Lemma propagate_step_cases r_ref other_ref store (assigned : gset Z) r other :
  store !! r_ref = Some r → store !! other_ref = Some other →
  (propagate_step r_ref (Some (store, assigned)) other_ref = Some (store, assigned)
   ∧ (id other ∈ assigned ∨ (∃ score, match_records r other = Some (false, score))))
  ∨ (propagate_step r_ref (Some (store, assigned)) other_ref
     = Some (<[other_ref := set_master_person_id (master_person_id r) other]> store,
             {[id other]} ∪ assigned)
     ∧ (id other ∉ assigned) ∧ (∃ score, match_records r other = Some (true, score))).
Proof.
  intros Hr Ho. unfold propagate_step. simpl. rewrite Hr, Ho. simpl.
  case_bool_decide as Hin; [left; eauto|].
  destruct (match_records_total r other) as [[b score] Hm]. rewrite Hm. simpl.
  destruct b; [right | left]; eauto.
Qed.

Lemma seeded_lookup store store' p :
  store' !! p = store !! p → seeded records store p → seeded records store' p.
Proof.
  intros E (q & s & r & o & H). exists q, s, r, o. by rewrite E.
Qed.

Section Propagate.
Variables (r_ref : nat) (k : string).

Lemma propagate_fold later store (assigned : gset Z) :
  framed records store → r_ref < length records → Forall (λ p, p < length records) later →
  ∃ store' assigned',
    fold_left (propagate_step r_ref) later (Some (store, assigned)) = Some (store', assigned')
    ∧ framed records store'
    ∧ (∀ p, p ∉ later → store' !! p = store !! p)
    ∧ assigned ⊆ assigned'
    ∧ (Forall (λ p, r_ref < p) later →
       Forall (λ p, ∃ r, records !! p = Some r ∧ blocking_key_of r = k) later →
       distinct_ids records →
       ∀ s, records !! r_ref = Some s → blocking_key_of s = k → id s ∈ assigned →
            (∃ x, store !! r_ref = Some x
                  ∧ master_person_id x = Some (generate_master_id (components_of s))) →
            assigned_seeded records (store, assigned) →
            assigned_seeded records (store', assigned')).
Proof.
  revert store assigned. induction later as [|o later IH]; intros store assigned Hf Hr Hl.
  - exists store, assigned. simpl. repeat split; try done.
  - apply Forall_cons in Hl as [Ho Hl].
    pose proof (frame_length _ _ Hf) as Hlen.
    destruct (lookup_lt_is_Some_2 store r_ref ltac:(lia)) as [r Er].
    destruct (lookup_lt_is_Some_2 store o ltac:(lia)) as [other Eo].
    destruct (frame_lookup _ _ _ _ Hf Er) as (s0 & Es0 & Hs0).
    destruct (frame_lookup _ _ _ _ Hf Eo) as (ro & Ero & Hro).
    cbn [fold_left].
    destruct (propagate_step_cases r_ref o store assigned r other Er Eo)
      as [[-> Hcase]|(-> & Hnin & score & Hm)].
    + destruct (IH store assigned Hf Hr Hl) as (store' & assigned' & -> & Hf' & Hloc & Hsub & Hseed).
      exists store', assigned'. repeat split; try done.
      * intros p Hp. apply Hloc. intros ?. apply Hp. by right.
      * intros [_ Hlt]%Forall_cons [_ Hk]%Forall_cons. by apply Hseed.
    + assert (framed records (<[o := set_master_person_id (master_person_id r) other]> store)) as Hf1.
      { unfold framed. by rewrite frame_insert. }
      destruct (IH _ ({[id other]} ∪ assigned) Hf1 Hr Hl)
        as (store' & assigned' & -> & Hf' & Hloc & Hsub & Hseed).
      exists store', assigned'. repeat split; try done.
      * intros p Hp. rewrite Hloc by (intros ?; apply Hp; by right).
        apply list_lookup_insert_ne. intros ->. apply Hp. by left.
      * intros x Hx. apply Hsub, elem_of_union. by right.
      * intros [Hlto Hlt]%Forall_cons [(ro' & Ero' & Hko) Hk]%Forall_cons Hids s Es Hks Hin
               (x & Ex & Hx) Hinv.
        assert (ro' = ro) as -> by congruence.
        assert (s0 = s) as -> by congruence.
        assert (x = r) as -> by congruence.
        assert (id other = id ro) as Hido by (by apply (f_equal id) in Hro).
        assert (o ≠ r_ref) as Hne by lia.
        apply (Hseed Hlt Hk Hids s Es Hks).
        -- apply elem_of_union. by right.
        -- exists r. by rewrite list_lookup_insert_ne.
        -- intros p rp Erp Hinp. simpl in *.
           destruct (decide (p = o)) as [->|Hpo].
           ++ exists r_ref, s, ro, (set_master_person_id (master_person_id r) other).
              repeat split; try done; try lia.
              ** by rewrite list_lookup_insert_eq by lia.
              ** congruence.
              ** right. exists score.
                 rewrite <- match_records_identity_fields, <- Hs0, <- Hro.
                 by rewrite match_records_identity_fields.
           ++ apply (seeded_lookup store); [by apply list_lookup_insert_ne|].
              apply (Hinv p rp Erp). simpl.
              apply elem_of_union in Hinp as [Heq%elem_of_singleton|]; [|done].
              exfalso. apply Hpo. apply (Hids p o rp ro Erp Ero). congruence.
Qed.

End Propagate.

Lemma process_block_cons r_ref later store (assigned : gset Z) r :
  store !! r_ref = Some r →
  process_block (r_ref :: later) (store, assigned) =
  if bool_decide (id r ∈ assigned) then process_block later (store, assigned)
  else
    st' ← fold_left (propagate_step r_ref) later
          (Some (<[r_ref := set_master_person_id
                              (Some (generate_master_id (components_of r))) r]> store,
                 {[id r]} ∪ assigned));
    process_block later st'.
Proof. intros H. simpl. by rewrite H. Qed.

Lemma process_block_spec k block store (assigned : gset Z) :
  framed records store → Forall (λ p, p < length records) block →
  ∃ store' assigned',
    process_block block (store, assigned) = Some (store', assigned')
    ∧ framed records store'
    ∧ (∀ p, p ∉ block → store' !! p = store !! p)
    ∧ assigned ⊆ assigned'
    ∧ (∀ p r, p ∈ block → records !! p = Some r → id r ∈ assigned')
    ∧ (good_block records (k, block) → distinct_ids records →
       assigned_seeded records (store, assigned) →
       assigned_seeded records (store', assigned')).
Proof.
  revert store assigned. induction block as [|r_ref later IH]; intros store assigned Hf Hl.
  - exists store, assigned. simpl. repeat split; try done. intros p r Hp. by apply elem_of_nil in Hp.
  - apply Forall_cons in Hl as [Hr Hl].
    pose proof (frame_length _ _ Hf) as Hlen.
    destruct (lookup_lt_is_Some_2 store r_ref ltac:(lia)) as [r Er].
    destruct (frame_lookup _ _ _ _ Hf Er) as (s & Es & Hs).
    assert (id r = id s) as Hid by (by apply (f_equal id) in Hs).
    rewrite (process_block_cons _ _ _ _ _ Er).
    case_bool_decide as Hin.
    + destruct (IH store assigned Hf Hl) as (store' & assigned' & -> & Hf' & Hloc & Hsub & Hall & Hseed).
      exists store', assigned'. repeat split; try done.
      * intros p Hp. apply Hloc. intros ?. apply Hp. by right.
      * intros p rp [->|Hp]%elem_of_cons Erp; [|by eapply Hall].
        assert (rp = s) as -> by congruence. apply Hsub. by rewrite <- Hid.
      * intros [Hs1 Hs2] Hids Hinv. apply Hseed; try done. simpl in *.
        apply StronglySorted_inv in Hs1 as [? _]. apply Forall_cons in Hs2 as [_ ?]. done.
    + set (r' := set_master_person_id (Some (generate_master_id (components_of r))) r).
      assert (framed records (<[r_ref := r']> store)) as Hf1.
      { unfold framed, r'. by rewrite frame_insert. }
      destruct (propagate_fold r_ref k later _ ({[id r]} ∪ assigned) Hf1 Hr Hl)
        as (store1 & assigned1 & -> & Hf2 & Hloc1 & Hsub1 & Hseed1).
      simpl.
      destruct (IH store1 assigned1 Hf2 Hl) as (store' & assigned' & -> & Hf' & Hloc & Hsub & Hall & Hseed).
      exists store', assigned'. repeat split; try done.
      * intros p Hp. rewrite Hloc by (intros ?; apply Hp; by right).
        rewrite Hloc1 by (intros ?; apply Hp; by right).
        apply list_lookup_insert_ne. intros ->. apply Hp. by left.
      * intros x Hx. apply Hsub, Hsub1, elem_of_union. by right.
      * intros p rp [->|Hp]%elem_of_cons Erp; [|by eapply Hall].
        assert (rp = s) as -> by congruence. apply Hsub, Hsub1, elem_of_union. left. by apply elem_of_singleton.
      * intros [Hs1 Hs2] Hids Hinv. simpl in *.
        apply StronglySorted_inv in Hs1 as [Hsl Hlt].
        apply Forall_cons in Hs2 as [(s' & Es' & Hks) Hkl].
        assert (s' = s) as -> by congruence.
        apply Hseed; try done.
        assert (components_of r = components_of s) as Hc.
        { by rewrite <- components_of_identity_fields, Hs, components_of_identity_fields. }
        apply (Hseed1 Hlt Hkl Hids s Es Hks).
        -- apply elem_of_union. left. by apply elem_of_singleton.
        -- exists r'. rewrite list_lookup_insert_eq by lia. split; [done|].
           unfold r'. simpl. by rewrite Hc.
        -- intros p rp Erp Hinp. simpl in *.
           destruct (decide (p = r_ref)) as [->|Hpr].
           ++ assert (rp = s) as -> by congruence.
              exists r_ref, s, s, r'. repeat split; try done.
              ** by rewrite list_lookup_insert_eq by lia.
              ** unfold r'. simpl. by rewrite Hc.
              ** by left.
           ++ apply (seeded_lookup store); [by apply list_lookup_insert_ne|].
              apply (Hinv p rp Erp). simpl.
              apply elem_of_union in Hinp as [Heq%elem_of_singleton|]; [|done].
              exfalso. apply Hpr. apply (Hids p r_ref rp s Erp Es). congruence.
Qed.

End Block.

(** *** All blocks *)

Lemma process_blocks_spec records blocks store :
  framed records store →
  Forall (λ kb, good_block records kb ∧ Forall (λ p, p < length records) kb.2) blocks →
  ∃ store',
    fold_left (λ st kb, store ← st; fst <$> process_block kb.2 (store, ∅))
              blocks (Some store) = Some store'
    ∧ framed records store'
    ∧ (∀ p, (∀ kb, kb ∈ blocks → p ∉ kb.2) → store' !! p = store !! p)
    ∧ (distinct_ids records → NoDup blocks.*1 →
       ∀ kb p, kb ∈ blocks → p ∈ kb.2 → seeded records store' p).
Proof.
  revert store. induction blocks as [|[k b] blocks IH]; intros store Hf Hb.
  - exists store. simpl. repeat split; try done. intros _ _ kb p Hkb. by apply elem_of_nil in Hkb.
  - apply Forall_cons in Hb as [Hkb Hb]. simpl in Hkb. destruct Hkb as [Hgood Hrange].
    destruct (process_block_spec records k b store ∅ Hf Hrange)
      as (store1 & assigned1 & E1 & Hf1 & Hloc1 & _ & Hall1 & Hseed1).
    destruct (IH store1 Hf1 Hb) as (store' & E' & Hf' & Hloc' & Hseed').
    exists store'. cbn [fold_left]. simpl. rewrite E1. simpl. repeat split; try done.
    + intros p Hp. rewrite Hloc'.
      * apply Hloc1. apply (Hp (k, b)). by left.
      * intros kb Hkb. apply Hp. by right.
    + intros Hids Hnd kb p Hkb Hp. simpl in Hnd. apply NoDup_cons in Hnd as [Hk Hnd].
      apply elem_of_cons in Hkb as [->|Hkb]; [|by eapply Hseed'].
      simpl in Hp.
      pose proof Hgood as [_ Hkey]. simpl in Hkey.
      pose proof (proj1 (Forall_forall _ _) Hkey p Hp) as (r & Er & Hkr).
      apply (seeded_lookup records store1).
      * apply Hloc'. intros [k' b'] Hkb' Hp'. simpl in Hp'.
        pose proof (proj1 (Forall_forall _ _) Hb _ Hkb') as [[_ Hkey'] _]. simpl in Hkey'.
        pose proof (proj1 (Forall_forall _ _) Hkey' p Hp') as (r' & Er' & Hkr').
        assert (k' = k) as -> by congruence.
        apply Hk. apply list_elem_of_fmap. by exists (k, b').
      * apply (Hseed1 Hgood Hids) with (r := r); [|done|by eapply Hall1].
        intros p' r' _ Hin. by apply not_elem_of_empty in Hin.
Qed.

(** *** Building the blocks *)

Lemma sorted_snoc (b : list nat) m :
  StronglySorted lt b → Forall (λ p, p < m) b → StronglySorted lt (b ++ [m])%list.
Proof.
  induction 1 as [|x b Hs IH Hx]; intros Hlt; simpl.
  - repeat constructor.
  - apply Forall_cons in Hlt as [Hxm Hlt]. constructor; [by apply IH|].
    apply Forall_app. split; [done | by constructor].
Qed.

Lemma blocks_append_fst key m blocks :
  (blocks_append key m blocks).*1
  = if decide (key ∈ blocks.*1) then blocks.*1 else (blocks.*1 ++ [key])%list.
Proof.
  induction blocks as [|[k b] blocks IH].
  - cbn. destruct (decide (key ∈ [])) as [H|H]; [by apply elem_of_nil in H | reflexivity].
  - cbn [blocks_append]. case_bool_decide as Hk.
    + subst k. cbn [fmap list_fmap fst].
      destruct (decide (key ∈ key :: blocks.*1)) as [H|H]; [reflexivity|].
      exfalso. apply H. by left.
    + cbn [fmap list_fmap fst]. rewrite IH.
      destruct (decide (key ∈ blocks.*1)) as [Hin|Hnin];
        destruct (decide (key ∈ k :: blocks.*1)) as [Hin'|Hnin']; try done.
      * exfalso. apply Hnin'. by right.
      * exfalso. apply elem_of_cons in Hin' as [?|?]; congruence.
Qed.

Lemma blocks_append_Forall (P Q : string * list nat → Prop) key m blocks :
  Forall P blocks →
  (∀ kb, P kb → Q kb) → (∀ b, P (key, b) → Q (key, (b ++ [m])%list)) → Q (key, [m]) →
  Forall Q (blocks_append key m blocks).
Proof.
  intros HP Hmono Happ Hnew. induction HP as [|[k b] blocks Hkb HP IH]; simpl.
  - by constructor.
  - case_bool_decide as Hk.
    + subst k. constructor; [by apply Happ|]. eapply Forall_impl; [exact HP | apply Hmono].
    + constructor; [by apply Hmono | done].
Qed.

Lemma blocks_append_covers key m blocks p :
  p = m ∨ (∃ kb, kb ∈ blocks ∧ p ∈ kb.2) →
  ∃ kb, kb ∈ blocks_append key m blocks ∧ p ∈ kb.2.
Proof.
  induction blocks as [|[k b] blocks IH]; simpl.
  - intros [->|(kb & Hkb & _)]; [|by apply elem_of_nil in Hkb].
    exists (key, [m]). split; [by left | by left].
  - intros H. case_bool_decide as Hk.
    + destruct H as [->|(kb & Hkb & Hp)].
      * exists (k, (b ++ [m])%list). split; [by left|]. simpl. apply elem_of_app. right. by left.
      * apply elem_of_cons in Hkb as [->|Hkb].
        -- exists (k, (b ++ [m])%list). split; [by left|]. simpl. apply elem_of_app. by left.
        -- exists kb. split; [by right | done].
    + destruct H as [->|(kb & Hkb & Hp)].
      * destruct IH as (kb & Hkb & Hp); [by left|]. exists kb. split; [by right | done].
      * apply elem_of_cons in Hkb as [->|Hkb].
        -- exists (k, b). split; [by left | done].
        -- destruct IH as (kb' & Hkb' & Hp'); [right; eauto|]. exists kb'. split; [by right | done].
Qed.

Lemma blocks_inv_append records m blocks r :
  records !! m = Some r → blocks_inv records m blocks →
  blocks_inv records (S m) (blocks_append (blocking_key_of r) m blocks).
Proof.
  intros Er (Hnd & Hall & Hcov). repeat split.
  - rewrite blocks_append_fst. case_decide; [done|].
    apply NoDup_app. repeat split; [done | | apply NoDup_singleton].
    intros x Hx ->%list_elem_of_singleton. done.
  - eapply blocks_append_Forall; [exact Hall | | |].
    + intros kb [Hg Hr]. split; [done|]. eapply Forall_impl; [done|]. simpl. lia.
    + intros b [[Hs Hk] Hr]. simpl in *. repeat split; simpl.
      * by apply sorted_snoc.
      * apply Forall_app. split; [done|]. constructor; [eauto | constructor].
      * apply Forall_app. split; [|by repeat constructor].
        eapply Forall_impl; [done|]. simpl. lia.
    + repeat split; simpl.
      * repeat constructor.
      * constructor; [eauto | constructor].
      * by repeat constructor.
  - intros p Hp. apply blocks_append_covers.
    destruct (decide (p = m)) as [->|Hne]; [by left|]. right. apply Hcov. lia.
Qed.

Lemma build_blocks_fold records rs a blocks :
  (∀ j r, rs !! j = Some r → records !! (a + j) = Some r) →
  blocks_inv records a blocks →
  blocks_inv records (a + length rs)
    (fold_left (λ blocks ir, blocks_append (blocking_key_of ir.2) ir.1 blocks)
               (combine (seq a (length rs)) rs) blocks).
Proof.
  revert a blocks. induction rs as [|r rs IH]; intros a blocks Hrs Hinv; simpl.
  - by rewrite Nat.add_0_r.
  - replace (a + S (length rs)) with (S a + length rs) by lia.
    apply IH.
    + intros j r' Hj. replace (S a + j) with (a + S j) by lia. by apply Hrs.
    + apply blocks_inv_append; [|done].
      specialize (Hrs 0 r eq_refl). by rewrite Nat.add_0_r in Hrs.
Qed.

Lemma build_blocks_inv records : blocks_inv records (length records) (build_blocks records).
Proof.
  unfold build_blocks.
  apply (build_blocks_fold records records 0 []); [done|].
  repeat split; [constructor | constructor | intros; lia].
Qed.

(** *** [assign_master_ids] *)

Lemma assign_master_ids_spec records :
  ∃ out,
    assign_master_ids records = Some out
    ∧ framed records out
    ∧ (distinct_ids records → ∀ p, p < length records → seeded records out p).
Proof.
  destruct (build_blocks_inv records) as (Hnd & Hall & Hcov).
  destruct (process_blocks_spec records (build_blocks records) records eq_refl Hall)
    as (out & E & Hf & _ & Hseed).
  exists out. repeat split; try done.
  intros Hids p Hp. destruct (Hcov p Hp) as (kb & Hkb & Hpkb). by eapply Hseed.
Qed.

Lemma distinct_ids_of_NoDup records : NoDup (id <$> records) → distinct_ids records.
Proof.
  intros Hnd p q r r' Ep Eq Hid.
  apply (NoDup_lookup _ p q (id r) Hnd); rewrite list_lookup_fmap; [by rewrite Ep|].
  rewrite Eq. simpl. by rewrite Hid.
Qed.

Lemma generate_master_id_key c c' :
  key_string c = key_string c' → generate_master_id c = generate_master_id c'.
Proof. unfold generate_master_id. by intros ->. Qed.

(** When matching records of a block share the canonical key, every record
    ends up with the id minted from its own canonical key. *)
Lemma assign_master_ids_own_key records out :
  NoDup (id <$> records) → matching_records_share_key records →
  assign_master_ids records = Some out →
  ∀ o, o ∈ out →
       ∃ r, r ∈ records ∧ identity_fields o = identity_fields r
            ∧ master_person_id o = Some (generate_master_id (components_of r)).
Proof.
  intros Hnd Hshare E o Ho.
  destruct (assign_master_ids_spec records) as (out' & E' & Hf & Hseed).
  assert (out' = out) as -> by congruence.
  apply list_elem_of_lookup in Ho as [p Ep].
  destruct (frame_lookup _ _ _ _ Hf Ep) as (r & Er & Hr).
  exists r. split; [by eapply list_elem_of_lookup_2|]. split; [done|].
  destruct (Hseed (distinct_ids_of_NoDup _ Hnd) p (lookup_lt_Some _ _ _ Er))
    as (q & s & r' & o' & Hq & Es & Er' & Eo' & Hk & Hm & Hcase).
  assert (r' = r) as -> by congruence. assert (o' = o) as -> by congruence.
  rewrite Hm. f_equal. apply generate_master_id_key.
  destruct Hcase as [->|Hmatch]; [congruence|].
  apply Hshare; try done; by eapply list_elem_of_lookup_2.
Qed.

(** C9: [assign_master_ids] returns, and returns the records it was given:
    as many, in the same order, each with every field other than
    [master_person_id] unchanged. *)
Theorem assign_master_ids_frame (records : list DonorRecord) :
  ∃ out,
    assign_master_ids records = Some out
    ∧ length out = length records
    ∧ ∀ i r, records !! i = Some r →
             ∃ o, out !! i = Some o ∧ same_identity_fields r o.
Proof.
  destruct (assign_master_ids_spec records) as (out & E & Hf & _).
  exists out. split; [done|]. split; [by apply frame_length|].
  intros i r Er.
  destruct (lookup_lt_is_Some_2 out i) as [o Eo].
  { rewrite (frame_length _ _ Hf). by eapply lookup_lt_Some. }
  exists o. split; [done|]. apply same_identity_fields_of_eq.
  destruct (frame_lookup _ _ _ _ Hf Eo) as (r' & Er' & Hr'). congruence.
Qed.

(** C1, as stated, fails: two matching records with different street
    numbers both receive the id minted from whichever of them comes first. *)
Lemma assign_master_ids_order_dependent :
  [john_456; john_123] ≡ₚ [john_123; john_456]
  ∧ fmap (M := list) master_person_id <$> assign_master_ids [john_123; john_456]
    = Some [Some "MP_F9BBFB09BB2D"; Some "MP_F9BBFB09BB2D"]
  ∧ fmap (M := list) master_person_id <$> assign_master_ids [john_456; john_123]
    = Some [Some "MP_FF7E175D6838"; Some "MP_FF7E175D6838"]
  ∧ "MP_F9BBFB09BB2D" ≠ "MP_FF7E175D6838".
Proof.
  split; [apply Permutation_swap|]. repeat split; try (vm_compute; reflexivity). discriminate.
Qed.

(** C1, amended: for records with pairwise distinct ids in which any two
    records of a block that match carry the same canonical key, reordering
    the input leaves the [master_person_id] of every record unchanged. *)
Theorem assign_master_ids_order_independent (records records' : list DonorRecord) :
  NoDup (id <$> records) → matching_records_share_key records → records ≡ₚ records' →
  ∃ out out',
    assign_master_ids records = Some out
    ∧ assign_master_ids records' = Some out'
    ∧ ∀ o o', o ∈ out → o' ∈ out' → id o = id o' →
              master_person_id o = master_person_id o'.
Proof.
  intros Hnd Hshare Hperm.
  assert (NoDup (id <$> records')) as Hnd' by (by rewrite <- Hperm).
  assert (matching_records_share_key records') as Hshare'.
  { intros s r Hs Hr. apply Hshare; by rewrite Hperm. }
  destruct (assign_master_ids_spec records) as (out & E & _).
  destruct (assign_master_ids_spec records') as (out' & E' & _).
  exists out, out'. split; [done|]. split; [done|].
  intros o o' Ho Ho' Hid.
  destruct (assign_master_ids_own_key records out Hnd Hshare E o Ho) as (r & Hr & Hfr & ->).
  destruct (assign_master_ids_own_key records' out' Hnd' Hshare' E' o' Ho') as (r' & Hr' & Hfr' & ->).
  rewrite <- Hperm in Hr'.
  assert (id r = id r') as Hrr.
  { apply (f_equal id) in Hfr, Hfr'. simpl in Hfr, Hfr'. congruence. }
  apply list_elem_of_lookup in Hr as [p Ep], Hr' as [q Eq].
  assert (p = q) as -> by (by eapply (distinct_ids_of_NoDup _ Hnd)).
  congruence.
Qed.

Lemma assign_master_ids_order_independent_witness :
  ∃ out out',
    assign_master_ids [john_123; john_123_street; jane_456] = Some out
    ∧ assign_master_ids [john_123_street; john_123; jane_456] = Some out'
    ∧ ∀ o o', o ∈ out → o' ∈ out' → id o = id o' →
              master_person_id o = master_person_id o'.
Proof.
  apply (assign_master_ids_order_independent
           [john_123; john_123_street; jane_456] [john_123_street; john_123; jane_456]).
  - simpl. repeat (apply NoDup_cons_2;
                   [intros H; rewrite ?elem_of_cons, elem_of_nil in H; lia|]).
    apply NoDup_nil_2.
  - intros s r Hs Hr Hk Hm. rewrite !elem_of_cons, elem_of_nil in Hs, Hr.
    destruct Hs as [->|[->|[->|[]]]], Hr as [->|[->|[->|[]]]];
      try (vm_compute; reflexivity);
      destruct Hm as [score Hm]; vm_compute in Hm; discriminate.
  - apply Permutation_swap.
Defined.

(** *** HouseholdLinker *)

(** C4, as stated, fails: the two streets below are equal under
    [normalize_address], which drops the period, but the household key keeps
    it, so the two rows get different household ids. *)
Lemma household_street_is_not_normalize_address :
  normalize_address "123 Main St." = normalize_address "123 Main St"
  ∧ household_street "123 Main St." ≠ normalize_address "123 Main St."
  ∧ HouseholdLinker.household_id (HouseholdLinker.mkRow "123 Main St." "Raleigh" "27601")
    ≠ HouseholdLinker.household_id (HouseholdLinker.mkRow "123 Main St" "Raleigh" "27601").
Proof.
  split; [vm_compute; reflexivity|]. split; vm_compute; discriminate.
Qed.

Lemma create_address_key_street street city zip :
  street_present street →
  HouseholdLinker.create_address_key (HouseholdLinker.mkRow street city zip)
  = if falsy (strip (str_take 5 zip)) || bool_decide (strip (str_take 5 zip) = "NAN")
    then None
    else Some (household_street street ++ "|" ++ strip (upper city) ++ "|"
               ++ strip (str_take 5 zip)).
Proof.
  intros [Hne Hnan]. unfold HouseholdLinker.create_address_key, household_street.
  cbn [HouseholdLinker.street_line_1 HouseholdLinker.city HouseholdLinker.zip_code].
  assert (falsy (strip (upper street)) = false) as -> by (by apply falsy_false).
  rewrite (bool_decide_eq_false_2 _ Hnan). cbn [orb].
  rewrite orb_false_r. by destruct (_ || _).
Qed.

(** C4, amended: the household key applies [HouseholdLinker]'s own street
    normalization (upper-case, trim, the eight suffix replacements,
    whitespace collapse); two rows whose streets are present and equal under
    it, with the same city and ZIP, receive the same [household_id]. *)
Theorem household_id_same_street (street1 street2 city zip : string) :
  street_present street1 → street_present street2 →
  household_street street1 = household_street street2 →
  HouseholdLinker.household_id (HouseholdLinker.mkRow street1 city zip)
  = HouseholdLinker.household_id (HouseholdLinker.mkRow street2 city zip).
Proof.
  intros H1 H2 Heq. unfold HouseholdLinker.household_id.
  by rewrite !create_address_key_street, Heq.
Qed.

Lemma household_id_same_street_witness :
  HouseholdLinker.household_id (HouseholdLinker.mkRow "123 Main Street" "Raleigh" "27601")
  = HouseholdLinker.household_id (HouseholdLinker.mkRow "123 MAIN ST" "Raleigh" "27601").
Proof.
  apply (household_id_same_street "123 Main Street" "123 MAIN ST" "Raleigh" "27601").
  - split; vm_compute; discriminate.
  - split; vm_compute; discriminate.
  - vm_compute. reflexivity.
Defined.

(** *** AliasOverrideResolver *)

Section AliasOverrideFacts.
Import AliasOverride.

Lemma rowcount_zero aliases table :
  (∀ d a, d ∈ table → a ∈ aliases → joins d a = false) → rowcount aliases table = 0.
Proof.
  intros H. unfold rowcount. induction table as [|d table IH]; [done|].
  rewrite filter_cons_False.
  - apply IH. intros d' a Hd. apply H. by right.
  - intros Hex. apply existsb_exists in Hex as (a & Ha & Hj).
    apply list_elem_of_In in Ha. rewrite H in Hj; [done | by left | done].
Qed.

Lemma updates_row_kept aliases d d' :
  (∀ a, a ∈ aliases → joins d a = false) → updates_row aliases d d' → d' = d.
Proof. intros H [|a Ha Hj]; [done|]. rewrite H in Hj; done. Qed.

(** After one pass no alias joins the row any more, when the aliases are consistent. *)
Lemma updates_row_settled aliases d d' :
  consistent_aliases aliases → updates_row aliases d d' →
  ∀ a, a ∈ aliases → joins d' a = false.
Proof.
  intros Hc [Hkept|a0 Ha0 Hj0] a Ha; [by apply Hkept|].
  unfold joins in *. cbn [set_from donor_name master_person_id].
  destruct (upper_trim (donor_name d)) as [x|]; [|done].
  destruct (upper_trim (alias_name a0)) as [y0|] eqn:E0; [|done].
  destruct (upper_trim (alias_name a)) as [y|] eqn:E; [|done].
  apply andb_true_iff in Hj0 as [Hn0 _]. apply bool_decide_eq_true in Hn0. subst y0.
  case_bool_decide as Hxy; [|done]. subst y. simpl.
  rewrite (Hc a0 a x Ha0 Ha E0 E). by rewrite bool_decide_eq_true_2.
Qed.

(** The run that takes the first join row is a run of the statement. *)
Lemma run_first_is_a_run aliases table :
  apply_alias_overrides aliases table (run_first aliases table).1 (run_first aliases table).2.
Proof.
  split; [|done]. simpl. induction table as [|d table IH]; simpl; constructor; [|done].
  unfold write_first. destruct (find (joins d) aliases) as [a|] eqn:E.
  - apply find_some in E as [Ha Hj]. apply row_written; [by apply list_elem_of_In | done].
  - apply row_kept. intros a Ha. apply list_elem_of_In in Ha.
    by apply (find_none _ _ E).
Qed.

Lemma second_pass_fixed aliases table1 table2 :
  (∀ d a, d ∈ table1 → a ∈ aliases → joins d a = false) →
  Forall2 (updates_row aliases) table1 table2 → table2 = table1.
Proof.
  intros Hs H. induction H as [|d d' l k Hrow Hl IH]; [done|]. f_equal.
  - apply (updates_row_kept aliases d d'); [|done].
    intros a Ha. apply Hs; [by left | done].
  - apply IH. intros d0 a Hd Ha. apply Hs; [by right | done].
Qed.

End AliasOverrideFacts.

(** C6, as stated, fails when two aliases with the same normalized name
    carry different ids: whichever the first pass writes, the other one
    still joins the row, and the second pass writes again. *)
Lemma alias_overrides_not_idempotent :
  ∃ table1 n1 table2 n2,
    AliasOverride.apply_alias_overrides conflicting_aliases donations table1 n1
    ∧ AliasOverride.apply_alias_overrides conflicting_aliases table1 table2 n2
    ∧ table2 ≠ table1 ∧ n2 = 1.
Proof.
  exists (AliasOverride.run_first conflicting_aliases donations).1, 1.
  exists (AliasOverride.run_first conflicting_aliases
            (AliasOverride.run_first conflicting_aliases donations).1).1, 1.
  split; [apply (run_first_is_a_run conflicting_aliases donations)|].
  split; [apply (run_first_is_a_run conflicting_aliases)|].
  split; [vm_compute; discriminate | done].
Qed.

(** C6, amended: when no two aliases with the same normalized alias name
    carry different target ids, a second pass leaves the table as the first
    pass left it and performs zero writes; and a pass changes a record only
    from an alias whose normalized name equals the record's and whose target
    id differs from the record's current id. *)
Theorem alias_overrides_idempotent
    (aliases : list AliasOverride.alias) (table table1 table2 : list AliasOverride.donation)
    (n1 n2 : nat) :
  consistent_aliases aliases →
  AliasOverride.apply_alias_overrides aliases table table1 n1 →
  AliasOverride.apply_alias_overrides aliases table1 table2 n2 →
  table2 = table1 ∧ n2 = 0
  ∧ ∀ i d d', table !! i = Some d → table1 !! i = Some d' → d' ≠ d →
      ∃ a, a ∈ aliases
           ∧ AliasOverride.upper_trim (AliasOverride.donor_name d)
             = AliasOverride.upper_trim (AliasOverride.alias_name a)
           ∧ AliasOverride.upper_trim (AliasOverride.donor_name d) ≠ None
           ∧ AliasOverride.master_person_id d ≠ AliasOverride.alias_master_person_id a
           ∧ d' = AliasOverride.set_from a d.
Proof.
  intros Hc [H1 ->] [H2 ->].
  assert (∀ d a, d ∈ table1 → a ∈ aliases → AliasOverride.joins d a = false) as Hsettled.
  { intros d' a Hd' Ha. apply list_elem_of_lookup in Hd' as [i Hi].
    destruct (Forall2_lookup_r _ _ _ _ _ H1 Hi) as (d & _ & Hrow).
    by apply (updates_row_settled aliases d d'). }
  split; [|split].
  - by apply (second_pass_fixed aliases).
  - by apply rowcount_zero.
  - intros i d d' Hd Hd' Hne.
    pose proof (Forall2_lookup_lr _ _ _ _ _ _ H1 Hd Hd') as Hrow.
    destruct Hrow as [Hk|a Ha Hj]; [done|].
    exists a. unfold AliasOverride.joins in Hj.
    destruct (AliasOverride.upper_trim (AliasOverride.donor_name d)) as [x|]; [|done].
    destruct (AliasOverride.upper_trim (AliasOverride.alias_name a)) as [y|]; [|done].
    apply andb_true_iff in Hj as [Hn Hid]. apply bool_decide_eq_true in Hn.
    apply negb_true_iff, bool_decide_eq_false in Hid. subst y. done.
Qed.

Lemma alias_overrides_idempotent_witness :
  AliasOverride.apply_alias_overrides curated_aliases donations
    (AliasOverride.run_first curated_aliases donations).1 1
  ∧ (AliasOverride.run_first curated_aliases
       (AliasOverride.run_first curated_aliases donations).1).1
    = (AliasOverride.run_first curated_aliases donations).1
  ∧ (AliasOverride.run_first curated_aliases
       (AliasOverride.run_first curated_aliases donations).1).2 = 0.
Proof.
  split; [apply (run_first_is_a_run curated_aliases donations)|].
  assert (consistent_aliases curated_aliases) as Hc.
  { intros a b n Ha Hb. unfold curated_aliases in Ha, Hb.
    rewrite !elem_of_cons, elem_of_nil in Ha, Hb.
    destruct Ha as [->|[->|[->|[]]]], Hb as [->|[->|[->|[]]]];
      vm_compute; congruence. }
  destruct (alias_overrides_idempotent curated_aliases donations
              (AliasOverride.run_first curated_aliases donations).1
              (AliasOverride.run_first curated_aliases
                 (AliasOverride.run_first curated_aliases donations).1).1
              _ _ Hc
              (run_first_is_a_run curated_aliases donations)
              (run_first_is_a_run curated_aliases _)) as (H1 & H2 & _).
  split; [exact H1 | exact H2].
Defined.

(** *** Float comparisons *)

Lemma SFleb_trans x y z :
  SFleb x y = true → SFleb y z = true → SFleb x z = true.
Proof.
  unfold SFleb, SFcompare.
  destruct x as [[]|[]| |[] mx ex], y as [[]|[]| |[] my ey], z as [[]|[]| |[] mz ez];
    try done;
    repeat match goal with
    | |- context [Z.compare ?a ?b] => destruct (Z.compare_spec a b); try done; try lia
    end; subst; try lia;
    change (Pos.compare_cont Eq) with Pos.compare;
    repeat match goal with
    | |- context [Pos.compare ?a ?b] => destruct (Pos.compare_spec a b); try done; try lia
    end; subst; simpl; try done; try lia.
Qed.

Lemma float_leb_trans (x y z : float) :
  PrimFloat.leb x y = true → PrimFloat.leb y z = true → PrimFloat.leb x z = true.
Proof. rewrite !FloatAxioms.leb_spec. apply SFleb_trans. Qed.

Lemma scores_ordered_true : scores_ordered = true.
Proof. vm_compute. reflexivity. Qed.

Lemma all_ratios_elem r : (0 ≤ r ≤ 100)%Z → In r all_ratios.
Proof.
  intros H. unfold all_ratios. apply list_elem_of_In, list_elem_of_fmap.
  exists (Z.to_nat r). split; [lia|]. apply elem_of_seq. lia.
Qed.

Lemma score_of_ltb r1 r2 :
  (0 ≤ r1 ≤ 100)%Z → (0 ≤ r2 ≤ 100)%Z →
  PrimFloat.ltb (score_of r1) (score_of r2) = (r1 <? r2)%Z.
Proof.
  intros H1 H2. pose proof scores_ordered_true as H. unfold scores_ordered in H.
  rewrite forallb_forall in H. specialize (H r1 (all_ratios_elem r1 H1)).
  rewrite forallb_forall in H. specialize (H r2 (all_ratios_elem r2 H2)).
  apply andb_true_iff in H as [H _]. by apply Bool.eqb_prop in H.
Qed.

Lemma score_of_leb r1 r2 :
  (0 ≤ r1 ≤ 100)%Z → (0 ≤ r2 ≤ 100)%Z →
  PrimFloat.leb (score_of r1) (score_of r2) = (r1 <=? r2)%Z.
Proof.
  intros H1 H2. pose proof scores_ordered_true as H. unfold scores_ordered in H.
  rewrite forallb_forall in H. specialize (H r1 (all_ratios_elem r1 H1)).
  rewrite forallb_forall in H. specialize (H r2 (all_ratios_elem r2 H2)).
  apply andb_true_iff in H as [_ H]. by apply Bool.eqb_prop in H.
Qed.

(** A score at the threshold puts every higher score at the threshold. *)
Lemma threshold_upward threshold r1 r2 :
  (0 ≤ r1 ≤ 100)%Z → (0 ≤ r2 ≤ 100)%Z → (r1 ≤ r2)%Z →
  PrimFloat.leb threshold (score_of r1) = true →
  PrimFloat.leb threshold (score_of r2) = true.
Proof.
  intros H1 H2 Hle Ht. apply (float_leb_trans _ _ _ Ht).
  rewrite score_of_leb by done. by apply Z.leb_le.
Qed.

(** *** CommitteeCandidateLinker *)

Section LinkerFacts.
Import CommitteeLinker.
Variable token_sort_ratio : string → string → Z.
Hypothesis ratio_range : ∀ a b, (0 ≤ token_sort_ratio a b ≤ 100)%Z.

Lemma ratio_of_range cn c : (0 ≤ ratio_of token_sort_ratio cn c ≤ 100)%Z.
Proof. unfold ratio_of. destruct (_ || _); [lia | apply ratio_range]. Qed.

Lemma fuzzy_match_score cn c :
  fuzzy_match_committee_to_candidate token_sort_ratio cn c
  = score_of (ratio_of token_sort_ratio cn c).
Proof.
  unfold fuzzy_match_committee_to_candidate, ratio_of.
  destruct (_ || _); [vm_compute; reflexivity | done].
Qed.

Section Scan.
Variables (threshold : float) (comm_name : string).

Local Abbreviation rat := (candidate_ratio token_sort_ratio comm_name).

Lemma rat_range c : (0 ≤ rat c ≤ 100)%Z.
Proof. apply ratio_of_range. Qed.

Lemma best_step_cases st c :
  best_step token_sort_ratio threshold comm_name st c
  = if PrimFloat.ltb st.2 (score_of (rat c)) && PrimFloat.leb threshold (score_of (rat c))
    then (Some c, score_of (rat c)) else st.
Proof. unfold best_step. by rewrite fuzzy_match_score. Qed.

Lemma best_step_inv seen st c :
  best_inv rat threshold seen st →
  best_inv rat threshold (seen ++ [c])%list (best_step token_sort_ratio threshold comm_name st c).
Proof.
  intros Hinv. rewrite best_step_cases. destruct st as [[best|] bs]; unfold best_inv in *; simpl in *.
  - destruct Hinv as (-> & Hthr & Hpos & pre & post & -> & Hpre & Hpost).
    pose proof (rat_range c) as Hc. pose proof (rat_range best) as Hb.
    rewrite score_of_ltb by done.
    destruct ((rat best <? rat c)%Z && PrimFloat.leb threshold (score_of (rat c))) eqn:E; simpl.
    + apply andb_true_iff in E as [Hlt%Z.ltb_lt Ht].
      repeat split; [done | lia|].
      exists (pre ++ best :: post)%list, []. repeat split; [|by intros ? ?%elem_of_nil].
      intros c' [Hc'|[->|Hc']%elem_of_cons]%elem_of_app.
      * specialize (Hpre c' Hc'). lia.
      * lia.
      * specialize (Hpost c' Hc'). lia.
    + repeat split; try done.
      exists pre, (post ++ [c])%list. split; [by rewrite <- app_assoc|]. split; [done|].
      intros c' [Hc'|Hc']%elem_of_app; [by apply Hpost|].
      apply list_elem_of_singleton in Hc' as ->.
      apply andb_false_iff in E as [Hge%Z.ltb_ge|Ht]; [done|].
      destruct (decide (rat c ≤ rat best)%Z) as [|Hgt]; [done|].
      rewrite (threshold_upward threshold (rat best) (rat c)) in Ht; [done|done|done|lia|done].
  - destruct Hinv as (-> & Hnone).
    pose proof (rat_range c) as Hc.
    change 0%float with (score_of 0). rewrite score_of_ltb by (done || lia).
    destruct ((0 <? rat c)%Z && PrimFloat.leb threshold (score_of (rat c))) eqn:E; simpl.
    + apply andb_true_iff in E as [Hlt%Z.ltb_lt Ht].
      repeat split; [done | done|].
      exists seen, []. repeat split; [|by intros ? ?%elem_of_nil].
      intros c' Hc'. specialize (Hnone c' Hc'). pose proof (rat_range c') as Hr.
      apply andb_false_iff in Hnone as [Hz%Z.ltb_ge|Hf]; [lia|].
      destruct (decide (rat c' < rat c)%Z) as [|Hge]; [done|].
      rewrite (threshold_upward threshold (rat c) (rat c')) in Hf; [done|done|done|lia|done].
    + split; [done|].
      intros c' [Hc'|Hc']%elem_of_app; [by apply Hnone|].
      by apply list_elem_of_singleton in Hc' as ->.
Qed.

Lemma best_fold_inv l seen st :
  best_inv rat threshold seen st →
  best_inv rat threshold (seen ++ l)%list
           (fold_left (best_step token_sort_ratio threshold comm_name) l st).
Proof.
  revert seen st. induction l as [|c l IH]; intros seen st Hinv; simpl.
  - by rewrite app_nil_r.
  - replace (seen ++ c :: l)%list with ((seen ++ [c]) ++ l)%list by (by rewrite <- app_assoc).
    apply IH. by apply best_step_inv.
Qed.

Lemma best_scan l :
  best_inv rat threshold l
           (fold_left (best_step token_sort_ratio threshold comm_name) l (None, 0%float)).
Proof.
  apply (best_fold_inv l [] (None, 0%float)). split; [done|]. by intros ? ?%elem_of_nil.
Qed.

End Scan.

Lemma link_fold_None threshold candidates committees :
  fold_left (λ matches comm,
               match matches with
               | None => None
               | Some matches =>
                   match link_committee token_sort_ratio threshold candidates comm with
                   | None => None
                   | Some (Some row) => Some (matches ++ [row])%list
                   | Some None => Some matches
                   end
               end) committees None
  = None.
Proof. induction committees as [|comm committees IH]; [done | exact IH]. Qed.

(** The loop over the committees collects, in their order, the rows of the
    iterations, and raises when one of them does. *)
Lemma link_fold_mapM threshold candidates committees acc :
  fold_left (λ matches comm,
               match matches with
               | None => None
               | Some matches =>
                   match link_committee token_sort_ratio threshold candidates comm with
                   | None => None
                   | Some (Some row) => Some (matches ++ [row])%list
                   | Some None => Some matches
                   end
               end) committees (Some acc)
  = (λ outs, (acc ++ omap (λ out : option match_row, out) outs)%list)
      <$> mapM (link_committee token_sort_ratio threshold candidates) committees.
Proof.
  revert acc. induction committees as [|comm committees IH]; intros acc.
  - simpl. by rewrite app_nil_r.
  - cbn [fold_left mapM].
    destruct (link_committee token_sort_ratio threshold candidates comm) as [[row|]|]; simpl.
    + rewrite IH. destruct (mapM _ committees); simpl; [by rewrite <- app_assoc | done].
    + rewrite IH. by destruct (mapM _ committees).
    + apply link_fold_None.
Qed.





(** The outcomes of one iteration, by the guard and the candidate table. *)
Lemma link_committee_cases threshold candidates comm :
  let comm_county := strip (lower (county_name comm)) in
  let comm_name := committee_name comm in
  let st := fold_left (best_step token_sort_ratio threshold comm_name)
                      (List.filter (in_county comm_county) candidates) (None, 0%float) in
  link_committee token_sort_ratio threshold candidates comm
  = if falsy comm_county || falsy comm_name then Some None
    else if bool_decide (candidates = []) then None
    else Some ((λ best_match,
                  {| m_committee_id := committee_id comm;
                     m_committee_name := comm_name;
                     m_candidate_id := candidate_id best_match;
                     m_candidate_name := name_on_ballot best_match;
                     m_party := party best_match;
                     m_contest_name := contest_name best_match;
                     m_county_name := comm_county;
                     m_confidence := st.2;
                     m_match_type := "county+fuzzy_name" |}) <$> st.1).
Proof.
  intros comm_county comm_name st. unfold link_committee. fold comm_county comm_name.
  destruct (_ || _); [done|]. destruct candidates as [|c candidates]; [done|].
  rewrite bool_decide_eq_false_2 by done. cbn [filter_county]. fold st.
  by destruct (st.1).
Qed.


End LinkerFacts.

Lemma exact_ratio_range a b : (0 ≤ exact_ratio a b ≤ 100)%Z.
Proof. unfold exact_ratio. case_bool_decide; lia. Qed.


(** * Further properties *)

(** ** SimilarityScorer and MatchDecisionEngine *)

Lemma count_true_zero m : (∀ i, flag_at m i = false) → count_true m = 0.
Proof.
  induction m as [|b m IH]; intros H; [done|]. simpl.
  pose proof (H 0) as H0. unfold flag_at in H0. simpl in H0. subst b.
  rewrite IH; [done|]. intros i. apply (H (S i)).
Qed.

Lemma char_at_elem (s : list ascii) i : i < length s → char_at s i ∈ s.
Proof.
  intros H. unfold char_at. rewrite nth_lookup.
  destruct (lookup_lt_is_Some_2 s i H) as [c Hc]. rewrite Hc. simpl.
  by eapply list_elem_of_lookup_2.
Qed.

(** Without a common character the matching pass matches nothing. *)
Lemma match_pass_disjoint s1 s2 d :
  (∀ c, c ∈ s1 → c ∉ s2) → (match_pass s1 s2 d).2 = 0.
Proof.
  intros Hdis. destruct (match_pass_inv s1 s2 d) as [P HP].
  rewrite (inv_count1 _ _ _ _ _ _ HP). apply count_true_zero. intros i.
  destruct (flag_at _ i) eqn:E; [|done]. exfalso.
  apply (inv_flag1 _ _ _ _ _ _ HP) in E as [j Hij].
  apply (inv_edge _ _ _ _ _ _ HP) in Hij as [_ (Hi & Hj & Hc & _)].
  apply (Hdis (char_at s1 i)); [by apply char_at_elem|].
  rewrite Hc. by apply char_at_elem.
Qed.

(** [calculate_name_similarity] always returns a score: the loop
    [while not s2_matches[k]: k += 1] of the transposition pass finds a set
    flag before it reaches the end of [s2_matches], whatever the two names. *)
Theorem calculate_name_similarity_returns (name1 name2 : string) :
  ∃ score, calculate_name_similarity name1 name2 = Some score.
Proof.
  unfold calculate_name_similarity.
  destruct (falsy name1 || falsy name2); [by eexists|].
  case_bool_decide; [by eexists|].
  rewrite jaro_winkler_eq.
  destruct (_ || _); [by eexists|].
  destruct (match_pass _ _ _) as [[m1 m2] k].
  destruct (bool_decide (k = 0)); by eexists.
Qed.

(** Two names whose upper-cased, trimmed forms differ and have no character
    in common score exactly 0.0. *)
Theorem calculate_name_similarity_disjoint (a b : string) :
  normalized_name a ≠ normalized_name b →
  (∀ c, c ∈ chars (normalized_name a) → c ∉ chars (normalized_name b)) →
  calculate_name_similarity a b = Some 0%float.
Proof.
  intros Hne Hdis. unfold calculate_name_similarity.
  destruct (falsy a || falsy b); [done|].
  fold (normalized_name a) (normalized_name b).
  rewrite bool_decide_eq_false_2 by done.
  rewrite jaro_winkler_eq.
  destruct (_ || _); [done|].
  pose proof (match_pass_disjoint _ _
                (Nat.max (length (list_ascii_of_string (normalized_name a)))
                         (length (list_ascii_of_string (normalized_name b))) / 2 - 1) Hdis) as H0.
  destruct (match_pass _ _ _) as [[m1 m2] k]. simpl in H0. subst k. done.
Qed.

Lemma calculate_name_similarity_disjoint_witness :
  calculate_name_similarity "Ann" " bob" = Some 0%float.
Proof.
  apply (calculate_name_similarity_disjoint "Ann" " bob").
  - vm_compute. discriminate.
  - assert (chars (normalized_name "Ann") = ["A"; "N"; "N"]%char) as ->
      by (vm_compute; reflexivity).
    assert (chars (normalized_name " bob") = ["B"; "O"; "B"]%char) as ->
      by (vm_compute; reflexivity).
    intros c Hc Hb.
    rewrite !elem_of_cons, elem_of_nil in Hc. rewrite !elem_of_cons, elem_of_nil in Hb.
    destruct Hc as [->|[->|[->|[]]]]; destruct Hb as [Hb|[Hb|[Hb|[]]]]; discriminate.
Defined.

(** [match_records] does not depend on which record comes first: decision
    and score are the same for [(r1, r2)] and [(r2, r1)]. *)
Theorem match_records_symmetric (r1 r2 : DonorRecord) :
  match_records r1 r2 = match_records r2 r1.
Proof.
  unfold match_records.
  assert (calculate_name_similarity (first_name r1) (first_name r2)
          = calculate_name_similarity (first_name r2) (first_name r1)) as ->.
  { unfold calculate_name_similarity. rewrite (orb_comm (falsy (first_name r2))).
    destruct (_ || _); [done|].
    repeat case_bool_decide; try done; try congruence. apply jaro_winkler_sym. }
  assert (bool_decide (upper (last_name r1) = upper (last_name r2))
          = bool_decide (upper (last_name r2) = upper (last_name r1))) as ->.
  { apply bool_decide_ext. split; congruence. }
  destruct (negb _); [done|].
  destruct (calculate_name_similarity _ _) as [fn_sim|]; [|done]. simpl.
  assert (bool_decide (normalize_zip (zipcode r1) = normalize_zip (zipcode r2))
          = bool_decide (normalize_zip (zipcode r2) = normalize_zip (zipcode r1))) as ->.
  { apply bool_decide_ext. split; congruence. }
  assert (bool_decide (extract_street_number (street_address r1)
                       = extract_street_number (street_address r2))
          && negb (bool_decide (extract_street_number (street_address r1) = ""))
          = bool_decide (extract_street_number (street_address r2)
                         = extract_street_number (street_address r1))
            && negb (bool_decide (extract_street_number (street_address r2) = ""))) as ->.
  { repeat case_bool_decide; simpl; try done; congruence. }
  done.
Qed.

Lemma name_signal_points fn_sim :
  name_points fn_sim = (if name_signal fn_sim then name_points fn_sim else 0)%float
  ∧ (name_signal fn_sim = true → name_points fn_sim = 0.4%float ∨ name_points fn_sim = 0.3%float).
Proof.
  unfold name_points, name_signal, PyFloat.geb.
  destruct (PrimFloat.leb 0.9 fn_sim) eqn:E9.
  - assert (PrimFloat.leb 0.8 fn_sim = true) as ->.
    { apply (float_leb_trans _ 0.9%float); [vm_compute; reflexivity | done]. }
    split; [done | by left].
  - destruct (PrimFloat.leb 0.8 fn_sim); (split; [done | by (right || discriminate)]).
Qed.

(** With equal last names (case-insensitively), [match_records] decides a
    match exactly when at least two of its three signals hold: first-name
    similarity of at least 0.8, equal normalized ZIPs, equal non-empty street
    numbers. With different last names it never does. *)
Theorem match_records_decision (r1 r2 : DonorRecord) :
  ∃ fn_sim score,
    calculate_name_similarity (first_name r1) (first_name r2) = Some fn_sim
    ∧ match_records r1 r2
      = Some (bool_decide (upper (last_name r1) = upper (last_name r2))
              && (2 <=? signal_count fn_sim r1 r2), score).
Proof.
  destruct (calculate_name_similarity_total (first_name r1) (first_name r2)) as [fn_sim Hs].
  exists fn_sim. unfold match_records. rewrite Hs.
  case_bool_decide; simpl; [|by eexists].
  eexists. split; [done|]. f_equal. f_equal.
  unfold signal_count, zip_signal, street_signal.
  fold (name_points fn_sim).
  destruct (name_signal_points fn_sim) as [Hp Hv]. rewrite Hp.
  destruct (name_signal fn_sim).
  - destruct (Hv eq_refl) as [-> | ->];
      destruct (bool_decide (normalize_zip _ = _)), (bool_decide (extract_street_number _ = extract_street_number _)),
               (bool_decide (extract_street_number _ = "")); vm_compute; reflexivity.
  - destruct (bool_decide (normalize_zip _ = _)), (bool_decide (extract_street_number _ = extract_street_number _)),
             (bool_decide (extract_street_number _ = "")); vm_compute; reflexivity.
Qed.

(** ** AddressNormalizer and BlockingKeyBuilder: ZIP codes, street numbers, keys *)

Lemma str_forall_sfilter p s : str_forall p (sfilter p s) = true.
Proof.
  induction s as [|c s IH]; simpl; [done|].
  destruct (p c) eqn:E; simpl; [by rewrite E|done].
Qed.

Lemma sfilter_id p s : str_forall p s = true → sfilter p s = s.
Proof.
  induction s as [|c s IH]; simpl; [done|].
  intros [-> H]%andb_true_iff. by rewrite IH.
Qed.

Lemma str_take_all n s : String.length s ≤ n → str_take n s = s.
Proof.
  revert s. induction n as [|n IH]; intros [|c s]; simpl; try done; [lia|].
  intros H. rewrite IH; [done|lia].
Qed.

Lemma str_forall_app p s t :
  str_forall p (s ++ t) = str_forall p s && str_forall p t.
Proof. induction s as [|c s IH]; simpl; [done|]. by rewrite IH, andb_assoc. Qed.

Lemma zeros_length n : String.length (string_of_list_ascii (replicate n "0"%char)) = n.
Proof. induction n as [|n IH]; simpl; [done | by rewrite IH]. Qed.

Lemma zeros_digits n :
  str_forall is_digit (string_of_list_ascii (replicate n "0"%char)) = true.
Proof. induction n as [|n IH]; simpl; done. Qed.

Lemma str_length_zero s : String.length s = 0 → s = "".
Proof. by destruct s. Qed.

(** The three outcomes of [normalize_zip], by the digits of the input. *)
Lemma normalize_zip_cases zipcode :
  let digits := sfilter is_digit zipcode in
  (digits = "" ∧ normalize_zip zipcode = "")
  ∨ (digits ≠ "" ∧ String.length (normalize_zip zipcode) = 5
     ∧ str_forall is_digit (normalize_zip zipcode) = true).
Proof.
  intros digits. unfold normalize_zip. unfold falsy. case_bool_decide as Hz.
  { left. by subst. }
  fold digits.
  pose proof (str_forall_sfilter is_digit zipcode) as Hd. fold digits in Hd.
  destruct (5 <=? String.length digits) eqn:E5.
  - apply Nat.leb_le in E5. right. split; [intros E; rewrite E in E5; simpl in E5; lia|].
    split; [rewrite str_take_length; lia | by apply str_forall_take].
  - apply Nat.leb_gt in E5. destruct (0 <? String.length digits) eqn:E0.
    + apply Nat.ltb_lt in E0. right. split; [intros E; rewrite E in E0; simpl in E0; lia|].
      unfold zfill. split.
      * rewrite str_length_app, zeros_length. lia.
      * by rewrite str_forall_app, zeros_digits, Hd.
    + apply Nat.ltb_ge in E0. left. split; [apply str_length_zero; lia | done].
Qed.

Lemma normalize_zip_fixed z :
  String.length z = 5 → str_forall is_digit z = true → normalize_zip z = z.
Proof.
  intros Hlen Hd. unfold normalize_zip, falsy.
  rewrite bool_decide_eq_false_2 by (intros ->; simpl in Hlen; lia).
  rewrite (sfilter_id _ _ Hd), Hlen. cbn [Nat.leb]. apply str_take_all. lia.
Qed.

Lemma normalize_zip_idem z : normalize_zip (normalize_zip z) = normalize_zip z.
Proof.
  destruct (normalize_zip_cases z) as [[_ ->]|(_ & Hl & Hd)]; [done|].
  by apply normalize_zip_fixed.
Qed.

(** [normalize_zip] returns the empty string when the input holds no digit,
    and a string of exactly five digits otherwise; it leaves its own
    results unchanged. *)
Theorem normalize_zip_five_digits (zipcode : string) :
  (normalize_zip zipcode = "" ↔ sfilter is_digit zipcode = "")
  ∧ (normalize_zip zipcode = ""
     ∨ (String.length (normalize_zip zipcode) = 5
        ∧ str_forall is_digit (normalize_zip zipcode) = true))
  ∧ normalize_zip (normalize_zip zipcode) = normalize_zip zipcode.
Proof.
  split; [|split; [|apply normalize_zip_idem]].
  - destruct (normalize_zip_cases zipcode) as [[Hd Hz]|(Hd & Hl & _)]; [done|].
    split; [|done]. intros E. rewrite E in Hl. simpl in Hl. lia.
  - destruct (normalize_zip_cases zipcode) as [[_ Hz]|(_ & Hl & Hd)]; [by left | by right].
Qed.

Lemma leading_digits_split s :
  ∃ rest, s = leading_digits s ++ rest
          ∧ str_forall is_digit (leading_digits s) = true
          ∧ from_option is_digit false (str_head rest) = false.
Proof.
  induction s as [|c s (rest & Hs & Hd & Hr)]; simpl.
  - by exists "".
  - destruct (is_digit c) eqn:E.
    + exists rest. split; [|split; [|done]].
      * change (String c s = String c (leading_digits s ++ rest)). by f_equal.
      * simpl. by rewrite E.
    + exists (String c s). simpl. by rewrite E.
Qed.

(** [extract_street_number] returns the longest run of digits at the start
    of the trimmed address: the trimmed address is that run followed by a
    rest that does not start with a digit. *)
Theorem extract_street_number_leading_digits (address : string) :
  ∃ rest,
    strip address = extract_street_number address ++ rest
    ∧ str_forall is_digit (extract_street_number address) = true
    ∧ from_option is_digit false (str_head rest) = false.
Proof.
  unfold extract_street_number, falsy. case_bool_decide as E.
  - subst. by exists "".
  - apply leading_digits_split.
Qed.

Lemma strip_upper_idem s : strip (upper (strip (upper s))) = strip (upper s).
Proof. by rewrite <- strip_upper, strip_idem, upper_idem. Qed.

(** The blocking key reads its three arguments through their normal forms:
    the last name upper-cased and trimmed, the ZIP as [normalize_zip] gives
    it, the initial upper-cased. *)
Theorem create_blocking_key_normal_forms (last_name zipcode first_initial : string) :
  create_blocking_key last_name zipcode first_initial
  = create_blocking_key (strip (upper last_name)) (normalize_zip zipcode) (upper first_initial).
Proof.
  unfold create_blocking_key. rewrite strip_upper_idem, upper_idem, normalize_zip_idem.
  do 2 f_equal. f_equal.
  unfold falsy. repeat case_bool_decide; try done.
  - subst. done.
  - by rewrite H0.
Qed.

(** ** IdentityClusterer: the components of [generate_master_id] *)

Lemma get_component_delete components k k' :
  get_component (delete k components) k'
  = if bool_decide (k = k') then "" else get_component components k'.
Proof.
  unfold get_component. case_bool_decide as E.
  - subst. by rewrite lookup_delete_eq.
  - by rewrite lookup_delete_ne.
Qed.

Lemma get_component_insert components k v k' :
  get_component (<[k := v]> components) k'
  = if bool_decide (k = k') then v else get_component components k'.
Proof.
  unfold get_component. case_bool_decide as E.
  - subst. by rewrite lookup_insert_eq.
  - by rewrite lookup_insert_ne.
Qed.

(** [generate_master_id] reads a missing component as the empty string,
    and ignores every key other than [last_name], [first_name], [zip] and
    [street_num]. *)
Theorem generate_master_id_missing_component (components : gmap string string) :
  (∀ k, generate_master_id (delete k components)
        = if bool_decide (k ∈ key_components)
          then generate_master_id (<[k := ""]> components)
          else generate_master_id components)
  ∧ (∀ k v, k ∉ key_components →
            generate_master_id (<[k := v]> components) = generate_master_id components).
Proof.
  split.
  - intros k. unfold generate_master_id, key_string.
    rewrite !get_component_delete, !get_component_insert.
    destruct (bool_decide (k ∈ key_components)) eqn:Hk; [done|].
    apply bool_decide_eq_false in Hk.
    unfold key_components in Hk. rewrite !not_elem_of_cons in Hk.
    destruct Hk as (H1 & H2 & H3 & H4 & _).
    by rewrite !bool_decide_eq_false_2 by done.
  - intros k v Hk. unfold generate_master_id, key_string.
    rewrite !get_component_insert.
    unfold key_components in Hk. rewrite !not_elem_of_cons in Hk.
    destruct Hk as (H1 & H2 & H3 & H4 & _).
    by rewrite !bool_decide_eq_false_2 by done.
Qed.

(** ** IdentityClusterer: what [assign_master_ids] writes *)

Lemma set_master_person_id_identity v r r' :
  identity_fields r = identity_fields r' →
  set_master_person_id v r = set_master_person_id v r'.
Proof.
  intros H. change (set_master_person_id v (identity_fields r)
                    = set_master_person_id v (identity_fields r')). by rewrite H.
Qed.

Lemma match_records_identity r1 r2 r1' r2' :
  identity_fields r1 = identity_fields r1' → identity_fields r2 = identity_fields r2' →
  match_records r1 r2 = match_records r1' r2'.
Proof.
  intros H1 H2. rewrite <- (match_records_identity_fields r1 r2), H1, H2.
  apply match_records_identity_fields.
Qed.

Lemma components_of_identity r r' :
  identity_fields r = identity_fields r' → components_of r = components_of r'.
Proof.
  intros H. rewrite <- (components_of_identity_fields r), H.
  apply components_of_identity_fields.
Qed.

Lemma ids_of_frame (store store' : list DonorRecord) :
  identity_fields <$> store = identity_fields <$> store' → id <$> store = id <$> store'.
Proof.
  intros H. apply (f_equal (fmap id)) in H.
  rewrite <- !list_fmap_compose in H. exact H.
Qed.

Lemma fold_propagate_None r_ref later :
  fold_left (propagate_step r_ref) later None = None.
Proof. induction later as [|o later IH]; [done|]. exact IH. Qed.

(** One step of the inner loop, run on two stores that hold the same
    records up to [master_person_id] and agree at the seed. *)
Lemma propagate_step_sim r_ref o store store' (assigned : gset Z) store1 assigned1 :
  identity_fields <$> store = identity_fields <$> store' →
  store !! r_ref = store' !! r_ref →
  propagate_step r_ref (Some (store, assigned)) o = Some (store1, assigned1) →
  ∃ store1',
    propagate_step r_ref (Some (store', assigned)) o = Some (store1', assigned1)
    ∧ ((store1 = store ∧ store1' = store' ∧ assigned1 = assigned)
       ∨ (∃ other v,
            store !! o = Some other ∧ assigned1 = {[id other]} ∪ assigned
            ∧ store1 = <[o := set_master_person_id v other]> store
            ∧ store1' = <[o := set_master_person_id v other]> store')).
Proof.
  intros Hf Hseed. unfold propagate_step. simpl.
  rewrite <- Hseed.
  destruct (store !! r_ref) as [r|] eqn:Er; [|done]. simpl.
  destruct (store !! o) as [other|] eqn:Eo; [|done]. simpl.
  destruct (frame_lookup store' store o other Hf Eo) as (other' & Eo' & Hid).
  rewrite Eo'. simpl.
  assert (id other' = id other) as Hidz by (apply (f_equal id) in Hid; by simpl in Hid).
  rewrite Hidz.
  case_bool_decide as Hin.
  { intros [= <- <-]. eexists. split; [done|]. by left. }
  rewrite <- (match_records_identity r other r other' eq_refl Hid).
  destruct (match_records r other) as [[[] score]|]; simpl; [| |done].
  - intros [= <- <-]. eexists. split; [done|]. right.
    exists other, (master_person_id r). repeat split; try done.
    by rewrite (set_master_person_id_identity _ other other').
  - intros [= <- <-]. eexists. split; [done|]. by left.
Qed.

Lemma frame_insert_both (store store' : list DonorRecord) o x :
  identity_fields <$> store = identity_fields <$> store' →
  identity_fields <$> <[o := x]> store = identity_fields <$> <[o := x]> store'.
Proof. intros H. by rewrite !list_fmap_insert, H. Qed.

Lemma ids_insert (store : list DonorRecord) o other v :
  store !! o = Some other →
  id <$> <[o := set_master_person_id v other]> store = id <$> store.
Proof.
  intros H. rewrite list_fmap_insert. apply list_insert_id.
  by rewrite list_lookup_fmap, H.
Qed.

Lemma agree_insert W (store store' : list DonorRecord) o x :
  agree W store store' → length store = length store' →
  agree ({[o]} ∪ W) (<[o := x]> store) (<[o := x]> store').
Proof.
  intros H Hlen p Hp. destruct (decide (p = o)) as [->|Hne].
  - destruct (decide (o < length store)) as [Hlt|Hge].
    + rewrite !list_lookup_insert_eq by lia. done.
    + rewrite !lookup_ge_None_2 by (rewrite length_insert; lia). done.
  - rewrite !list_lookup_insert_ne by done. apply H.
    apply elem_of_union in Hp as [Hp%elem_of_singleton|Hp]; done.
Qed.

Lemma frame_length_eq (store store' : list DonorRecord) :
  identity_fields <$> store = identity_fields <$> store' → length store = length store'.
Proof. intros H. apply (f_equal length) in H. by rewrite !length_fmap in H. Qed.

(** The inner loop on two such stores: it makes the same decisions, and
    writes the same records at the same positions. *)
Lemma propagate_fold_sim r_ref later :
  ∀ store store' (assigned : gset Z) W store1 assigned1,
    identity_fields <$> store = identity_fields <$> store' →
    agree W store store' → r_ref ∈ W →
    fold_left (propagate_step r_ref) later (Some (store, assigned)) = Some (store1, assigned1) →
    ∃ store1' W1,
      fold_left (propagate_step r_ref) later (Some (store', assigned)) = Some (store1', assigned1)
      ∧ identity_fields <$> store1 = identity_fields <$> store1'
      ∧ id <$> store1 = id <$> store
      ∧ agree W1 store1 store1' ∧ W ⊆ W1
      ∧ untouched W1 store store' store1 store1'
      ∧ (NoDup (id <$> store) → assigned_within (id <$> store) assigned W →
         assigned_within (id <$> store) assigned1 W1).
Proof.
  induction later as [|o later IH]; intros store store' assigned W store1 assigned1 Hf Ha Hr E.
  - simpl in E. injection E as <- <-. exists store', W. repeat split; done.
  - cbn [fold_left] in E |- *.
    destruct (propagate_step r_ref (Some (store, assigned)) o) as [[store0 assigned0]|] eqn:E0;
      [|by rewrite fold_propagate_None in E].
    destruct (propagate_step_sim r_ref o store store' assigned store0 assigned0 Hf (Ha _ Hr) E0)
      as (store0' & -> & [(-> & -> & ->)|(other & v & Eo & -> & -> & ->)]).
    + by apply IH.
    + pose proof (frame_length_eq _ _ Hf) as Hlen.
      destruct (IH _ _ _ ({[o]} ∪ W) store1 assigned1
                  (frame_insert_both _ _ o _ Hf) (agree_insert _ _ _ o _ Ha Hlen)
                  ltac:(apply elem_of_union; by right) E)
        as (store1' & W1 & E1 & Hf1 & Hids1 & Ha1 & Hsub & Hun & Hin).
      exists store1', W1. rewrite (ids_insert _ _ _ _ Eo) in Hids1, Hin.
      split; [done|]. split; [done|]. split; [done|]. split; [done|].
      split; [intros p Hp; apply Hsub, elem_of_union; by right|].
      split.
      * intros p Hp. destruct (Hun p Hp) as [H1 H2].
        assert (p ≠ o) as Hne.
        { intros ->. apply Hp, Hsub, elem_of_union. left. by apply elem_of_singleton. }
        rewrite H1, H2, !list_lookup_insert_ne by done. done.
      * intros Hnd Hw. apply Hin; [done|].
        intros p i Ep [Hi%elem_of_singleton|Hi]%elem_of_union.
        -- subst i. apply elem_of_union. left. apply elem_of_singleton.
           apply (NoDup_lookup _ p o (id other) Hnd); [done|].
           by rewrite list_lookup_fmap, Eo.
        -- apply elem_of_union. right. by eapply Hw.
Qed.

Lemma assigned_within_seed (store : list DonorRecord) r_ref r (assigned : gset Z) W :
  store !! r_ref = Some r → NoDup (id <$> store) →
  assigned_within (id <$> store) assigned W →
  assigned_within (id <$> store) ({[id r]} ∪ assigned) ({[r_ref]} ∪ W).
Proof.
  intros Er Hnd Hw p i Ep [Hi%elem_of_singleton|Hi]%elem_of_union.
  - subst i. apply elem_of_union. left. apply elem_of_singleton.
    apply (NoDup_lookup _ p r_ref (id r) Hnd); [done|].
    by rewrite list_lookup_fmap, Er.
  - apply elem_of_union. right. by eapply Hw.
Qed.

(** The pass over one block on two such stores. *)
Lemma process_block_sim block :
  ∀ store store' (assigned : gset Z) W store1 assigned1,
    identity_fields <$> store = identity_fields <$> store' →
    agree W store store' →
    process_block block (store, assigned) = Some (store1, assigned1) →
    ∃ store1' W1,
      process_block block (store', assigned) = Some (store1', assigned1)
      ∧ identity_fields <$> store1 = identity_fields <$> store1'
      ∧ id <$> store1 = id <$> store
      ∧ agree W1 store1 store1' ∧ W ⊆ W1
      ∧ untouched W1 store store' store1 store1'
      ∧ (NoDup (id <$> store) → assigned_within (id <$> store) assigned W →
         assigned_within (id <$> store) assigned1 W1).
Proof.
  induction block as [|r_ref later IH]; intros store store' assigned W store1 assigned1 Hf Ha E.
  - simpl in E. injection E as <- <-. exists store', W.
    split; [done|]. split; [done|]. split; [done|]. split; [done|]. split; [done|].
    split; [|done]. by intros p Hp.
  - destruct (store !! r_ref) as [r|] eqn:Er; [|by (simpl in E; rewrite Er in E)].
    destruct (frame_lookup store' store r_ref r Hf Er) as (r' & Er' & Hid).
    assert (id r' = id r) as Hidz by (apply (f_equal id) in Hid; by simpl in Hid).
    rewrite (process_block_cons r_ref later store assigned r Er) in E.
    rewrite (process_block_cons r_ref later store' assigned r' Er').
    rewrite Hidz. case_bool_decide as Hin; [by apply IH|].
    rewrite <- (components_of_identity r r' Hid).
    rewrite <- (set_master_person_id_identity _ r r' Hid).
    set (r1 := set_master_person_id (Some (generate_master_id (components_of r))) r) in *.
    destruct (fold_left (propagate_step r_ref) later
                (Some (<[r_ref := r1]> store, {[id r]} ∪ assigned)))
      as [[store0 assigned0]|] eqn:E0; [|done].
    simpl in E.
    pose proof (frame_length_eq _ _ Hf) as Hlen.
    destruct (propagate_fold_sim r_ref later _ _ _ ({[r_ref]} ∪ W) store0 assigned0
                (frame_insert_both _ _ r_ref r1 Hf) (agree_insert _ _ _ r_ref r1 Ha Hlen)
                ltac:(apply elem_of_union; left; by apply elem_of_singleton) E0)
      as (store0' & Wb & -> & Hf0 & Hids0 & Ha0 & Hsub0 & Hun0 & Hin0).
    simpl.
    destruct (IH store0 store0' assigned0 Wb store1 assigned1 Hf0 Ha0 E)
      as (store1' & W1 & E1 & Hf1 & Hids1 & Ha1 & Hsub1 & Hun1 & Hin1).
    exists store1', W1.
    pose proof (ids_insert store r_ref r (Some (generate_master_id (components_of r))) Er)
      as Hids.
    fold r1 in Hids. rewrite Hids in Hids0, Hin0. rewrite Hids0 in Hids1, Hin1.
    split; [done|]. split; [done|]. split; [done|]. split; [done|].
    split; [intros p Hp; apply Hsub1, Hsub0, elem_of_union; by right|].
    split.
    + intros p Hp. destruct (Hun1 p Hp) as [H1 H2].
      assert (p ∉ Wb) as Hpb by (intros ?; by apply Hp, Hsub1).
      destruct (Hun0 p Hpb) as [H3 H4].
      assert (p ≠ r_ref) as Hne.
      { intros ->. apply Hpb, Hsub0, elem_of_union. left. by apply elem_of_singleton. }
      rewrite H1, H2, H3, H4, !list_lookup_insert_ne by done. done.
    + intros Hnd Hw. apply Hin1; [done|]. apply Hin0; [done|].
      by apply assigned_within_seed.
Qed.

Lemma ids_length (store store' : list DonorRecord) :
  id <$> store = id <$> store' → length store = length store'.
Proof. intros H. apply (f_equal length) in H. by rewrite !length_fmap in H. Qed.

Lemma fold_blocks_None (blocks : list (string * list nat)) :
  fold_left (λ st kb, store ← st; fst <$> process_block kb.2 (store, ∅)) blocks None = None.
Proof. induction blocks as [|kb blocks IH]; [done|]. exact IH. Qed.

(** The pass over all blocks on two such stores. *)
Lemma process_blocks_sim blocks :
  ∀ store store' W out,
    identity_fields <$> store = identity_fields <$> store' →
    agree W store store' →
    process_blocks blocks store = Some out →
    ∃ out' W1,
      process_blocks blocks store' = Some out'
      ∧ identity_fields <$> out = identity_fields <$> out'
      ∧ agree W1 out out' ∧ W ⊆ W1
      ∧ untouched W1 store store' out out'
      ∧ (NoDup (id <$> store) →
         Forall (λ kb, Forall (λ p, p < length store) kb.2) blocks →
         ∀ kb p, kb ∈ blocks → p ∈ kb.2 → p ∈ W1).
Proof.
  unfold process_blocks.
  induction blocks as [|[k b] blocks IH]; intros store store' W out Hf Ha E.
  - simpl in E. injection E as <-. exists store', W.
    split; [done|]. split; [done|]. split; [done|]. split; [done|]. split; [by intros p Hp|].
    intros _ _ kb p Hkb. by apply elem_of_nil in Hkb.
  - cbn [fold_left] in E |- *. cbn [mbind option_bind snd] in E |- *.
    destruct (process_block b (store, ∅)) as [[store1 assigned1]|] eqn:E1;
      [|simpl in E; by rewrite fold_blocks_None in E].
    destruct (process_block_sim b store store' ∅ W store1 assigned1 Hf Ha E1)
      as (store1' & Wb & -> & Hf1 & Hids1 & Ha1 & Hsub1 & Hun1 & Hin1).
    simpl in E |- *.
    destruct (IH store1 store1' Wb out Hf1 Ha1 E)
      as (out' & W1 & E' & Hf' & Ha' & Hsub' & Hun' & Hin').
    exists out', W1.
    split; [done|]. split; [done|]. split; [done|].
    split; [intros p Hp; by apply Hsub', Hsub1|].
    split.
    + intros p Hp. destruct (Hun' p Hp) as [H1 H2].
      assert (p ∉ Wb) as Hpb by (intros ?; by apply Hp, Hsub').
      destruct (Hun1 p Hpb) as [H3 H4]. by rewrite H1, H2.
    + intros Hnd [Hb Hbs]%Forall_cons kb p [->|Hkb]%elem_of_cons Hp.
      * simpl in Hp, Hb. apply Hsub'.
        destruct (process_block_spec store k b store ∅ eq_refl Hb)
          as (s2 & a2 & E2 & _ & _ & _ & Hall & _).
        assert (a2 = assigned1) as -> by congruence.
        destruct (lookup_lt_is_Some_2 store p) as [r Er];
          [by apply (proj1 (Forall_forall _ _) Hb)|].
        apply (Hin1 Hnd ltac:(by intros ? ? ? ?%not_elem_of_empty) p (id r)).
        -- by rewrite list_lookup_fmap, Er.
        -- by eapply Hall.
      * apply (Hin' ltac:(by rewrite Hids1)
                    ltac:(by rewrite (ids_length _ _ Hids1)) kb p Hkb Hp).
Qed.

Lemma build_blocks_fold_frame (l l' : list DonorRecord) a acc :
  identity_fields <$> l = identity_fields <$> l' →
  fold_left (λ blocks ir, blocks_append (blocking_key_of ir.2) ir.1 blocks)
            (combine (seq a (length l)) l) acc
  = fold_left (λ blocks ir, blocks_append (blocking_key_of ir.2) ir.1 blocks)
              (combine (seq a (length l')) l') acc.
Proof.
  revert l' a acc. induction l as [|x l IH]; intros [|x' l'] a acc H; try done.
  pose proof (f_equal head H) as Hx. pose proof (f_equal tail H) as Hl.
  cbn [head tail fmap list_fmap] in Hx, Hl. apply (inj Some) in Hx.
  cbn [length seq combine fold_left fst snd].
  assert (blocking_key_of x = blocking_key_of x') as ->.
  { change (blocking_key_of (identity_fields x) = blocking_key_of (identity_fields x')).
    by rewrite Hx. }
  by apply IH.
Qed.

(** The blocks depend on the records only up to [master_person_id]. *)
Lemma build_blocks_frame records records' :
  identity_fields <$> records = identity_fields <$> records' →
  build_blocks records = build_blocks records'.
Proof. apply build_blocks_fold_frame. Qed.

Lemma build_blocks_range records :
  Forall (λ kb : string * list nat, Forall (λ p, p < length records) kb.2)
         (build_blocks records).
Proof.
  destruct (build_blocks_inv records) as (_ & Hall & _).
  eapply Forall_impl; [exact Hall|]. by intros kb [_ H].
Qed.

(** With pairwise distinct ids, [assign_master_ids] leaves no record
    without an id: every record carries the id minted from the canonical
    key of a seed, which is the record itself or an earlier record of the
    input with the same blocking key that [match_records] matches with it
    directly. *)
Theorem assign_master_ids_seeds (records : list DonorRecord) :
  NoDup (id <$> records) →
  ∃ out,
    assign_master_ids records = Some out
    ∧ ∀ p r, records !! p = Some r →
        ∃ q s o,
          q ≤ p ∧ records !! q = Some s ∧ out !! p = Some o
          ∧ blocking_key_of s = blocking_key_of r
          ∧ master_person_id o = Some (generate_master_id (components_of s))
          ∧ (q = p ∨ ∃ score, match_records s r = Some (true, score)).
Proof.
  intros Hnd. destruct (assign_master_ids_spec records) as (out & E & _ & Hseed).
  exists out. split; [done|]. intros p r Er.
  destruct (Hseed (distinct_ids_of_NoDup _ Hnd) p (lookup_lt_Some _ _ _ Er))
    as (q & s & r' & o & Hq & Es & Er' & Eo & Hk & Hm & Hcase).
  assert (r' = r) as -> by congruence.
  by exists q, s, o.
Qed.

Lemma test_records_NoDup : NoDup (id <$> test_records).
Proof.
  simpl. repeat (apply NoDup_cons_2;
                 [intros H; rewrite ?elem_of_cons, elem_of_nil in H; lia|]).
  apply NoDup_nil_2.
Qed.

Lemma assign_master_ids_seeds_witness :
  ∃ out,
    assign_master_ids test_records = Some out
    ∧ ∀ p r, test_records !! p = Some r →
        ∃ q s o,
          q ≤ p ∧ test_records !! q = Some s ∧ out !! p = Some o
          ∧ blocking_key_of s = blocking_key_of r
          ∧ master_person_id o = Some (generate_master_id (components_of s))
          ∧ (q = p ∨ ∃ score, match_records s r = Some (true, score)).
Proof. apply (assign_master_ids_seeds test_records), test_records_NoDup. Defined.

(** Running [assign_master_ids] on its own result changes nothing. *)
Theorem assign_master_ids_idempotent (records : list DonorRecord) :
  ∃ out, assign_master_ids records = Some out ∧ assign_master_ids out = Some out.
Proof.
  destruct (assign_master_ids_spec records) as (out & E & Hf & _).
  exists out. split; [done|].
  unfold assign_master_ids in *. rewrite (build_blocks_frame out records Hf).
  destruct (process_blocks_sim (build_blocks records) records out ∅ out (eq_sym Hf)
              ltac:(by intros ? ?%not_elem_of_empty) E)
    as (out' & W & -> & _ & Ha & _ & Hun & _).
  f_equal. apply list_eq. intros p.
  destruct (decide (p ∈ W)) as [Hp|Hp]; [symmetry; by apply Ha|].
  by destruct (Hun p Hp) as [_ ->].
Qed.

(** With pairwise distinct ids, the result of [assign_master_ids] does not
    depend on the [master_person_id] values the records come with: two
    inputs that agree on every other field give the same result. *)
Theorem assign_master_ids_overwrites (records records' : list DonorRecord) :
  NoDup (id <$> records) →
  identity_fields <$> records = identity_fields <$> records' →
  assign_master_ids records = assign_master_ids records'.
Proof.
  intros Hnd Hf.
  destruct (assign_master_ids_spec records) as (out & E & Hfo & _).
  rewrite E. unfold assign_master_ids in *. rewrite <- (build_blocks_frame records records' Hf).
  destruct (process_blocks_sim (build_blocks records) records records' ∅ out Hf
              ltac:(by intros ? ?%not_elem_of_empty) E)
    as (out' & W & E' & Hf' & Ha & _ & _ & Hall).
  rewrite E'. f_equal. apply list_eq. intros p.
  destruct (decide (p < length records)) as [Hp|Hp].
  - destruct (build_blocks_inv records) as (_ & _ & Hcov).
    destruct (Hcov p Hp) as (kb & Hkb & Hpkb).
    apply Ha. by apply (Hall Hnd (build_blocks_range records) kb p).
  - pose proof (frame_length _ _ Hfo) as Hlen.
    pose proof (frame_length_eq _ _ Hf') as Hlen'.
    rewrite !lookup_ge_None_2; [done | lia | lia].
Qed.

Lemma assign_master_ids_overwrites_witness :
  assign_master_ids test_records
  = assign_master_ids (set_master_person_id (Some "MP_000000000000") <$> test_records).
Proof.
  apply (assign_master_ids_overwrites test_records); [apply test_records_NoDup | reflexivity].
Defined.

(** ** AddressNormalizer: [normalize_address], [normalize_state], the address key *)

Lemma str_forall_impl (p q : ascii → bool) s :
  (∀ c, p c = true → q c = true) → str_forall p s = true → str_forall q s = true.
Proof.
  intros H. induction s as [|c s IH]; simpl; [done|].
  intros [Hc Hs]%andb_true_iff. by rewrite (H c Hc), IH.
Qed.

Lemma str_forall_and (p q : ascii → bool) s :
  str_forall p s = true → str_forall q s = true →
  str_forall (λ c, p c && q c) s = true.
Proof.
  induction s as [|c s IH]; simpl; [done|].
  intros [-> Hp]%andb_true_iff [-> Hq]%andb_true_iff. by rewrite IH.
Qed.

Lemma upper_char_not_lower c : is_lower (upper_char c) = false.
Proof. by destruct c as [[] [] [] [] [] [] [] []]. Qed.

Lemma str_forall_upper s : str_forall (λ c, negb (is_lower c)) (upper s) = true.
Proof.
  unfold upper. induction s as [|c s IH]; simpl; [done|].
  by rewrite upper_char_not_lower, IH.
Qed.

Lemma str_forall_lstrip p q s : str_forall p s = true → str_forall p (lstrip_by q s) = true.
Proof.
  induction s as [|c s IH]; simpl; [done|].
  intros H. destruct (q c); [|done]. apply andb_true_iff in H as [_ H]. by apply IH.
Qed.

Lemma str_forall_rstrip p q s : str_forall p s = true → str_forall p (rstrip_by q s) = true.
Proof.
  induction s as [|c s IH]; simpl; [done|].
  intros [Hc Hs]%andb_true_iff. specialize (IH Hs).
  destruct (rstrip_by q s) as [|c' r]; [destruct (q c); simpl; by rewrite ?Hc|].
  change (p c && str_forall p (String c' r) = true). by rewrite Hc, IH.
Qed.

Lemma str_forall_strip p s : str_forall p s = true → str_forall p (strip s) = true.
Proof. intros H. by apply str_forall_rstrip, str_forall_lstrip. Qed.

(** After the whitespace collapse the only whitespace left is the space. *)
Lemma str_forall_collapse p b s :
  p " "%char = true → str_forall p s = true →
  str_forall (λ c, p c && (negb (is_space c) || bool_decide (c = " "%char)))
             (collapse_from b s) = true.
Proof.
  intros Hsp. revert b. induction s as [|c s IH]; intros b; simpl; [done|].
  intros [Hc Hs]%andb_true_iff.
  destruct (is_space c) eqn:E.
  - destruct b; [by apply IH|]. simpl. rewrite Hsp, IH by done. done.
  - simpl. rewrite Hc, E, IH by done. done.
Qed.

Lemma str_forall_sfilter_keep p q s :
  str_forall p s = true → str_forall p (sfilter q s) = true.
Proof.
  induction s as [|c s IH]; simpl; [done|].
  intros [Hc Hs]%andb_true_iff. destruct (q c); simpl; rewrite ?Hc; by apply IH.
Qed.

Lemma str_forall_replace_word p full abbrev prev skip s :
  str_forall p abbrev = true → str_forall p s = true →
  str_forall p (replace_word_from full abbrev prev skip s) = true.
Proof.
  intros Ha. revert prev skip. induction s as [|c s IH]; intros prev skip; simpl; [done|].
  intros [Hc Hs]%andb_true_iff.
  destruct skip as [|k]; [|by apply IH].
  destruct (_ && _ && _).
  - rewrite str_forall_app, Ha. by apply IH.
  - simpl. rewrite Hc. by apply IH.
Qed.

Lemma str_forall_abbrevs p (table : list (string * string)) s :
  forallb (λ fa : string * string, str_forall p fa.2) table = true →
  str_forall p s = true →
  str_forall p (fold_left (λ addr fa, replace_word fa.1 fa.2 addr) table s) = true.
Proof.
  revert s. induction table as [|[full abbrev] table IH]; intros s; simpl; [done|].
  intros [Ha Ht]%andb_true_iff Hs. apply IH; [done|].
  by apply str_forall_replace_word.
Qed.

(** A normalized street address holds no lower-case letter, none of the
    characters [.], [,] and [#], and no whitespace other than the space. *)
Theorem normalize_address_characters (address : string) :
  str_forall is_address_char (normalize_address address) = true.
Proof.
  unfold normalize_address. destruct (falsy address); [done|].
  apply str_forall_abbrevs; [by vm_compute|].
  unfold remove_punctuation, is_address_char.
  apply (str_forall_impl
           (λ c, (negb (is_lower c) && (negb (is_space c) || bool_decide (c = " "%char)))
                 && negb (is_address_punctuation c))).
  { intros c. destruct (is_lower c), (is_address_punctuation c), (is_space c); simpl; try done;
      rewrite ?andb_false_r, ?andb_true_r; done. }
  apply str_forall_and; [|apply str_forall_sfilter].
  apply str_forall_sfilter_keep.
  apply (str_forall_collapse (λ c, negb (is_lower c))); [done|].
  apply str_forall_strip, str_forall_upper.
Qed.

Lemma falsy_strip_upper s : falsy s = true → strip (upper s) = "".
Proof. by intros ->%falsy_true. Qed.

(** [normalize_address] reads the address through its upper-cased, trimmed form. *)
Lemma normalize_address_normal_form address :
  normalize_address (strip (upper address)) = normalize_address address.
Proof.
  unfold normalize_address. rewrite strip_upper_idem.
  destruct (falsy address) eqn:Ea; [by rewrite (falsy_strip_upper _ Ea)|].
  destruct (falsy (strip (upper address))) eqn:Es; [|done].
  apply falsy_true in Es. rewrite Es. by vm_compute.
Qed.

Lemma normalize_city_normal_form city :
  normalize_city (strip (upper city)) = normalize_city city.
Proof.
  unfold normalize_city. rewrite strip_upper_idem.
  destruct (falsy city) eqn:Ea; [by rewrite (falsy_strip_upper _ Ea)|].
  destruct (falsy (strip (upper city))) eqn:Es; [|done].
  apply falsy_true in Es. rewrite Es. by vm_compute.
Qed.

Lemma normalize_state_normal_form state :
  normalize_state (strip (upper state)) = normalize_state state.
Proof.
  unfold normalize_state. rewrite strip_upper_idem.
  destruct (falsy state) eqn:Ea; [by rewrite (falsy_strip_upper _ Ea)|].
  destruct (falsy (strip (upper state))) eqn:Es; [|done].
  apply falsy_true in Es. rewrite Es. by vm_compute.
Qed.

(** The address key of [normalize_addresses.py] does not depend on the
    letter case or the surrounding whitespace of street, city and state,
    nor on anything but the normalized form of the ZIP. *)
Theorem create_address_key_normal_forms (street city state zipcode : string) :
  create_address_key street city state zipcode
  = create_address_key (strip (upper street)) (strip (upper city)) (strip (upper state))
                       (normalize_zip zipcode).
Proof.
  unfold create_address_key, normalize_full_address.
  cbn [street_normalized city_normalized state_normalized zip_normalized].
  by rewrite normalize_address_normal_form, normalize_city_normal_form,
             normalize_state_normal_form, normalize_zip_idem.
Qed.

Lemma state_codes_fixed_true : state_codes_fixed = true.
Proof. by vm_compute. Qed.

Lemma STATE_ABBREVS_lookup full abbrev :
  STATE_ABBREVS !! full = Some abbrev →
  String.length abbrev = 2 ∧ normalize_state abbrev = abbrev ∧ String.length full ≠ 2.
Proof.
  intros H. apply elem_of_list_to_map_2, list_elem_of_In in H.
  pose proof state_codes_fixed_true as Hall. unfold state_codes_fixed in Hall.
  rewrite forallb_forall in Hall. specialize (Hall _ H). simpl in Hall.
  apply andb_true_iff in Hall as [[H1 H2]%andb_true_iff H3].
  apply bool_decide_eq_true in H1, H2. apply negb_true_iff, bool_decide_eq_false in H3.
  done.
Qed.

Lemma normalize_state_fixed s :
  strip (upper s) = s → String.length s ≠ 2 → STATE_ABBREVS !! s = None →
  normalize_state s = s.
Proof.
  intros Hs Hl Hn. unfold normalize_state. destruct (falsy s) eqn:E.
  - by apply falsy_true in E.
  - rewrite Hs, bool_decide_eq_false_2, Hn by done. done.
Qed.

(** [normalize_state] leaves its own results unchanged, and maps every
    full state name of its table, in any letter case and with surrounding
    whitespace, to the two-letter code of the table. *)
Theorem normalize_state_idempotent (state : string) :
  normalize_state (normalize_state state) = normalize_state state
  ∧ ∀ abbrev, STATE_ABBREVS !! strip (upper state) = Some abbrev →
              normalize_state state = abbrev ∧ String.length abbrev = 2.
Proof.
  split.
  - unfold normalize_state at 2 3. destruct (falsy state) eqn:Ea; [done|].
    case_bool_decide as Hl.
    + unfold normalize_state. rewrite strip_upper_idem.
      destruct (falsy (strip (upper state))) eqn:Es.
      * by apply falsy_true in Es.
      * by rewrite bool_decide_eq_true_2.
    + destruct (STATE_ABBREVS !! strip (upper state)) as [abbrev|] eqn:E; simpl.
      * by apply STATE_ABBREVS_lookup in E as (_ & ? & _).
      * destruct (decide (strip (upper state) = "")) as [->|Hne]; [done|].
        apply normalize_state_fixed; [apply strip_upper_idem | done | done].
  - intros abbrev E. destruct (STATE_ABBREVS_lookup _ _ E) as (Hl & _ & Hf).
    split; [|done]. unfold normalize_state.
    destruct (falsy state) eqn:Ea.
    + apply falsy_true in Ea. subst. by vm_compute in E.
    + by rewrite bool_decide_eq_false_2, E.
Qed.

(** ** HouseholdLinker: which rows get a [household_id], and its form *)

Lemma falsy_app_pipe a b : falsy (a ++ "|" ++ b) = false.
Proof. apply falsy_false. by destruct a. Qed.

Lemma str_take_drop n s : str_take n s ++ str_drop n s = s.
Proof.
  revert s. induction n as [|n IH]; intros [|c s]; try done.
  change (String c (str_take n s ++ str_drop n s) = String c s). by rewrite IH.
Qed.

Lemma str_drop_drop n m s : str_drop n (str_drop m s) = str_drop (m + n) s.
Proof.
  revert s. induction m as [|m IH]; intros s; [done|].
  destruct s as [|c s]; [by destruct n|]. apply IH.
Qed.

Lemma str_drop_length n s : String.length (str_drop n s) = String.length s - n.
Proof.
  revert s. induction n as [|n IH]; intros [|c s]; simpl; try done.
Qed.

Lemma str_app_assoc (a b c : string) : (a ++ b) ++ c = a ++ b ++ c.
Proof.
  induction a as [|x a IH]; [done|].
  change (String x ((a ++ b) ++ c) = String x (a ++ b ++ c)). by rewrite IH.
Qed.

Lemma hex_take n bytes : SHA256.hex (take n bytes) = str_take (2 * n) (SHA256.hex bytes).
Proof.
  revert bytes. induction n as [|n IH]; intros [|b bytes]; simpl; try done.
  rewrite IH. replace (n + S (n + 0)) with (S (2 * n)) by lia. done.
Qed.

(** A row gets no [household_id] exactly when its street cell, upper-cased
    and trimmed, or the first five characters of its ZIP cell, trimmed, is
    empty or reads [NAN]; the city plays no part, and the ZIP is compared
    as it is, without upper-casing. *)
Theorem household_id_missing (r : HouseholdLinker.row) :
  HouseholdLinker.household_id r = None
  ↔ strip (upper (HouseholdLinker.street_line_1 r)) = ""
    ∨ strip (upper (HouseholdLinker.street_line_1 r)) = "NAN"
    ∨ strip (str_take 5 (HouseholdLinker.zip_code r)) = ""
    ∨ strip (str_take 5 (HouseholdLinker.zip_code r)) = "NAN".
Proof.
  unfold HouseholdLinker.household_id, HouseholdLinker.create_address_key.
  cbv zeta. unfold falsy at 1 2.
  repeat case_bool_decide; cbn [orb]; try (split; [intros _; by auto | done]).
  rewrite falsy_app_pipe. split; [done|]. intros [?|[?|[?|?]]]; done.
Qed.

(** A [household_id] is the first 32 hexadecimal digits of the SHA-256
    digest of the address key, in groups of 8, 4, 4, 4 and 12 separated by
    hyphens: 36 characters. *)
Theorem generate_household_id_format (address_key : string) :
  ∃ a b c d e,
    HouseholdLinker.generate_household_id address_key
    = a ++ "-" ++ b ++ "-" ++ c ++ "-" ++ d ++ "-" ++ e
    ∧ String.length a = 8 ∧ String.length b = 4 ∧ String.length c = 4
    ∧ String.length d = 4 ∧ String.length e = 12
    ∧ a ++ b ++ c ++ d ++ e = str_take 32 (SHA256.hexdigest address_key)
    ∧ String.length (HouseholdLinker.generate_household_id address_key) = 36.
Proof.
  unfold HouseholdLinker.generate_household_id, HouseholdLinker.uuid_string, SHA256.hexdigest.
  cbv zeta. rewrite hex_take.
  set (h := str_take (2 * 16) (SHA256.hex (SHA256.digest (SHA256.encode address_key)))).
  assert (String.length h = 32) as Hh.
  { unfold h. rewrite str_take_length, hex_length, digest_length. done. }
  exists (str_take 8 h), (str_take 4 (str_drop 8 h)), (str_take 4 (str_drop 12 h)),
         (str_take 4 (str_drop 16 h)), (str_drop 20 h).
  split; [done|].
  assert (String.length (str_take 8 h) = 8) as H1
    by (rewrite str_take_length; lia).
  assert (String.length (str_take 4 (str_drop 8 h)) = 4) as H2
    by (rewrite str_take_length, str_drop_length; lia).
  assert (String.length (str_take 4 (str_drop 12 h)) = 4) as H3
    by (rewrite str_take_length, str_drop_length; lia).
  assert (String.length (str_take 4 (str_drop 16 h)) = 4) as H4
    by (rewrite str_take_length, str_drop_length; lia).
  assert (String.length (str_drop 20 h) = 12) as H5
    by (rewrite str_drop_length; lia).
  do 5 (split; [done|]). split.
  - pose proof (str_take_drop 4 (str_drop 16 h)) as E1.
    pose proof (str_take_drop 4 (str_drop 12 h)) as E2.
    pose proof (str_take_drop 4 (str_drop 8 h)) as E3.
    rewrite str_drop_drop in E1, E2, E3.
    change (16 + 4) with 20 in E1. change (12 + 4) with 16 in E2. change (8 + 4) with 12 in E3.
    rewrite E1, E2, E3. apply str_take_drop.
  - rewrite !str_length_app, H1, H2, H3, H4, H5. done.
Qed.

(** ** AliasOverrideResolver: what one pass writes and reports *)

Section AliasOverridePass.
Import AliasOverride.

Lemma joins_distinct d a : joins d a = true → set_from a d ≠ d.
Proof.
  unfold joins. intros [_ H]%andb_true_iff.
  apply negb_true_iff, bool_decide_eq_false in H.
  intros E. apply H. apply (f_equal master_person_id) in E. by simpl in E.
Qed.

Lemma updates_row_changed aliases d d' :
  updates_row aliases d d' →
  donor_name d' = donor_name d
  ∧ (existsb (joins d) aliases = true ↔ d ≠ d').
Proof.
  intros [Hk|a Ha Hj].
  - split; [done|]. split; [|done].
    intros (a & Ha%list_elem_of_In & Hj)%existsb_exists. by rewrite Hk in Hj.
  - split; [done|]. split.
    + intros _ E. by apply (joins_distinct d a).
    + intros _. apply existsb_exists. exists a. by rewrite <- list_elem_of_In.
Qed.

Lemma rowcount_changed aliases table table' :
  Forall2 (updates_row aliases) table table' →
  rowcount aliases table = changed_rows table table'.
Proof.
  unfold rowcount, changed_rows.
  induction 1 as [|d d' table table' Hrow _ IH]; [done|].
  destruct (updates_row_changed _ _ _ Hrow) as [_ Hch].
  cbn [zip zip_with]. destruct (decide (d ≠ d')) as [Hne|Heq].
  - rewrite filter_cons_True by (by apply Hch).
    rewrite (filter_cons_True _ (d, d')) by done. simpl. by rewrite IH.
  - rewrite filter_cons_False by (by rewrite Hch).
    rewrite (filter_cons_False _ (d, d')) by done. done.
Qed.

End AliasOverridePass.

(** One pass of [apply_alias_overrides] keeps the rows and their names,
    and the count it reports is exactly the number of rows whose
    [master_person_id] it changed: no row is counted for a write that
    leaves it as it was. *)
Theorem alias_overrides_rowcount
    (aliases : list AliasOverride.alias) (table table' : list AliasOverride.donation)
    (rows_updated : nat) :
  AliasOverride.apply_alias_overrides aliases table table' rows_updated →
  length table' = length table
  ∧ AliasOverride.donor_name <$> table' = AliasOverride.donor_name <$> table
  ∧ rows_updated = changed_rows table table'
  ∧ rows_updated ≤ length table.
Proof.
  intros [H ->]. split; [symmetry; by eapply Forall2_length|]. split; [|split].
  - induction H as [|d d' l l' Hrow _ IH]; [done|].
    rewrite !fmap_cons, IH. f_equal. by destruct (updates_row_changed _ _ _ Hrow).
  - by apply rowcount_changed.
  - unfold AliasOverride.rowcount. apply length_filter.
Qed.

Lemma alias_overrides_rowcount_witness :
  (AliasOverride.run_first curated_aliases donations).2 = 1
  ∧ changed_rows donations (AliasOverride.run_first curated_aliases donations).1 = 1.
Proof.
  destruct (alias_overrides_rowcount curated_aliases donations
              (AliasOverride.run_first curated_aliases donations).1
              (AliasOverride.run_first curated_aliases donations).2
              (run_first_is_a_run curated_aliases donations)) as (_ & _ & H & _).
  split; [by vm_compute | by rewrite <- H].
Defined.

(** After one pass, a record whose normalized name equals the normalized
    name of some alias carries the target id of an alias with that name;
    when no two aliases of one name carry different ids, it carries the
    target id of every such alias, so all records of that name share it. *)
Theorem alias_overrides_unify
    (aliases : list AliasOverride.alias) (table table' : list AliasOverride.donation)
    (rows_updated : nat) (d' : AliasOverride.donation) (a : AliasOverride.alias) :
  AliasOverride.apply_alias_overrides aliases table table' rows_updated →
  d' ∈ table' → a ∈ aliases →
  AliasOverride.upper_trim (AliasOverride.donor_name d')
  = AliasOverride.upper_trim (AliasOverride.alias_name a) →
  AliasOverride.upper_trim (AliasOverride.donor_name d') ≠ None →
  (∃ b, b ∈ aliases
        ∧ AliasOverride.upper_trim (AliasOverride.alias_name b)
          = AliasOverride.upper_trim (AliasOverride.donor_name d')
        ∧ AliasOverride.master_person_id d' = AliasOverride.alias_master_person_id b)
  ∧ (consistent_aliases aliases →
     AliasOverride.master_person_id d' = AliasOverride.alias_master_person_id a).
Proof.
  intros [H _] Hd' Ha Hname Hsome.
  apply list_elem_of_lookup in Hd' as [i Hi].
  destruct (Forall2_lookup_r _ _ _ _ _ H Hi) as (d & _ & Hrow).
  split.
  - destruct Hrow as [Hk|b Hb Hj].
    + exists a. split; [done|]. split; [done|].
      specialize (Hk a Ha). unfold AliasOverride.joins in Hk. rewrite <- Hname in Hk.
      destruct (AliasOverride.upper_trim (AliasOverride.donor_name d)) as [x|]; [|done].
      rewrite bool_decide_eq_true_2 in Hk by done. simpl in Hk.
      by apply negb_false_iff, bool_decide_eq_true in Hk.
    + exists b. split; [done|]. split; [|done].
      unfold AliasOverride.joins in Hj. cbn [AliasOverride.set_from AliasOverride.donor_name].
      destruct (AliasOverride.upper_trim (AliasOverride.donor_name d)) as [x|]; [|done].
      destruct (AliasOverride.upper_trim (AliasOverride.alias_name b)) as [y|]; [|done].
      apply andb_true_iff in Hj as [Hn _]. apply bool_decide_eq_true in Hn. by subst.
  - intros Hc. pose proof (updates_row_settled aliases d d' Hc Hrow a Ha) as Hs.
    unfold AliasOverride.joins in Hs. rewrite <- Hname in Hs.
    destruct (AliasOverride.upper_trim (AliasOverride.donor_name d')) as [x|]; [|done].
    rewrite bool_decide_eq_true_2 in Hs by done. simpl in Hs.
    by apply negb_false_iff, bool_decide_eq_true in Hs.
Qed.

Lemma alias_overrides_unify_witness :
  ∃ d', (AliasOverride.run_first curated_aliases donations).1 !! 0 = Some d'
        ∧ AliasOverride.master_person_id d' = Some "MP_AAAAAAAAAAAA".
Proof.
  exists (AliasOverride.mkDonation (Some " john smith") (Some "MP_AAAAAAAAAAAA")).
  split; [by vm_compute|].
  apply (proj2 (alias_overrides_unify curated_aliases donations
                  (AliasOverride.run_first curated_aliases donations).1
                  (AliasOverride.run_first curated_aliases donations).2
                  (AliasOverride.mkDonation (Some " john smith") (Some "MP_AAAAAAAAAAAA"))
                  (AliasOverride.mkAlias (Some "John Smith ") (Some "MP_AAAAAAAAAAAA"))
                  (run_first_is_a_run curated_aliases donations)
                  ltac:(vm_compute; by left)
                  ltac:(unfold curated_aliases; right; by left)
                  ltac:(by vm_compute)
                  ltac:(by vm_compute))).
  intros x y n Hx Hy. unfold curated_aliases in Hx, Hy.
  rewrite !elem_of_cons, elem_of_nil in Hx, Hy.
  destruct Hx as [->|[->|[->|[]]]], Hy as [->|[->|[->|[]]]];
    vm_compute; congruence.
Defined.

(** ** CommitteeCandidateLinker: the rows and the threshold *)

Section LinkerRows.
Import CommitteeLinker.
Variable token_sort_ratio : string → string → Z.
Hypothesis ratio_range : ∀ a b, (0 ≤ token_sort_ratio a b ≤ 100)%Z.

(** The first candidate of the highest ratio is determined by the list. *)
Lemma first_best_unique (rat : candidate → Z) pre b post pre' b' post' :
  (pre ++ b :: post = pre' ++ b' :: post')%list →
  (∀ c, c ∈ pre → (rat c < rat b)%Z) → (∀ c, c ∈ post → (rat c ≤ rat b)%Z) →
  (∀ c, c ∈ pre' → (rat c < rat b')%Z) → (∀ c, c ∈ post' → (rat c ≤ rat b')%Z) →
  b = b'.
Proof.
  revert pre'. induction pre as [|x pre IH]; intros [|x' pre'] E Hpre Hpost Hpre' Hpost';
    simpl in E.
  - by injection E.
  - injection E as Eb Ep. subst b post. exfalso.
    assert (rat x' < rat b')%Z by (apply Hpre'; by left).
    assert (rat b' ≤ rat x')%Z; [|lia].
    apply Hpost, elem_of_app. right. by left.
  - injection E as Eb Ep. subst b' post'. exfalso.
    assert (rat x < rat b)%Z by (apply Hpre; by left).
    assert (rat b ≤ rat x)%Z; [|lia].
    apply Hpost', elem_of_app. right. by left.
  - injection E as Ex E. subst x'. apply (IH pre' E); try done.
    + intros c Hc. apply Hpre. by right.
    + intros c Hc. apply Hpre'. by right.
Qed.

(** A committee matched at a threshold is matched with the same row at
    every lower threshold: lowering the threshold can add rows for other
    committees, but never changes or removes one. *)
Theorem link_committee_lower_threshold (threshold threshold' : float)
    (candidates : list candidate) (comm : committee) (row : match_row) :
  PrimFloat.leb threshold threshold' = true →
  link_committee token_sort_ratio threshold' candidates comm = Some (Some row) →
  link_committee token_sort_ratio threshold candidates comm = Some (Some row).
Proof.
  intros Hle. rewrite !(link_committee_cases token_sort_ratio). destruct (_ || _); [done|].
  case_bool_decide; [done|].
  set (l := List.filter _ candidates).
  pose proof (best_scan token_sort_ratio ratio_range threshold (committee_name comm) l) as Hinv.
  pose proof (best_scan token_sort_ratio ratio_range threshold' (committee_name comm) l) as Hinv'.
  unfold best_inv in Hinv, Hinv'.
  destruct (fold_left (best_step token_sort_ratio threshold' _) l _) as [[best'|] bs']; [|done].
  cbn [fst snd] in Hinv' |- *.
  destruct Hinv' as (-> & Hthr' & Hpos' & pre' & post' & El' & Hpre' & Hpost').
  destruct (fold_left (best_step token_sort_ratio threshold _) l _) as [[best|] bs];
    cbn [fst snd] in Hinv |- *.
  - destruct Hinv as (-> & Hthr & Hpos & pre & post & El & Hpre & Hpost).
    rewrite El in El'.
    by rewrite (first_best_unique _ pre best post pre' best' post' El' Hpre Hpost Hpre' Hpost').
  - destruct Hinv as (_ & Hnone).
    assert (best' ∈ l) as Hin by (rewrite El'; apply elem_of_app; right; by left).
    specialize (Hnone best' Hin).
    rewrite (float_leb_trans _ _ _ Hle Hthr') in Hnone.
    apply andb_false_iff in Hnone as [Hz%Z.ltb_ge|]; [lia | done].
Qed.

Lemma link_committee_row threshold candidates comm row :
  link_committee token_sort_ratio threshold candidates comm = Some (Some row) →
  m_committee_id row = committee_id comm
  ∧ m_match_type row = "county+fuzzy_name"
  ∧ PyFloat.gtb (m_confidence row) 0 = true
  ∧ PyFloat.geb 1 (m_confidence row) = true
  ∧ PyFloat.geb (m_confidence row) threshold = true.
Proof.
  rewrite (link_committee_cases token_sort_ratio). destruct (_ || _); [done|].
  case_bool_decide; [done|].
  set (l := List.filter _ candidates).
  pose proof (best_scan token_sort_ratio ratio_range threshold (committee_name comm) l) as Hinv.
  unfold best_inv in Hinv.
  destruct (fold_left _ l _) as [[best|] bs]; [|done]. cbn [fst snd] in Hinv |- *.
  destruct Hinv as (-> & Hthr & Hpos & _).
  intros [= <-]. cbn [m_committee_id m_match_type m_confidence].
  pose proof (ratio_of_range token_sort_ratio ratio_range (committee_name comm)
                (name_on_ballot best)) as Hr.
  fold (candidate_ratio token_sort_ratio (committee_name comm) best) in Hr.
  split; [done|]. split; [done|]. unfold PyFloat.gtb, PyFloat.geb.
  split; [|split; [|done]].
  - change 0%float with (score_of 0). rewrite score_of_ltb by (done || lia).
    by apply Z.ltb_lt.
  - change 1%float with (score_of 100). rewrite score_of_leb by (done || lia).
    apply Z.leb_le. lia.
Qed.

(** The rows collected from the outcomes of the iterations keep the order
    of the committees. *)
Lemma outcomes_sublist {A B C} (f : A → option (option B)) (g : B → C) (h : A → C) l outs :
  (∀ x y, f x = Some (Some y) → g y = h x) →
  Forall2 (λ x out, f x = Some out) l outs →
  sublist (g <$> omap (λ out : option B, out) outs) (h <$> l).
Proof.
  intros H. induction 1 as [|x out l outs Hx _ IH]; simpl; [constructor|].
  destruct out as [y|]; simpl.
  - rewrite (H x y Hx). by constructor.
  - by constructor.
Qed.

Lemma link_committee_returns threshold candidates comm :
  candidates ≠ [] → is_Some (link_committee token_sort_ratio threshold candidates comm).
Proof.
  intros Hne. rewrite (link_committee_cases token_sort_ratio). destruct (_ || _); [done|].
  by rewrite bool_decide_eq_false_2.
Qed.

(** On a candidate table that is not empty the run returns. The rows it
    returns come in the order of the committees, at most one for each, and
    every row carries a confidence that is positive, at most 1 and at least
    the threshold. *)
Theorem link_committees_rows (threshold : float)
    (committees : list committee) (candidates : list candidate) :
  (candidates ≠ [] →
   is_Some (link_committees_to_candidates token_sort_ratio threshold committees candidates))
  ∧ ∀ rows,
      link_committees_to_candidates token_sort_ratio threshold committees candidates = Some rows →
      sublist (m_committee_id <$> rows) (committee_id <$> committees)
      ∧ Forall (λ row, m_match_type row = "county+fuzzy_name"
                       ∧ PyFloat.gtb (m_confidence row) 0 = true
                       ∧ PyFloat.geb 1 (m_confidence row) = true
                       ∧ PyFloat.geb (m_confidence row) threshold = true) rows.
Proof.
  unfold link_committees_to_candidates. rewrite link_fold_mapM. split.
  - intros Hne. apply fmap_is_Some, mapM_is_Some, Forall_forall. intros comm _.
    by apply link_committee_returns.
  - intros rows (outs & Houts%mapM_Some & ->)%fmap_Some. simpl. split.
    + apply (outcomes_sublist _ _ _ _ _ (λ comm row H, proj1 (link_committee_row _ _ _ _ H)) Houts).
    + apply Forall_forall. intros row (out & Hout & ->)%list_elem_of_omap.
      apply list_elem_of_lookup_1 in Hout as [i Hi].
      destruct (Forall2_lookup_r _ _ _ _ _ Houts Hi) as (comm & _ & H).
      by apply link_committee_row in H as (_ & ? & ? & ? & ?).
Qed.

End LinkerRows.

Lemma link_committee_lower_threshold_witness :
  CommitteeLinker.m_candidate_id
    <$> mjoin (CommitteeLinker.link_committee exact_ratio 0.5 wake_candidates smith_committee)
  = Some 8%Z.
Proof.
  destruct (CommitteeLinker.link_committee exact_ratio 0.85 wake_candidates smith_committee)
    as [[row|]|] eqn:E; [|by vm_compute in E..].
  rewrite (link_committee_lower_threshold exact_ratio exact_ratio_range 0.5 0.85
             wake_candidates smith_committee row ltac:(by vm_compute) E).
  vm_compute in E. injection E as <-. reflexivity.
Defined.

Lemma link_committees_rows_witness :
  ∃ rows,
    CommitteeLinker.link_committees_to_candidates exact_ratio 0.85
      [smith_committee] wake_candidates = Some rows
    ∧ sublist (CommitteeLinker.m_committee_id <$> rows)
              [CommitteeLinker.committee_id smith_committee].
Proof.
  pose proof (link_committees_rows exact_ratio exact_ratio_range 0.85 [smith_committee]
                wake_candidates) as [Hret Hrows].
  destruct (Hret ltac:(done)) as [rows E]. exists rows. split; [done|].
  by destruct (Hrows rows E).
Defined.

(** ** NameParser: the tokens of a name and the fields they go to *)

Example parse_name_examples :
  NameParser.parse_name "DR. JAMES ARTHUR POPE JR"
  = NameParser.mkParsed (Some "Dr.") (Some "James") (Some "Arthur") (Some "Pope") (Some "JR") None
  ∧ NameParser.parse_name "MRS. MARY ANN SMITH-JONES"
    = NameParser.mkParsed (Some "Mrs.") (Some "Mary") (Some "Ann") (Some "Smith-Jones") None None
  ∧ NameParser.parse_name "J. HUFF"
    = NameParser.mkParsed None (Some "J") None (Some "Huff") None None
  ∧ NameParser.parse_name "(bob) SR"
    = NameParser.mkParsed (Some "Sr") None None None None (Some "Bob").
Proof. repeat split; vm_compute; reflexivity. Qed.

Section NameParserFacts.
Import NameParser.

Local Abbreviation no_period := (λ c : ascii, negb (bool_decide (c = "."%char))).

Lemma upper_fixed s : str_forall (λ c, negb (is_lower c)) s = true → upper s = s.
Proof.
  unfold upper. induction s as [|c s IH]; simpl; [done|].
  intros [Hc Hs]%andb_true_iff. rewrite IH by done. f_equal.
  unfold upper_char. by destruct (is_lower c).
Qed.

Lemma upper_title b s : upper (title_from b s) = upper s.
Proof.
  unfold upper. revert b. induction s as [|c s IH]; intros b; simpl; [done|].
  destruct (is_alpha c); simpl; rewrite IH; [|done].
  f_equal. destruct b; [apply upper_lower_char | apply upper_char_idem].
Qed.

Lemma upper_app (s t : string) : upper (s ++ t) = upper s ++ upper t.
Proof.
  unfold upper. induction s as [|c s IH]; [done|].
  change (String (upper_char c) (smap upper_char (s ++ t))
          = String (upper_char c) (smap upper_char s ++ smap upper_char t)).
  by rewrite IH.
Qed.

Lemma str_join_cons sep p ps :
  str_join sep (p :: ps) = match ps with [] => p | _ => p ++ sep ++ str_join sep ps end.
Proof. by destruct ps. Qed.

Lemma upper_join l : upper (str_join " " l) = str_join " " (upper <$> l).
Proof.
  induction l as [|p ps IH]; [done|].
  rewrite fmap_cons, !str_join_cons. destruct ps as [|q ps]; [done|].
  rewrite !upper_app, IH. done.
Qed.

Lemma str_join_app sep (xs ys : list string) :
  xs ≠ [] → ys ≠ [] →
  str_join sep (xs ++ ys) = str_join sep xs ++ sep ++ str_join sep ys.
Proof.
  intros Hx Hy. induction xs as [|x xs IH]; [done|].
  destruct xs as [|x' xs].
  - simpl app. rewrite str_join_cons. by destruct ys.
  - change ((x :: x' :: xs) ++ ys)%list with (x :: ((x' :: xs) ++ ys))%list.
    rewrite !str_join_cons, IH by done.
    simpl app. by rewrite !str_app_assoc.
Qed.

(** Joining the joined groups joins their members. *)
Lemma str_join_concat sep (groups : list (list string)) :
  Forall (λ g, g ≠ []) groups →
  str_join sep (str_join sep <$> groups) = str_join sep (concat groups).
Proof.
  induction 1 as [|g groups Hg Hgs IH]; [done|].
  rewrite fmap_cons, str_join_cons. simpl concat.
  destruct groups as [|g' groups]; [by rewrite app_nil_r|].
  rewrite str_join_app, IH; [done | done |].
  apply Forall_cons in Hgs as [Hg' _]. simpl. by destruct g'.
Qed.

Lemma title_char_period (b : bool) c :
  is_alpha c = true → no_period (if b then lower_char c else upper_char c) = true.
Proof. destruct b; by destruct c as [[] [] [] [] [] [] [] []]. Qed.

Lemma title_no_period b s :
  str_forall no_period s = true → str_forall no_period (title_from b s) = true.
Proof.
  revert b. induction s as [|c s IH]; intros b; simpl; [done|].
  intros [Hc Hs]%andb_true_iff. destruct (is_alpha c) eqn:E; simpl.
  - by rewrite title_char_period, IH.
  - by rewrite Hc, IH.
Qed.

Lemma prefix_of_token p :
  str_forall is_token_char p = true → upper (sfilter no_period (prefix_of p)) = p.
Proof.
  intros Hp.
  assert (str_forall no_period (title p) = true) as Hn.
  { apply title_no_period. eapply str_forall_impl; [|exact Hp].
    intros c. unfold is_token_char. by intros [_ ?]%andb_true_iff. }
  assert (upper (title p) = p) as Hu.
  { unfold title. rewrite upper_title. apply upper_fixed.
    eapply str_forall_impl; [|exact Hp].
    intros c. unfold is_token_char. by intros [? _]%andb_true_iff. }
  unfold prefix_of. cbv zeta.
  repeat case_bool_decide;
    try (match goal with H : title p = _ |- _ => rewrite H in Hu; by rewrite <- Hu end).
  by rewrite sfilter_id.
Qed.

Lemma title_token p : str_forall is_token_char p = true → upper (title p) = p.
Proof.
  intros Hp. unfold title. rewrite upper_title. apply upper_fixed.
  eapply str_forall_impl; [|exact Hp].
  intros c. unfold is_token_char. by intros [? _]%andb_true_iff.
Qed.

Lemma title_tokens l :
  Forall (λ p, str_forall is_token_char p = true) l → upper <$> (title <$> l) = l.
Proof.
  induction 1 as [|p l Hp _ IH]; [done|]. by rewrite !fmap_cons, IH, title_token.
Qed.

Lemma upper_token p : str_forall is_token_char p = true → upper p = p.
Proof.
  intros Hp. apply upper_fixed. eapply str_forall_impl; [|exact Hp].
  intros c. unfold is_token_char. by intros [? _]%andb_true_iff.
Qed.

(** The characters of the parts *)

Lemma str_forall_nick_remove p k s :
  str_forall p s = true → str_forall p (nick_remove_from k s) = true.
Proof.
  revert k. induction s as [|c s IH]; intros k H; [done|].
  cbn [str_forall] in H. apply andb_true_iff in H as [Hc Hs].
  cbn [nick_remove_from]. destruct k as [|k]; [|by apply IH].
  destruct (nick_match (String c s)); [by apply IH|].
  cbn [str_forall]. rewrite Hc. by apply IH.
Qed.

Lemma str_forall_split_from p word s :
  str_forall p word = true → str_forall p s = true →
  Forall (λ w, str_forall p w = true) (HouseholdLinker.split_from word s).
Proof.
  revert word. induction s as [|c s IH]; intros word Hw; simpl.
  - intros _. destruct (falsy word); by repeat constructor.
  - intros [Hc Hs]%andb_true_iff. destruct (is_space c).
    + destruct (falsy word); [by apply IH|]. constructor; [done | by apply IH].
    + apply IH; [|done]. rewrite str_forall_app, Hw. simpl. by rewrite Hc.
Qed.

Lemma name_parts_tokens full_name :
  Forall (λ w, str_forall is_token_char w = true) (name_parts full_name).2.
Proof.
  unfold name_parts. cbv zeta. cbn [snd]. apply str_forall_split_from; [done|].
  apply str_forall_strip.
  eapply str_forall_impl; [|apply (str_forall_collapse is_token_char); [done|]].
  { intros c. by intros [? _]%andb_true_iff. }
  unfold is_token_char. apply str_forall_and; [|apply str_forall_sfilter].
  apply str_forall_sfilter_keep.
  assert (str_forall (λ c, negb (is_lower c)) (strip (upper full_name)) = true) as H
    by apply str_forall_strip, str_forall_upper.
  destruct (nick_search _); [by apply str_forall_nick_remove | done].
Qed.

(** The fields [assign_parts] fills, as groups of parts. *)
Lemma assign_parts_groups res parts :
  first_name res = None → middle_name res = None → last_name res = None →
  ∃ groups,
    omap (λ x : option string, x) [first_name (assign_parts res parts); middle_name (assign_parts res parts);
                   last_name (assign_parts res parts)]
    = str_join " " <$> groups
    ∧ Forall (λ g, g ≠ []) groups
    ∧ concat groups = title <$> parts
    ∧ prefix (assign_parts res parts) = prefix res
    ∧ suffix (assign_parts res parts) = suffix res.
Proof.
  intros H1 H2 H3. destruct parts as [|p [|q [|x rest]]].
  - exists []. simpl. by rewrite H1, H2, H3.
  - exists [[title p]]. simpl. repeat split; by repeat constructor.
  - exists [[title p]; [title q]]. simpl. repeat split; by repeat constructor.
  - exists [[title p]; title <$> removelast (q :: x :: rest); [title (List.last (x :: rest) q)]].
    assert (last (q :: x :: rest) = Some (List.last (x :: rest) q)) as Hl.
    { clear. revert q x. induction rest as [|y rest IH]; intros q x; [done|].
      change (last (q :: x :: y :: rest)) with (last (x :: y :: rest)).
      change (List.last (x :: y :: rest) q) with (List.last (y :: rest) q).
      rewrite (IH x y). f_equal. clear. revert y. induction rest as [|z rest IH]; intros y; [done|].
      change (List.last (y :: z :: rest) x) with (List.last (z :: rest) x).
      change (List.last (y :: z :: rest) q) with (List.last (z :: rest) q). apply IH. }
    cbn [assign_parts first_name middle_name last_name prefix suffix].
    rewrite Hl. cbn [fmap option_fmap option_map omap list_omap mbind option_bind].
    split; [done|]. split.
    { repeat constructor; try done. }
    split; [|done].
    cbn [concat]. rewrite app_nil_r.
    rewrite (app_removelast_last (l := q :: x :: rest) q) at 2 by done.
    cbn [app list_fmap]. f_equal.
    symmetry. apply (fmap_app title (removelast (q :: x :: rest)) [List.last (q :: x :: rest) q]).
Qed.

Lemma parsed_tokens_split r :
  parsed_tokens r
  = (omap (λ x : option string, x) [sfilter no_period <$> prefix r]
     ++ omap (λ x : option string, x) [first_name r; middle_name r; last_name r]
     ++ omap (λ x : option string, x) [suffix r])%list.
Proof. unfold parsed_tokens. by rewrite <- !omap_app. Qed.

Lemma str_join_singletons sep (l : list string) :
  str_join sep <$> ((λ x, [x]) <$> l) = l.
Proof. induction l as [|x l IH]; [done|]. by rewrite !fmap_cons, IH. Qed.

Lemma concat_singletons (l : list string) : concat ((λ x, [x]) <$> l) = l.
Proof. induction l as [|x l IH]; [done|]. rewrite fmap_cons. simpl. by rewrite IH. Qed.

Lemma singletons_nonempty (l : list string) :
  Forall (λ g : list string, g ≠ []) ((λ x, [x]) <$> l).
Proof. induction l as [|x l IH]; [constructor|]. rewrite fmap_cons. by constructor. Qed.

(** The tokens of the fields [assign_parts] leaves: those of the prefix,
    the parts, those of the suffix. *)
Lemma parsed_tokens_assign res parts :
  first_name res = None → middle_name res = None → last_name res = None →
  Forall (λ p, str_forall is_token_char p = true) parts →
  upper (str_join " " (parsed_tokens (assign_parts res parts)))
  = str_join " "
      ((upper <$> omap (λ x : option string, x) [sfilter no_period <$> prefix res])
       ++ parts ++ (upper <$> omap (λ x : option string, x) [suffix res]))%list.
Proof.
  intros H1 H2 H3 Ht.
  destruct (assign_parts_groups res parts H1 H2 H3) as (G & HG & Hne & Hcat & Hp & Hs).
  rewrite parsed_tokens_split, HG, Hp, Hs.
  set (pre := omap (λ x : option string, x) [sfilter no_period <$> prefix res]).
  set (suf := omap (λ x : option string, x) [suffix res]).
  rewrite <- (str_join_singletons " " pre) at 1.
  rewrite <- (str_join_singletons " " suf) at 1.
  rewrite <- !fmap_app, str_join_concat, upper_join.
  - rewrite !concat_app, !concat_singletons, Hcat, !fmap_app.
    by rewrite (title_tokens _ Ht).
  - apply Forall_app. split; [apply singletons_nonempty|].
    apply Forall_app. split; [done | apply singletons_nonempty].
Qed.

Lemma name_parts_blank full_name : strip full_name = "" → (name_parts full_name).2 = [].
Proof.
  intros H. unfold name_parts. rewrite strip_upper, H. by vm_compute.
Qed.

Lemma assign_parts_fields res parts :
  first_name res = None → middle_name res = None → last_name res = None →
  (is_Some (first_name (assign_parts res parts)) → is_Some (last_name (assign_parts res parts)))
  ∧ (is_Some (middle_name (assign_parts res parts))
     → is_Some (first_name (assign_parts res parts))).
Proof.
  intros H1 H2 H3. destruct parts as [|p [|q [|x rest]]]; simpl; rewrite ?H1, ?H2, ?H3.
  - split; by intros [? ?].
  - split; by intros [? ?].
  - split; by eauto.
  - split; [|by eauto]. intros _.
    destruct (proj2 (last_is_Some (q :: x :: rest)) ltac:(done)) as [z Hz].
    change (last (q :: x :: rest)) with (last (x :: rest)) in Hz. rewrite Hz. by eauto.
Qed.

Lemma split_from_words word s :
  str_forall (λ c, negb (is_space c)) word = true →
  Forall (λ w, is_word_string w = true) (HouseholdLinker.split_from word s).
Proof.
  revert word. induction s as [|c s IH]; intros word Hw; cbn [HouseholdLinker.split_from].
  - destruct (falsy word) eqn:E; [constructor|].
    repeat constructor. unfold is_word_string. by rewrite E, Hw.
  - destruct (is_space c) eqn:Ec.
    + destruct (falsy word) eqn:E; [by apply IH|].
      constructor; [|by apply IH]. unfold is_word_string. by rewrite E, Hw.
    + apply IH. rewrite str_forall_app, Hw. simpl. by rewrite Ec.
Qed.

Lemma name_parts_words full_name :
  Forall (λ w, is_word_string w = true) (name_parts full_name).2.
Proof. unfold name_parts. cbv zeta. cbn [snd]. by apply split_from_words. Qed.

Lemma title_char_space (b : bool) c :
  is_alpha c = true → is_space (if b then lower_char c else upper_char c) = false.
Proof. destruct b; by destruct c as [[] [] [] [] [] [] [] []]. Qed.

Lemma title_word b s : is_word_string s = true → is_word_string (title_from b s) = true.
Proof.
  unfold is_word_string. intros [Hne Hs]%andb_true_iff. apply andb_true_iff. split.
  - destruct s as [|c s]; [done|]. simpl. by destruct (is_alpha c).
  - clear Hne. revert b. induction s as [|c s IH]; intros b; [done|].
    cbn [str_forall] in Hs. apply andb_true_iff in Hs as [Hc Hs].
    cbn [title_from]. destruct (is_alpha c) eqn:E; cbn [str_forall].
    + by rewrite title_char_space, IH.
    + by rewrite Hc, IH.
Qed.

Lemma prefix_of_word p : is_word_string p = true → is_word_string (prefix_of p) = true.
Proof.
  intros Hp. unfold prefix_of. cbv zeta. repeat case_bool_decide; try done.
  by apply title_word.
Qed.

Lemma words_cons w l :
  is_word_string w = true → Forall (λ w, is_word_string w = true) l →
  Forall (λ w, is_word_string w = true) (w :: l).
Proof. by constructor. Qed.

Lemma words_around (pre suf : option string) mid :
  Forall (λ w, is_word_string w = true) (omap (λ x : option string, x) [pre; suf]) →
  Forall (λ w, is_word_string w = true) mid →
  Forall (λ w, is_word_string w = true)
         (omap (λ x : option string, x) [pre] ++ mid
          ++ omap (λ x : option string, x) [suf])%list.
Proof.
  destruct pre as [x|], suf as [y|]; cbn [omap list_omap mbind option_bind app]; intros H Hm.
  - apply Forall_cons in H as [Hx [Hy _]%Forall_cons]. constructor; [done|].
    apply Forall_app. split; [done|]. by repeat constructor.
  - apply Forall_cons in H as [Hx _]. constructor; [done|]. by rewrite app_nil_r.
  - apply Forall_cons in H as [Hy _]. apply Forall_app. split; [done|]. by repeat constructor.
  - by rewrite app_nil_r.
Qed.

(** The single-word fields [assign_parts] fills. *)
Lemma assign_parts_words res parts :
  first_name res = None → last_name res = None →
  Forall (λ w, is_word_string w = true) parts →
  Forall (λ w, is_word_string w = true)
         (omap (λ x : option string, x) [prefix res; suffix res]) →
  Forall (λ w, is_word_string w = true)
         (omap (λ x : option string, x)
               [prefix (assign_parts res parts); first_name (assign_parts res parts);
                last_name (assign_parts res parts); suffix (assign_parts res parts)]).
Proof.
  intros H1 H3 Hp Hps.
  pose proof (λ mid, words_around (prefix res) (suffix res) mid Hps) as Hmid.
  assert (∀ r, omap (λ x : option string, x) [prefix r; first_name r; last_name r; suffix r]
               = (omap (λ x : option string, x) [prefix r]
                  ++ omap (λ x : option string, x) [first_name r; last_name r]
                  ++ omap (λ x : option string, x) [suffix r])%list) as Hsplit
    by (intros r; by rewrite <- !omap_app).
  rewrite Hsplit.
  destruct parts as [|p [|q [|x rest]]].
  - cbn [assign_parts]. rewrite H1, H3. by apply Hmid.
  - apply Forall_cons in Hp as [Hp _].
    cbn [assign_parts prefix first_name last_name suffix].
    apply Hmid. repeat constructor. by apply title_word.
  - apply Forall_cons in Hp as [Hp [Hq _]%Forall_cons].
    cbn [assign_parts prefix first_name last_name suffix].
    apply Hmid. repeat constructor; by apply title_word.
  - destruct (proj2 (last_is_Some (q :: x :: rest)) ltac:(done)) as [z Hz].
    assert (is_word_string z = true) as Hzw.
    { apply Forall_cons in Hp as [_ Hp].
      apply (proj1 (Forall_forall _ _) Hp). by apply last_Some_elem_of. }
    apply Forall_cons in Hp as [Hp _].
    cbn [assign_parts prefix first_name last_name suffix].
    rewrite Hz. apply Hmid. repeat constructor; by apply title_word.
Qed.

End NameParserFacts.

(** [parse_name] drops no part of the name and adds none: the prefix
    without its period, the first, middle and last names and the suffix,
    read in this order, joined by spaces and upper-cased, are the parts of
    the cleaned name joined by spaces. *)
Theorem parse_name_tokens (full_name : string) :
  upper (str_join " " (parsed_tokens (NameParser.parse_name full_name)))
  = str_join " " (NameParser.name_parts full_name).2.
Proof.
  unfold NameParser.parse_name. cbv zeta.
  destruct (falsy full_name || falsy (strip full_name)) eqn:Eb.
  { rewrite name_parts_blank; [done|].
    apply orb_true_iff in Eb as [->%falsy_true| ->%falsy_true]; done. }
  pose proof (name_parts_tokens full_name) as Ht.
  destruct (NameParser.name_parts full_name) as [nick parts]. cbn [snd] in Ht |- *.
  destruct parts as [|p rest]; [done|].
  apply Forall_cons in Ht as [Hp Hrest].
  destruct (bool_decide (p ∈ NameParser.PREFIXES)).
  - destruct (last rest) as [s|] eqn:El.
    + assert (rest = removelast rest ++ [s])%list as Hr.
      { rewrite (app_removelast_last (l := rest) s) at 1
          by (intros ->; discriminate El).
        f_equal. f_equal. apply (inj Some). rewrite <- El.
        destruct rest as [|y rest]; [done|]. symmetry. clear.
        revert y. induction rest as [|z rest IH]; intros y; [done|]. apply (IH z). }
      assert (Forall (λ p, str_forall is_token_char p = true) (removelast rest)
              ∧ str_forall is_token_char s = true) as [Hinit Hs].
      { rewrite Hr in Hrest. apply Forall_app in Hrest as [? Hs].
        split; [done|]. by apply Forall_cons in Hs as [? _]. }
      destruct (bool_decide (s ∈ NameParser.SUFFIXES)).
      * rewrite parsed_tokens_assign by done. cbn [NameParser.prefix NameParser.suffix].
        cbn [fmap option_fmap option_map omap list_omap mbind option_bind list_fmap app].
        rewrite prefix_of_token, (upper_token s) by done. by rewrite Hr at 2.
      * rewrite parsed_tokens_assign by done. cbn [NameParser.prefix NameParser.suffix].
        cbn [fmap option_fmap option_map omap list_omap mbind option_bind list_fmap app].
        rewrite prefix_of_token by done. by rewrite app_nil_r.
    + apply last_None in El as ->.
      unfold parsed_tokens.
      cbn [NameParser.prefix NameParser.first_name NameParser.middle_name
           NameParser.last_name NameParser.suffix
           fmap option_fmap option_map omap list_omap mbind option_bind str_join].
      by apply prefix_of_token.
  - destruct (last (p :: rest)) as [s|] eqn:El; [|by apply last_None in El].
    assert (p :: rest = removelast (p :: rest) ++ [s])%list as Hr.
    { rewrite (app_removelast_last (l := p :: rest) s) at 1 by done.
      f_equal. f_equal. apply (inj Some). rewrite <- El. symmetry. clear.
      revert p. induction rest as [|z rest IH]; intros y; [done|]. apply (IH z). }
    assert (Forall (λ p, str_forall is_token_char p = true) (removelast (p :: rest))
            ∧ str_forall is_token_char s = true) as [Hinit Hs].
    { assert (Forall (λ p, str_forall is_token_char p = true) (p :: rest)) as Hall
        by (by constructor).
      rewrite Hr in Hall. apply Forall_app in Hall as [? Hs].
      split; [done|]. by apply Forall_cons in Hs as [? _]. }
    destruct (bool_decide (s ∈ NameParser.SUFFIXES)).
    + rewrite parsed_tokens_assign by done. cbn [NameParser.prefix NameParser.suffix].
      cbn [fmap option_fmap option_map omap list_omap mbind option_bind list_fmap app].
      rewrite (upper_token s) by done. by rewrite Hr at 2.
    + rewrite parsed_tokens_assign by (done || by constructor).
      cbn [NameParser.prefix NameParser.suffix].
      cbn [fmap option_fmap option_map omap list_omap mbind option_bind list_fmap app].
      by rewrite app_nil_r.
Qed.

(** [parse_name] returns a first name only together with a last name, and
    a middle name only together with a first name; for an empty or blank
    name every field, the nickname included, is absent. *)
Theorem parse_name_fields (full_name : string) :
  (is_Some (NameParser.first_name (NameParser.parse_name full_name))
   → is_Some (NameParser.last_name (NameParser.parse_name full_name)))
  ∧ (is_Some (NameParser.middle_name (NameParser.parse_name full_name))
     → is_Some (NameParser.first_name (NameParser.parse_name full_name)))
  ∧ (strip full_name = ""
     → NameParser.parse_name full_name = NameParser.mkParsed None None None None None None).
Proof.
  assert (∀ x : option string, is_Some (@None string) → is_Some x) as Hn by (by intros ? [? ?]).
  unfold NameParser.parse_name. cbv zeta.
  destruct (falsy full_name || falsy (strip full_name)) eqn:Eb.
  { repeat split; (done || apply Hn). }
  apply orb_false_iff in Eb as [_ Eb%falsy_false].
  split; [|split; [|done]].
  - destruct (NameParser.name_parts full_name) as [nick parts].
    destruct parts as [|p rest]; [apply Hn|].
    destruct (bool_decide (p ∈ NameParser.PREFIXES)).
    + destruct (last rest) as [s|]; [|apply Hn].
      destruct (bool_decide (s ∈ NameParser.SUFFIXES)); by apply assign_parts_fields.
    + destruct (last (p :: rest)) as [s|]; [|apply Hn].
      destruct (bool_decide (s ∈ NameParser.SUFFIXES)); by apply assign_parts_fields.
  - destruct (NameParser.name_parts full_name) as [nick parts].
    destruct parts as [|p rest]; [apply Hn|].
    destruct (bool_decide (p ∈ NameParser.PREFIXES)).
    + destruct (last rest) as [s|]; [|apply Hn].
      destruct (bool_decide (s ∈ NameParser.SUFFIXES)); by apply assign_parts_fields.
    + destruct (last (p :: rest)) as [s|]; [|apply Hn].
      destruct (bool_decide (s ∈ NameParser.SUFFIXES)); by apply assign_parts_fields.
Qed.

(** The prefix, the first name, the last name and the suffix [parse_name]
    returns are single words: not empty, and without whitespace. *)
Theorem parse_name_words (full_name : string) :
  Forall (λ w, is_word_string w = true)
         (omap (λ x : option string, x)
               [ NameParser.prefix (NameParser.parse_name full_name);
                 NameParser.first_name (NameParser.parse_name full_name);
                 NameParser.last_name (NameParser.parse_name full_name);
                 NameParser.suffix (NameParser.parse_name full_name) ]).
Proof.
  unfold NameParser.parse_name. cbv zeta.
  destruct (falsy full_name || falsy (strip full_name)); [constructor|].
  pose proof (name_parts_words full_name) as Hw.
  destruct (NameParser.name_parts full_name) as [nick parts]. cbn [snd] in Hw.
  destruct parts as [|p rest]; [constructor|].
  apply Forall_cons in Hw as [Hp Hrest].
  destruct (bool_decide (p ∈ NameParser.PREFIXES)).
  - destruct (last rest) as [s|] eqn:El.
    + assert (is_word_string s = true) as Hs
        by (apply (proj1 (Forall_forall _ _) Hrest); by apply last_Some_elem_of).
      destruct (bool_decide (s ∈ NameParser.SUFFIXES)).
      * apply assign_parts_words; [done | done | |].
        -- apply Forall_forall. intros w Hin. apply (proj1 (Forall_forall _ _) Hrest).
           destruct rest as [|y rest]; [done|].
           rewrite (app_removelast_last (l := y :: rest) s) by done.
           apply elem_of_app. by left.
        -- repeat constructor; [by apply prefix_of_word | done].
      * apply assign_parts_words; [done | done | done |].
        repeat constructor. by apply prefix_of_word.
    + repeat constructor. by apply prefix_of_word.
  - destruct (last (p :: rest)) as [s|] eqn:El; [|constructor].
    assert (Forall (λ w, is_word_string w = true) (p :: rest)) as Hall by (by constructor).
    assert (is_word_string s = true) as Hs
      by (apply (proj1 (Forall_forall _ _) Hall); by apply last_Some_elem_of).
    destruct (bool_decide (s ∈ NameParser.SUFFIXES)).
    + apply assign_parts_words; [done | done | |].
      * apply Forall_forall. intros w Hin. apply (proj1 (Forall_forall _ _) Hall).
        rewrite (app_removelast_last (l := p :: rest) s) by done.
        apply elem_of_app. by left.
      * by repeat constructor.
    + apply assign_parts_words; [done | done | done | constructor].
Qed.
